(** * Runway beam design tool: analysis and capacity engine

    A shallow embedding of the numerical core of [runway_beam_v3_6.py]
    (crane wheel loads, moving-load analysis, governing-case selection,
    section classification, shear strength, fatigue, deflection, section
    properties) together with the properties stated about it.

    Modelling conventions.
    - Python [float] values are real numbers ([R]): arithmetic is exact,
      binary64 rounding, infinities and NaN are not represented.
    - Python [int] values that are counted or iterated over are integers
      ([Z]); they are injected into [R] with [IZR] where the source mixes
      them with floats.
    - An exception is an explicit [Raise] in the result type [res];
      a division whose divisor cannot be zero where it stands (a non-zero
      literal, a [max(_, c)] with [c > 0], a value just tested positive)
      is written with [/] directly.
    - A method that assigns to [self] returns the updated record.
    - A [dict] with a fixed set of keys is a record, a [dict] whose set of
      keys depends on the input is an association list in insertion order.
    - Statements that depend on rounding (an identity that needs exact
      cancellation, a value that sits on a limit) are not made on the
      real-number embedding: the functions concerned are embedded a
      second time on binary64, in the module [F64] at the end of the
      definitions, and the statements are made there. *)

From Stdlib Require Import Reals Lra Lia List ZArith String Bool.
From Stdlib Require Floats.
Import ListNotations.
Open Scope R_scope.
Set Warnings "-inexact-float".

(* ================================================================== *)
(** ** Python primitives *)
(* ================================================================== *)

Module Py.

Inductive PyError : Type :=
| ZeroDivisionError
| ValueError.

Inductive res (A : Type) : Type :=
| Ok (a : A)
| Raise (e : PyError).

Arguments Ok {A} a.
Arguments Raise {A} e.

Definition bind {A B : Type} (c : res A) (k : A -> res B) : res B :=
  match c with
  | Ok a => k a
  | Raise e => Raise e
  end.

(** [x / y] on floats. *)
Definition truediv (x y : R) : res R :=
  if Req_dec_T y 0 then Raise ZeroDivisionError else Ok (x / y).

(** [math.sqrt(x)]. *)
Definition math_sqrt (x : R) : res R :=
  if Rlt_dec x 0 then Raise ValueError else Ok (sqrt x).

(** [max(a, b)]: the first argument is kept unless the second is
    strictly larger. *)
Definition max2 (a b : R) : R := if Rlt_dec a b then b else a.

(** [min(a, b)]: the first argument is kept unless the second is
    strictly smaller. *)
Definition min2 (a b : R) : R := if Rlt_dec b a then b else a.

Definition max3 (a b c : R) : R := max2 (max2 a b) c.

(** [sum(xs)]: left fold starting from [0]. *)
Definition sum (xs : list R) : R := fold_left Rplus xs 0.

(** [range(n)] for an integer [n]; empty when [n <= 0]. *)
Definition range (n : Z) : list Z :=
  map Z.of_nat (seq 0 (Z.to_nat n)).

(** [max(xs, key=key)]: the first element whose key is not exceeded by a
    later one; [None] stands for the empty argument. *)
Fixpoint max_key_from {A : Type} (key : A -> R) (best : A) (xs : list A) : A :=
  match xs with
  | [] => best
  | x :: xs' =>
      if Rlt_dec (key best) (key x)
      then max_key_from key x xs'
      else max_key_from key best xs'
  end.

Definition max_key {A : Type} (key : A -> R) (xs : list A) : option A :=
  match xs with
  | [] => None
  | x :: xs' => Some (max_key_from key x xs')
  end.

(** [sorted(xs, key=key, reverse=True)]: stable, descending. *)
Fixpoint insert_desc {A : Type} (key : A -> R) (x : A) (l : list A) : list A :=
  match l with
  | [] => [x]
  | y :: l' =>
      if Rlt_dec (key x) (key y)
      then y :: insert_desc key x l'
      else x :: y :: l'
  end.

Definition sorted_desc {A : Type} (key : A -> R) (l : list A) : list A :=
  fold_right (insert_desc key) [] l.

(** [sorted(set(xs))] on floats: ascending, without repetitions. *)
Fixpoint insert_uniq (x : R) (l : list R) : list R :=
  match l with
  | [] => [x]
  | y :: l' =>
      if Rlt_dec x y then x :: y :: l'
      else if Req_dec_T x y then y :: l'
      else y :: insert_uniq x l'
  end.

Definition sorted_set (l : list R) : list R :=
  fold_right insert_uniq [] l.

(** [numpy.linspace(start, stop, num)] with the end point included. *)
Definition linspace (start stop : R) (num : nat) : list R :=
  map (fun i : nat =>
         if Nat.eqb (S i) num then stop
         else start + INR i * ((stop - start) / INR (num - 1)))
      (seq 0 num).

(** The comparison [x > 0] as a boolean. *)
Definition Rpos_b (x : R) : bool := if Rlt_dec 0 x then true else false.

(** Sequencing of computations that may raise; the first [Raise] wins. *)
Fixpoint mapM {A B : Type} (f : A -> res B) (l : list A) : res (list B) :=
  match l with
  | [] => Ok []
  | x :: l' =>
      bind (f x) (fun y => bind (mapM f l') (fun ys => Ok (y :: ys)))
  end.

End Py.

Import Py.

Notation "x <- c ;; k" := (bind c (fun x => k))
  (at level 61, c at next level, right associativity).
Notation "' pat <- c ;; k" := (bind c (fun x => match x with pat => k end))
  (at level 61, pat pattern, c at next level, right associativity).

(* ================================================================== *)
(** ** Constants *)
(* ================================================================== *)

Definition E_STEEL : R := 200000.
Definition G_STEEL : R := 77200.
Definition GRAVITY : R := 9.81.

Record FatigueCat : Type := mkFatigueCat {
  Cf : R;
  thresh : R
}.

(** [FATIGUE_CATS['E']]. *)
Definition FATIGUE_CAT_E : FatigueCat := mkFatigueCat 11e8 31.

(** [FATIGUE_CATS], the numeric entries of each category. *)
Definition FATIGUE_CATS : list (string * FatigueCat) :=
  [ ("A"%string, mkFatigueCat 250e8 165);
    ("B"%string, mkFatigueCat 120e8 110);
    ("C"%string, mkFatigueCat 44e8 69);
    ("D"%string, mkFatigueCat 22e8 48);
    ("E"%string, FATIGUE_CAT_E);
    ("F"%string, mkFatigueCat 150e8 55) ].

Fixpoint dict_get {V : Type} (k : string) (d : list (string * V)) (dflt : V) : V :=
  match d with
  | [] => dflt
  | (k', v) :: d' => if String.eqb k k' then v else dict_get k d' dflt
  end.

(* ================================================================== *)
(** ** Crane wheel-load model *)
(* ================================================================== *)

Record CraneData : Type := mkCraneData {
  crane_id : Z;
  capacity_tonnes : R;
  bridge_weight : R;
  trolley_weight : R;
  bridge_span : R;
  min_hook_approach : R;
  wheel_base : R;
  buffer_left : R;
  buffer_right : R;
  num_wheels : Z;
  impact_v : R;
  impact_h : R;
  impact_l : R;
  use_direct_input : bool;
  direct_max_wheel_load : R;
  direct_min_wheel_load : R;
  direct_lateral_load : R;
  R_max : R;
  R_min : R;
  max_wheel_load : R;
  min_wheel_load : R
}.

(** Assignment to the four calculated attributes of a crane. *)
Definition set_loads (c : CraneData) (rmax rmin wmax wmin : R) : CraneData :=
  mkCraneData (crane_id c) (capacity_tonnes c) (bridge_weight c)
    (trolley_weight c) (bridge_span c) (min_hook_approach c) (wheel_base c)
    (buffer_left c) (buffer_right c) (num_wheels c) (impact_v c) (impact_h c)
    (impact_l c) (use_direct_input c) (direct_max_wheel_load c)
    (direct_min_wheel_load c) (direct_lateral_load c)
    rmax rmin wmax wmin.

(** [CraneData.calc_wheel_loads]: the updated crane and the returned pair
    [(max_wheel_load, min_wheel_load)]. *)
Definition calc_wheel_loads (self : CraneData) : res (CraneData * (R * R)) :=
  if use_direct_input self && Rpos_b (direct_max_wheel_load self)
  then
    let max_wl := direct_max_wheel_load self in
    let min_wl := if Rlt_dec 0 (direct_min_wheel_load self)
                  then direct_min_wheel_load self
                  else direct_max_wheel_load self * 0.2 in
    let rmax := max_wl * IZR (num_wheels self) in
    let rmin := min_wl * IZR (num_wheels self) in
    Ok (set_loads self rmax rmin max_wl min_wl, (max_wl, min_wl))
  else
    let Lb := bridge_span self in
    let e_min := min_hook_approach self in
    let P_lift := capacity_tonnes self * GRAVITY in
    let P_trolley := trolley_weight self * GRAVITY in
    let P_bridge := bridge_weight self * GRAVITY in
    let R_bridge_each := P_bridge / 2.0 in
    let P_moving := P_lift + P_trolley in
    R_moving_max <- truediv (P_moving * (Lb - e_min)) Lb ;;
    let rmax := R_bridge_each + R_moving_max in
    R_moving_min <- truediv (P_moving * e_min) Lb ;;
    let rmin := R_bridge_each + R_moving_min in
    max_wl <- truediv rmax (IZR (num_wheels self)) ;;
    min_wl <- truediv rmin (IZR (num_wheels self)) ;;
    Ok (set_loads self rmax rmin max_wl min_wl, (max_wl, min_wl)).

(** [CraneData.wheel_load_with_impact]. *)
Definition wheel_load_with_impact (self : CraneData) : res (CraneData * R) :=
  '(self', _) <- calc_wheel_loads self ;;
  Ok (self', max_wheel_load self' * (1 + impact_v self')).

(** [CraneData.min_wheel_load_with_impact]. *)
Definition min_wheel_load_with_impact (self : CraneData) : res (CraneData * R) :=
  '(self', _) <- calc_wheel_loads self ;;
  Ok (self', min_wheel_load self' * (1 + impact_v self')).

(** [CraneData.lateral_per_wheel]. *)
Definition lateral_per_wheel (self : CraneData) : res R :=
  if use_direct_input self && Rpos_b (direct_lateral_load self)
  then Ok (direct_lateral_load self)
  else
    let P_lift := capacity_tonnes self * GRAVITY in
    let P_trolley := trolley_weight self * GRAVITY in
    let H_total := impact_h self * (P_lift + P_trolley) in
    truediv H_total (IZR (2 * num_wheels self)).

(** [CraneData.longitudinal_force]. *)
Definition longitudinal_force (self : CraneData) : res (CraneData * R) :=
  '(self', _) <- calc_wheel_loads self ;;
  Ok (self', impact_l self' * R_max self').

(* ================================================================== *)
(** ** Wheel positions, load cases, sections *)
(* ================================================================== *)

Record WheelPos : Type := mkWheelPos {
  wp_crane_id : Z;
  wheel_id : Z;
  pos : R;
  Pv : R;
  Ph : R
}.

(** The description of a load case.  Each constructor stands for one of
    the string templates of [find_critical] and carries the values the
    template interpolates:
    - [DescNone]              : the empty string set by [analyze_load];
    - [CraneMaxM id cap]      : "Crane {id} ({cap:.0f}T): Max M";
    - [CraneMaxVLeft id cap]  : "Crane {id} ({cap:.0f}T): Max V (left)";
    - [CraneMaxVRight id cap] : "Crane {id} ({cap:.0f}T): Max V (right)";
    - [TwoMaxM cap1 cap2]     : "2 Cranes ({cap1:.0f}T+{cap2:.0f}T): Max M";
    - [TwoMaxVC1]             : "2 Cranes: Max V (C1 at support)";
    - [TwoMaxVC2]             : "2 Cranes: Max V (C2 at support)";
    - [TwoMaxReaction]        : "2 Cranes: Max Reaction";
    - [TwoMaxVHeavy]          : "2 Cranes: Max V (heavy at support)";
    - [ThreeMaxM]             : "3 Cranes: Max M";
    - [ThreeMaxVHeavy]        : "3 Cranes: Max V (heavy first)". *)
Inductive Desc : Type :=
| DescNone
| CraneMaxM (id : Z) (cap : R)
| CraneMaxVLeft (id : Z) (cap : R)
| CraneMaxVRight (id : Z) (cap : R)
| TwoMaxM (cap1 cap2 : R)
| TwoMaxVC1
| TwoMaxVC2
| TwoMaxReaction
| TwoMaxVHeavy
| ThreeMaxM
| ThreeMaxVHeavy.

Record LoadCase : Type := mkLoadCase {
  desc : Desc;
  wheels : list WheelPos;
  M_max : R;
  M_pos : R;
  V_max : R;
  V_pos : R;
  R_left : R;
  R_right : R;
  positions : list R;
  moments : list R;
  shears : list R
}.

(** [case.desc = d]. *)
Definition set_desc (d : Desc) (lc : LoadCase) : LoadCase :=
  mkLoadCase d (wheels lc) (M_max lc) (M_pos lc) (V_max lc) (V_pos lc)
    (R_left lc) (R_right lc) (positions lc) (moments lc) (shears lc).

Record Section : Type := mkSection {
  name : string;
  sec_type : string;
  d : R;
  bf_top : R;
  tf_top : R;
  bf_bot : R;
  tf_bot : R;
  tw : R;
  hw : R;
  has_cap : bool;
  cap_name : string;
  cap_A : R;
  cap_Iy : R;
  cap_d : R;
  cap_cy : R;
  A : R;
  Ix : R;
  Iy : R;
  Sx : R;
  Sy : R;
  Zx : R;
  rx : R;
  ry : R;
  rts : R;
  J : R;
  Cw : R;
  ho : R;
  y_bar : R;
  mass : R
}.

(** [Section.calc_props]: the section with its derived attributes
    assigned. *)
Definition calc_props (self : Section) : res Section :=
  let A_tf := bf_top self * tf_top self in
  let A_bf := bf_bot self * tf_bot self in
  let A_w := hw self * tw self in
  let A_I := A_tf + A_bf + A_w in
  let y_tf := tf_bot self + hw self + tf_top self / 2 in
  let y_bf := tf_bot self / 2 in
  let y_w := tf_bot self + hw self / 2 in
  let capped := has_cap self && Rpos_b (cap_A self) in
  let y_cap := d self + cap_cy self in
  let A' := if capped then A_I + cap_A self else A_I in
  y_bar' <- (if capped
             then truediv (A_tf * y_tf + A_bf * y_bf + A_w * y_w
                           + cap_A self * y_cap) A'
             else Ok ((A_tf * y_tf + A_bf * y_bf + A_w * y_w) / max2 A_I 1)) ;;
  let ho' := d self - (tf_top self + tf_bot self) / 2 in
  let I_tf := bf_top self * tf_top self ^ 3 / 12 + A_tf * (y_tf - y_bar') ^ 2 in
  let I_bf := bf_bot self * tf_bot self ^ 3 / 12 + A_bf * (y_bf - y_bar') ^ 2 in
  let I_w := tw self * hw self ^ 3 / 12 + A_w * (y_w - y_bar') ^ 2 in
  let Ix' := if capped
             then I_tf + I_bf + I_w
                  + (cap_Iy self + cap_A self * (y_cap - y_bar') ^ 2)
             else I_tf + I_bf + I_w in
  let Iy' := tf_top self * bf_top self ^ 3 / 12
             + tf_bot self * bf_bot self ^ 3 / 12
             + hw self * tw self ^ 3 / 12 in
  let c_top := (if has_cap self then d self + cap_d self else d self) - y_bar' in
  let Sx' := Ix' / max2 c_top 1 in
  let Sy' := Iy' / max3 (bf_top self / 2) (bf_bot self / 2) 1 in
  rx' <- math_sqrt (Ix' / max2 A' 1) ;;
  ry' <- math_sqrt (Iy' / max2 A' 1) ;;
  let Zx' := Sx' * 1.12 in
  let J' := bf_top self * tf_top self ^ 3 / 3
            + bf_bot self * tf_bot self ^ 3 / 3
            + hw self * tw self ^ 3 / 3 in
  let Cw' := if Rlt_dec 0 ho' then Iy' * ho' ^ 2 / 4 else 1 in
  inner <- math_sqrt (Iy' * Cw') ;;
  rts' <- math_sqrt (inner / max2 Sx' 1) ;;
  let mass0 := A' * 7850 / 1e6 in
  let mass' := if has_cap self then mass0 + cap_A self * 7850 / 1e6 else mass0 in
  Ok (mkSection (name self) (sec_type self) (d self) (bf_top self)
        (tf_top self) (bf_bot self) (tf_bot self) (tw self) (hw self)
        (has_cap self) (cap_name self) (cap_A self) (cap_Iy self)
        (cap_d self) (cap_cy self)
        A' Ix' Iy' Sx' Sy' Zx' rx' ry' rts' J' Cw' ho' y_bar' mass').

(* ================================================================== *)
(** ** Moving-load analysis *)
(* ================================================================== *)

(** Bending moment at [x]: the inner loop of [analyze_load] on [M]. *)
Definition moment_at (R_l : R) (ws : list WheelPos) (x : R) : R :=
  fold_left
    (fun M w => if Rlt_dec (pos w) x then M - Pv w * (x - pos w) else M)
    ws (R_l * x).

(** Shear at [x]: the inner loop of [analyze_load] on [V]. *)
Definition shear_at (R_l : R) (ws : list WheelPos) (x : R) : R :=
  fold_left
    (fun V w => if Rle_dec (pos w) x then V - Pv w else V)
    ws R_l.

(** The evaluation points [pts] of [analyze_load]. *)
Definition eval_points (L : R) (ws : list WheelPos) : list R :=
  sorted_set ([0] ++ map pos ws ++ [L]
              ++ map (fun i => IZR i * L / 100) (range 101)).

(** [max(range(len(xs)), key=lambda i: abs(xs[i]))]; the lists it is
    applied to are never empty, [0] stands for the empty case. *)
Definition argmax_abs (xs : list R) : nat :=
  match max_key (fun i => Rabs (nth i xs 0)) (seq 0 (List.length xs)) with
  | Some i => i
  | None => O
  end.

(** [analyze_load(L, wheels)]; [None] is Python's [None]. *)
Definition analyze_load (L : R) (ws : list WheelPos) : option LoadCase :=
  match ws with
  | [] => None
  | _ :: _ =>
      let sum_P := sum (map Pv ws) in
      let sum_M := sum (map (fun w => Pv w * pos w) ws) in
      let R_r := sum_M / max2 L 0.1 in
      let R_l := sum_P - R_r in
      let pts := eval_points L ws in
      let M_list := map (moment_at R_l ws) pts in
      let V_list := map (shear_at R_l ws) pts in
      let m_idx := argmax_abs M_list in
      let v_idx := argmax_abs V_list in
      Some (mkLoadCase DescNone ws
              (nth m_idx M_list 0) (nth m_idx pts 0)
              (Rabs (nth v_idx V_list 0)) (nth v_idx pts 0)
              R_l R_r pts M_list V_list)
  end.

(** The wheels of one crane, labelled [cid], with the first wheel at [p]:
    [[WheelPos(cid, w+1, p + w*wb, Pv, Ph) for w in range(n)]]. *)
Definition place_wheels (cid n : Z) (wb p Pv_ Ph_ : R) : list WheelPos :=
  map (fun w => mkWheelPos cid (w + 1) (p + IZR w * wb) Pv_ Ph_) (range n).

(** One iteration of a maximum-moment search: the pair
    [(best_M, best_case)] after the wheels [ws] have been tried. *)
Definition keep_max_M (L : R) (st : R * option LoadCase) (ws : list WheelPos)
  : R * option LoadCase :=
  match analyze_load L ws with
  | Some case =>
      if Rlt_dec (fst st) (Rabs (M_max case))
      then (Rabs (M_max case), Some case)
      else st
  | None => st
  end.

Definition search_max_M (L : R) (place : R -> list WheelPos) (ps : list R)
  : option LoadCase :=
  snd (fold_left (fun st p => keep_max_M L st (place p)) ps (0, None)).

(** One iteration of the maximum-reaction search. *)
Definition keep_max_R (L : R) (st : R * option LoadCase) (ws : list WheelPos)
  : R * option LoadCase :=
  match analyze_load L ws with
  | Some case =>
      let max_R := max2 (R_left case) (R_right case) in
      if Rlt_dec (fst st) max_R then (max_R, Some case) else st
  | None => st
  end.

(** [results.append(case)] after [case.desc = dsc], skipped when the case
    is [None]. *)
Definition append_case (results : list LoadCase) (dsc : Desc)
  (case : option LoadCase) : list LoadCase :=
  match case with
  | Some lc => results ++ [set_desc dsc lc]
  | None => results
  end.

(** The body of the single-crane loop of [find_critical]. *)
Definition single_crane_cases (L : R) (c0 : CraneData)
  (results : list LoadCase) : res (list LoadCase) :=
  '(c, Pv_) <- wheel_load_with_impact c0 ;;
  Ph_ <- lateral_per_wheel c ;;
  let crane_length := wheel_base c * IZR (num_wheels c - 1) in
  if Rlt_dec L crane_length then Ok results
  else
    let place p :=
      place_wheels (crane_id c) (num_wheels c) (wheel_base c) p Pv_ Ph_ in
    let best_case :=
      search_max_M L place (linspace 0 (L - crane_length) 60) in
    let results :=
      append_case results (CraneMaxM (crane_id c) (capacity_tonnes c))
        best_case in
    let results :=
      append_case results (CraneMaxVLeft (crane_id c) (capacity_tonnes c))
        (analyze_load L (place 0.0)) in
    let pos_right := L - crane_length in
    let results :=
      append_case results (CraneMaxVRight (crane_id c) (capacity_tonnes c))
        (analyze_load L (place pos_right)) in
    Ok results.

(** The two-crane block of [find_critical]. *)
Definition two_crane_cases (L : R) (cranes : list CraneData)
  (results : list LoadCase) : res (list LoadCase) :=
  match cranes with
  | c1 :: c2 :: _ =>
      let gap := buffer_right c1 + buffer_left c2 in
      '(c1, Pv1) <- wheel_load_with_impact c1 ;;
      Ph1 <- lateral_per_wheel c1 ;;
      '(c2, Pv2) <- wheel_load_with_impact c2 ;;
      Ph2 <- lateral_per_wheel c2 ;;
      let c1_length := wheel_base c1 * IZR (num_wheels c1 - 1) in
      let c2_length := wheel_base c2 * IZR (num_wheels c2 - 1) in
      let total_needed := c1_length + gap + c2_length in
      if Rle_dec total_needed L then
        let w1 p := place_wheels 1 (num_wheels c1) (wheel_base c1) p Pv1 Ph1 in
        let w2 p := place_wheels 2 (num_wheels c2) (wheel_base c2) p Pv2 Ph2 in
        (* 2 Cranes: Max Moment *)
        let best_case :=
          search_max_M L (fun p1 => w1 p1 ++ w2 (p1 + c1_length + gap))
            (linspace 0 (L - total_needed) 30) in
        let results :=
          append_case results
            (TwoMaxM (capacity_tonnes c1) (capacity_tonnes c2)) best_case in
        (* 2 Cranes: Max Shear - Crane 1 at left support *)
        let p1 := 0.0 in
        let p2 := p1 + c1_length + gap in
        let ws := w1 p1 ++ (if Rle_dec (p2 + c2_length) L then w2 p2 else []) in
        let results := append_case results TwoMaxVC1 (analyze_load L ws) in
        (* 2 Cranes: Max Shear - Crane 2 at left support *)
        let p2 := 0.0 in
        let p1 := p2 + c2_length + gap in
        let ws := w2 p2 ++ (if Rle_dec (p1 + c1_length) L then w1 p1 else []) in
        let results := append_case results TwoMaxVC2 (analyze_load L ws) in
        (* 2 Cranes: Max Reaction *)
        let best_case :=
          snd (fold_left
                 (fun st p1 =>
                    let p2 := p1 + c1_length + gap in
                    if Rlt_dec L (p2 + c2_length) then st
                    else keep_max_R L st (w1 p1 ++ w2 p2))
                 (linspace 0 (max2 0 (L - total_needed)) 40)
                 (0, None)) in
        let results := append_case results TwoMaxReaction best_case in
        (* 2 Cranes: Max Shear - Heaviest crane at support *)
        let '(heavy, light) :=
          if Rlt_dec Pv1 Pv2
          then ((c2, Pv2, Ph2, c2_length), (c1, Pv1, Ph1, c1_length))
          else ((c1, Pv1, Ph1, c1_length), (c2, Pv2, Ph2, c2_length)) in
        let '(hc, hPv, hPh, hlen) := heavy in
        let '(lc, lPv, lPh, llen) := light in
        let p_heavy := 0.0 in
        let p_light := p_heavy + hlen + gap in
        let ws :=
          place_wheels (crane_id hc) (num_wheels hc) (wheel_base hc)
            p_heavy hPv hPh
          ++ (if Rle_dec (p_light + llen) L
              then place_wheels (crane_id lc) (num_wheels lc) (wheel_base lc)
                     p_light lPv lPh
              else []) in
        let results := append_case results TwoMaxVHeavy (analyze_load L ws) in
        Ok results
      else Ok results
  | _ => Ok results
  end.

(** An entry of [crane_loads]: [(crane, Pv, Ph, clen)]. *)
Record CraneLoad : Type := mkCraneLoad {
  cl_crane : CraneData;
  cl_Pv : R;
  cl_Ph : R;
  cl_len : R
}.

(** The placement loop of the three-crane shear case: the cranes of
    [crane_loads] one after the other from [p], wheels beyond the span
    dropped. *)
Fixpoint heavy_first_wheels (L : R) (crane_loads : list CraneLoad) (p : R)
  : list WheelPos :=
  match crane_loads with
  | [] => []
  | cl :: rest =>
      let crane := cl_crane cl in
      let ws :=
        filter (fun w => if Rle_dec (pos w) L then true else false)
          (place_wheels (crane_id crane) (num_wheels crane)
             (wheel_base crane) p (cl_Pv cl) (cl_Ph cl)) in
      ws ++ match rest with
            | [] => []
            | next :: _ =>
                heavy_first_wheels L rest
                  (p + cl_len cl + buffer_right crane
                   + buffer_left (cl_crane next))
            end
  end.

(** The three-crane block of [find_critical]. *)
Definition three_crane_cases (L : R) (cranes : list CraneData)
  (results : list LoadCase) : res (list LoadCase) :=
  match cranes with
  | c1 :: c2 :: c3 :: _ =>
      let gap12 := buffer_right c1 + buffer_left c2 in
      let gap23 := buffer_right c2 + buffer_left c3 in
      '(c1, Pv1) <- wheel_load_with_impact c1 ;;
      Ph1 <- lateral_per_wheel c1 ;;
      '(c2, Pv2) <- wheel_load_with_impact c2 ;;
      Ph2 <- lateral_per_wheel c2 ;;
      '(c3, Pv3) <- wheel_load_with_impact c3 ;;
      Ph3 <- lateral_per_wheel c3 ;;
      let c1_len := wheel_base c1 * IZR (num_wheels c1 - 1) in
      let c2_len := wheel_base c2 * IZR (num_wheels c2 - 1) in
      let c3_len := wheel_base c3 * IZR (num_wheels c3 - 1) in
      let total_min := c1_len + gap12 + c2_len + gap23 + c3_len in
      if Rle_dec total_min L then
        let w1 p := place_wheels 1 (num_wheels c1) (wheel_base c1) p Pv1 Ph1 in
        let w2 p := place_wheels 2 (num_wheels c2) (wheel_base c2) p Pv2 Ph2 in
        let w3 p := place_wheels 3 (num_wheels c3) (wheel_base c3) p Pv3 Ph3 in
        (* 3 Cranes: Max Moment *)
        let best_case :=
          search_max_M L
            (fun p1 =>
               let p2 := p1 + c1_len + gap12 in
               let p3 := p2 + c2_len + gap23 in
               w1 p1 ++ w2 p2 ++ w3 p3)
            (linspace 0 (L - total_min) 20) in
        let results := append_case results ThreeMaxM best_case in
        (* 3 Cranes: Max Shear (heaviest at support) *)
        let crane_loads :=
          sorted_desc cl_Pv
            [ mkCraneLoad c1 Pv1 Ph1 c1_len;
              mkCraneLoad c2 Pv2 Ph2 c2_len;
              mkCraneLoad c3 Pv3 Ph3 c3_len ] in
        let ws := heavy_first_wheels L crane_loads 0.0 in
        let results := append_case results ThreeMaxVHeavy (analyze_load L ws) in
        Ok results
      else Ok results
  | _ => Ok results
  end.

(** [find_critical(L, cranes)].  The initial [sorted] call evaluates
    [wheel_load_with_impact] on every crane, which assigns the calculated
    attributes of each; its result [cranes_by_load] is not used again. *)
Definition find_critical (L : R) (cranes0 : list CraneData)
  : res (list LoadCase) :=
  keyed <- mapM wheel_load_with_impact cranes0 ;;
  let cranes_by_load := map fst (sorted_desc snd keyed) in
  let cranes := map fst keyed in
  results <- fold_left
               (fun acc c => results <- acc ;; single_crane_cases L c results)
               cranes (Ok []) ;;
  results <- two_crane_cases L cranes results ;;
  three_crane_cases L cranes results.

(* ================================================================== *)
(** ** Governing-case selection *)
(* ================================================================== *)

(** [get_governing(results)]: the returned mapping, keys in insertion
    order. *)
Definition get_governing (results : list LoadCase)
  : list (string * LoadCase) :=
  match results with
  | [] => []
  | r0 :: rest =>
      [ ("moment"%string, max_key_from (fun r => Rabs (M_max r)) r0 rest);
        ("shear"%string, max_key_from (fun r => V_max r) r0 rest);
        ("reaction"%string,
          max_key_from (fun r => max2 (R_left r) (R_right r)) r0 rest) ]
  end.

(* ================================================================== *)
(** ** Section classification *)
(* ================================================================== *)

Record CompactResult : Type := mkCompactResult {
  flg : string;
  web : string;
  lf : R;
  lpf : R;
  lrf : R;
  lw : R;
  lpw : R;
  lrw : R
}.

(** ['Compact' if l <= lp else ('Noncompact' if l <= lr else 'Slender')]. *)
Definition classify (l lp lr : R) : string :=
  if Rle_dec l lp then "Compact"%string
  else if Rle_dec l lr then "Noncompact"%string
  else "Slender"%string.

(** [math.sqrt(E_STEEL / Fy)]. *)
Definition sqrt_E_over (Fy : R) : res R :=
  q <- truediv E_STEEL Fy ;; math_sqrt q.

(** [check_compact(sec, Fy)]. *)
Definition check_compact (sec : Section) (Fy : R) : res CompactResult :=
  let lf_ := bf_top sec / max2 (2 * tf_top sec) 1 in
  s1 <- sqrt_E_over Fy ;;
  let lpf_ := 0.38 * s1 in
  s2 <- sqrt_E_over Fy ;;
  let lrf_ := 1.0 * s2 in
  let flg_ := classify lf_ lpf_ lrf_ in
  let lw_ := hw sec / max2 (tw sec) 1 in
  s3 <- sqrt_E_over Fy ;;
  let lpw_ := 3.76 * s3 in
  s4 <- sqrt_E_over Fy ;;
  let lrw_ := 5.70 * s4 in
  let web_ := classify lw_ lpw_ lrw_ in
  Ok (mkCompactResult flg_ web_ lf_ lpf_ lrf_ lw_ lpw_ lrw_).

(* ================================================================== *)
(** ** Shear strength *)
(* ================================================================== *)

(** A float that may be [float('inf')]. *)
Inductive ExtR : Type :=
| Finite (r : R)
| Infinity.

(** [x <= bound] for a possibly infinite [x] and a finite [bound]. *)
Definition ext_le (x : ExtR) (bound : R) : bool :=
  match x with
  | Finite r => if Rle_dec r bound then true else false
  | Infinity => false
  end.

(** The three texts of [cv_case]. *)
Inductive CvCase : Type :=
| CvUnity
| CvInelastic
| CvElastic.

Record KvEntry : Type := mkKvEntry {
  kv_value : R;
  kv_a_h : ExtR;
  kv_has_stiffeners : bool
}.

Record Cv1Entry : Type := mkCv1Entry {
  cv1_value : R;
  cv1_h_tw : R;
  cv1_limit1 : R;
  cv1_limit2 : R;
  cv1_case : CvCase
}.

Record NoTfaEntry : Type := mkNoTfaEntry {
  no_tfa_Vn : R;
  no_tfa_Aw : R;
  no_tfa_Cv1 : R
}.

(** [results['shear_tfa']]: either the applicable entry with [Vn] and
    [Cv2], or one of the three reasons for which it is not applicable
    (the values interpolated into the reason text are kept). *)
Inductive TfaEntry : Type :=
| TfaApplicable (Vn Cv2 : R)
| TfaEndPanel
| TfaAspectLimit (a_h limit_ah : R)
| TfaNoStiffeners.

(** [results['shear_tfa']['applicable']]. *)
Definition tfa_applicable (t : TfaEntry) : bool :=
  match t with
  | TfaApplicable _ _ => true
  | _ => false
  end.

(** The two texts of [results['governing']['method']]. *)
Inductive ShearMethod : Type :=
| WithTFA
| WithoutTFA.

Record GoverningEntry : Type := mkGoverningEntry {
  gov_Vn : R;
  gov_method : ShearMethod;
  gov_Omega_v : R;
  gov_Va : R
}.

(** The mapping returned by [calc_plate_girder_shear_detailed]; the
    constant ['ref'] and ['formula'] texts are left out. *)
Record ShearResults : Type := mkShearResults {
  res_kv : KvEntry;
  res_Cv1 : Cv1Entry;
  res_shear_no_tfa : NoTfaEntry;
  res_shear_tfa : TfaEntry;
  res_governing : GoverningEntry
}.

(** [calc_plate_girder_shear_detailed(sec, Fy, stiff_spacing, end_panel)];
    [stiff_spacing = None] is Python's [None]. *)
Definition calc_plate_girder_shear_detailed (sec : Section) (Fy : R)
  (stiff_spacing : option R) (end_panel : bool) : res ShearResults :=
  let Aw := hw sec * tw sec in
  h_tw <- truediv (hw sec) (tw sec) ;;
  (* shear buckling coefficient kv *)
  '(kv, has_stiffeners, a_h) <-
    match stiff_spacing with
    | None => Ok (5.34, false, Infinity)
    | Some spacing =>
        if Rle_dec spacing 0 then Ok (5.34, false, Infinity)
        else
          a <- truediv spacing (hw sec) ;;
          if Rle_dec a 3.0
          then q <- truediv 5 (a ^ 2) ;; Ok (5 + q, true, Finite a)
          else Ok (5.34, true, Finite a)
    end ;;
  let kv_entry := mkKvEntry kv a_h has_stiffeners in
  (* web shear coefficient Cv *)
  q1 <- truediv (kv * E_STEEL) Fy ;;
  s1 <- math_sqrt q1 ;;
  let limit1 := 1.10 * s1 in
  q2 <- truediv (kv * E_STEEL) Fy ;;
  s2 <- math_sqrt q2 ;;
  let limit2 := 1.37 * s2 in
  '(Cv1, cv_case) <-
    (if Rle_dec h_tw limit1 then Ok (1.0, CvUnity)
     else if Rle_dec h_tw limit2
     then c <- truediv limit1 h_tw ;; Ok (c, CvInelastic)
     else c <- truediv (1.51 * kv * E_STEEL) (h_tw ^ 2 * Fy) ;;
          Ok (c, CvElastic)) ;;
  let cv1_entry := mkCv1Entry Cv1 h_tw limit1 limit2 cv_case in
  (* nominal shear strength without tension field action *)
  let Vn1 := 0.6 * Fy * Aw * Cv1 / 1000 in
  let no_tfa := mkNoTfaEntry Vn1 Aw Cv1 in
  (* tension field action *)
  '(tfa_applicable, Vn2, tfa_entry) <-
    (if has_stiffeners && ext_le a_h 3.0 then
       match a_h with
       | Finite a =>
           r <- truediv 260 h_tw ;;
           let limit_ah := r ^ 2 in
           if Rle_dec a limit_ah then
             if negb end_panel then
               Cv2 <- (if Rle_dec h_tw limit1 then Ok 1.0
                       else truediv limit1 h_tw) ;;
               s <- math_sqrt (1 + a ^ 2) ;;
               t <- truediv (1 - Cv2) (1.15 * s) ;;
               let Vn2 := 0.6 * Fy * Aw * (Cv2 + t) / 1000 in
               Ok (true, Vn2, TfaApplicable Vn2 Cv2)
             else Ok (false, Vn1, TfaEndPanel)
           else Ok (false, Vn1, TfaAspectLimit a limit_ah)
       | Infinity => Ok (false, Vn1, TfaNoStiffeners)
       end
     else Ok (false, Vn1, TfaNoStiffeners)) ;;
  (* governing shear *)
  let Vn := if tfa_applicable : bool then Vn2 else Vn1 in
  let governing := if tfa_applicable then WithTFA else WithoutTFA in
  let Omega := if tfa_applicable then 1.67 else 1.50 in
  Ok (mkShearResults kv_entry cv1_entry no_tfa tfa_entry
        (mkGoverningEntry Vn governing Omega (Vn / Omega))).

(** [calc_Vn_plate_girder(sec, Fy, has_stiff, stiff_spa, use_tfa)]: the
    returned pair [(Vn, Cv1)]. *)
Definition calc_Vn_plate_girder (sec : Section) (Fy : R) (has_stiff : bool)
  (stiff_spa : R) (use_tfa : bool) : res (R * R) :=
  let Aw := hw sec * tw sec in
  let h_tw := hw sec / max2 (tw sec) 1 in
  kv <- (if has_stiff && Rpos_b stiff_spa && Rpos_b (hw sec) then
           a_h <- truediv stiff_spa (hw sec) ;;
           if Rle_dec a_h 3
           then q <- truediv 5 (a_h ^ 2) ;; Ok (5 + q)
           else Ok 5.34
         else Ok 5.34) ;;
  q1 <- truediv (kv * E_STEEL) Fy ;;
  s1 <- math_sqrt q1 ;;
  let limit_1 := 1.10 * s1 in
  q2 <- truediv (kv * E_STEEL) Fy ;;
  s2 <- math_sqrt q2 ;;
  let limit_2 := 1.37 * s2 in
  Cv1 <- (if Rle_dec h_tw limit_1 then Ok 1.0
          else if Rle_dec h_tw limit_2 then truediv limit_1 h_tw
          else truediv (1.51 * kv * E_STEEL) (h_tw ^ 2 * Fy)) ;;
  let Vn1 := 0.6 * Fy * Aw * Cv1 / 1000 in
  if use_tfa && has_stiff && Rpos_b stiff_spa
     && (if Rlt_dec Cv1 1.0 then true else false)
  then
    a_h <- truediv stiff_spa (hw sec) ;;
    if (if Rle_dec a_h 3 then true else false)
       && (if Rle_dec 0.5 a_h then true else false)
    then
      Cv2 <- (if Rle_dec h_tw limit_1 then Ok 1.0
              else truediv limit_1 h_tw) ;;
      s <- math_sqrt (1 + a_h ^ 2) ;;
      t <- truediv (1 - Cv2) (1.15 * s) ;;
      let Vn_tfa := 0.6 * Fy * Aw * (Cv2 + t) / 1000 in
      Ok (max2 Vn1 Vn_tfa, Cv1)
    else Ok (Vn1, Cv1)
  else Ok (Vn1, Cv1).

(** [calc_Vn(sec, Fy, has_stiff, stiff_spa)]. *)
Definition calc_Vn (sec : Section) (Fy : R) (has_stiff : bool)
  (stiff_spa : R) : res (R * R) :=
  calc_Vn_plate_girder sec Fy has_stiff stiff_spa false.

(* ================================================================== *)
(** ** Deflection *)
(* ================================================================== *)

(** The local function [deflection_at_point(x_load, x_point, P_load)] of
    [calc_actual_deflection], closed over [L_mm], [E] and [I]. *)
Definition deflection_at_point (L_mm E I : R) (x_load x_point P_load : R)
  : res R :=
  let a := x_load in
  let b := L_mm - x_load in
  let x := x_point in
  delta <- (if Rle_dec x a
            then truediv (P_load * b * x * (L_mm ^ 2 - b ^ 2 - x ^ 2))
                   (6 * E * I * L_mm)
            else truediv (P_load * a * (L_mm - x)
                          * (L_mm ^ 2 - a ^ 2 - (L_mm - x) ^ 2))
                   (6 * E * I * L_mm)) ;;
  Ok (delta * 1000).

(** [calc_actual_deflection(sec, wheel_loads, L, wheel_base)]. *)
Definition calc_actual_deflection (sec : Section) (wheel_loads : list R)
  (L wheel_base_ : R) : res R :=
  let E := E_STEEL in
  let I := Ix sec in
  let L_mm := L * 1000 in
  let wb_mm := wheel_base_ * 1000 in
  let P := sum wheel_loads in
  delta_max <-
    match wheel_loads with
    | [P1; P2] =>
        x_resultant <- (if Rlt_dec 0 P then truediv (P2 * wb_mm) P
                        else Ok (wb_mm / 2)) ;;
        let x1_opt := L_mm / 2 - x_resultant in
        let x1_opt := max2 0 (min2 x1_opt (L_mm - wb_mm)) in
        let x2_opt := x1_opt + wb_mm in
        let P1_N := P1 * 1000 in
        let P2_N := P2 * 1000 in
        delta1 <- deflection_at_point L_mm E I x1_opt (L_mm / 2) P1_N ;;
        delta2 <- deflection_at_point L_mm E I x2_opt (L_mm / 2) P2_N ;;
        Ok (delta1 + delta2)
    | _ =>
        let P_N := P * 1000 in
        q <- truediv (P_N * L_mm ^ 3) (48 * E * I) ;;
        Ok (q * 1000)
    end ;;
  Ok (Rabs delta_max).

(** [calc_defl(sec, P, L, a)], the deflection estimate used by the design
    run. *)
Definition calc_defl (sec : Section) (P L a : R) : res R :=
  let L_mm := L * 1000 in
  let a_mm := a * 1000 in
  let P_N := P * 1000 in
  if Rle_dec (Ix sec) 0 then Ok 9999
  else if Rlt_dec a_mm L_mm
  then q <- truediv a_mm (2 * L_mm) ;;
       Ok (P_N * L_mm ^ 3 / (48 * E_STEEL * Ix sec) * (3 - 4 * q ^ 2))
  else Ok (P_N * L_mm ^ 3 / (48 * E_STEEL * Ix sec)).

(* ================================================================== *)
(** ** Fatigue *)
(* ================================================================== *)

Record FatigueResult : Type := mkFatigueResult {
  sr : R;
  Fsr : R;
  ratio : R
}.

(** [check_fatigue(sec, M, N, cat)].  The base of the power is a positive
    table entry divided by [max(N, 1)], so the power is the real power
    function. *)
Definition check_fatigue (sec : Section) (M N : R) (cat : string)
  : FatigueResult :=
  if Rle_dec (Sx sec) 0 then mkFatigueResult 0 999 0
  else
    let sr_ := M * 1e6 / Sx sec in
    let cf := dict_get cat FATIGUE_CATS FATIGUE_CAT_E in
    let Fsr_ := max2 (thresh cf) (Rpower (Cf cf / max2 N 1) (1 / 3)) in
    mkFatigueResult sr_ Fsr_ (sr_ / max2 Fsr_ 1).

(* ================================================================== *)
(** ** Notions used in the statements *)
(* ================================================================== *)

(** Sum of the applied vertical wheel loads. *)
Definition total_vertical_load (ws : list WheelPos) : R :=
  sum (map Pv ws).

(** Sum of the moments of the wheel loads about the left support. *)
Definition total_load_moment (ws : list WheelPos) : R :=
  sum (map (fun w => Pv w * pos w) ws).

(** [m] is the first element of [l] that maximises [key]: everything
    before it has a strictly smaller key, nothing after it a larger one. *)
Definition first_max {A : Type} (key : A -> R) (l : list A) (m : A) : Prop :=
  exists l1 l2 : list A,
    l = l1 ++ m :: l2
    /\ (forall x, In x l1 -> key x < key m)
    /\ (forall x, In x l2 -> key x <= key m).

(** A case built from one crane only, as its description tells. *)
Definition is_single_crane_desc (dsc : Desc) : bool :=
  match dsc with
  | CraneMaxM _ _ | CraneMaxVLeft _ _ | CraneMaxVRight _ _ => true
  | _ => false
  end.

(** A case of the two-crane block, as its description tells. *)
Definition is_two_crane_desc (dsc : Desc) : bool :=
  match dsc with
  | TwoMaxM _ _ | TwoMaxVC1 | TwoMaxVC2 | TwoMaxReaction | TwoMaxVHeavy => true
  | _ => false
  end.

(** Midspan deflection, in millimetres, of a simply supported beam of span
    [L_mm] (mm) under one point load [P_N] (N) at distance [a_mm] (mm) from
    the left support, with [E] in MPa and [I] in mm^4:
    [P*b*x*(L^2 - b^2 - x^2) / (6*E*I*L)] where [x] is the distance from
    the midspan to the support on its side away from the load and [b] the
    distance from the load to the other support. *)
Definition point_load_midspan_deflection (L_mm E I a_mm P_N : R) : R :=
  let x := L_mm / 2 in
  if Rle_dec x a_mm
  then P_N * (L_mm - a_mm) * x * (L_mm ^ 2 - (L_mm - a_mm) ^ 2 - x ^ 2)
       / (6 * E * I * L_mm)
  else P_N * a_mm * x * (L_mm ^ 2 - a_mm ^ 2 - x ^ 2) / (6 * E * I * L_mm).

(* ================================================================== *)
(** ** Inputs used in examples *)
(* ================================================================== *)

(** The crane of scenario 1, the remaining attributes at their default
    values. *)
Definition scenario1_crane : CraneData :=
  mkCraneData 1 10.0 5.0 0.72 20.0 1.0 2.2 0.29 0.29 2 0.25 0.20 0.10
    false 0.0 0.0 0.0 0.0 0.0 0.0 0.0.

(** One wheel of 10 kN at 0.02 m on a span of 0.05 m. *)
Definition short_span : R := 0.05.
Definition short_span_wheels : list WheelPos := [ mkWheelPos 1 1 0.02 10 0 ].

(** Two wheels of 50 kN, 2 m apart, on a span of 10 m. *)
Definition two_wheels_10m : list WheelPos :=
  [ mkWheelPos 1 1 4 50 2; mkWheelPos 1 2 6 50 2 ].

(** A built-up section: the default plate sizes of the design form
    (500 deep, flanges 200x16 and 150x12, web 472x10), derived attributes
    not yet calculated. *)
Definition default_built_up : Section :=
  mkSection "Built-up" "built_up" 500 200 16 150 12 10 472
    false EmptyString 0 0 0 0
    0 0 0 0 0 0 0 0 0 0 0 0 0 0.


(** A plate girder with a 940 x 10 web and 300 x 20 flanges; with
    [Fy = 320] its web ratio 94 is exactly [3.76 * sqrt(E/Fy)]. *)
Definition boundary_web_section : Section :=
  mkSection "Built-up" "built_up" 980 300 20 300 20 10 940
    false EmptyString 0 0 0 0
    0 0 0 0 0 0 0 0 0 0 0 0 0 0.

(** IPE 300 with the attributes of the section table ([d], [bf], [tf],
    [tw], [A], [Ix], [Iy], [Sx], [mass]) and [hw = d - 2*tf]; the other
    attributes at their dataclass defaults. *)
Definition ipe300 : Section :=
  mkSection "IPE 300" "hot_rolled" 300 150 10.7 150 10.7 7.1 278.6
    false EmptyString 0 0 0 0
    5381 83.6e6 6.04e6 557e3 0 0 0 0 0 0 0 0 0 42.2.

(** The wheel loads of a crane can be computed: it has at least one wheel
    per rail, and its loads are either supplied directly or derived from
    a bridge of non-zero span. *)
Definition crane_loads_defined (c : CraneData) : Prop :=
  (1 <= num_wheels c)%Z
  /\ (use_direct_input c && Rpos_b (direct_max_wheel_load c) = true
      \/ bridge_span c <> 0).

(** The length a crane occupies on the beam: [wheel_base * (num_wheels - 1)]. *)
Definition crane_length (c : CraneData) : R :=
  wheel_base c * IZR (num_wheels c - 1).

(** A second crane like the one of scenario 1. *)
Definition scenario1_crane_2 : CraneData :=
  mkCraneData 2 10.0 5.0 0.72 20.0 1.0 2.2 0.29 0.29 2 0.25 0.20 0.10
    false 0.0 0.0 0.0 0.0 0.0 0.0 0.0.

(* ================================================================== *)
(** ** Flexural strength *)
(* ================================================================== *)

(** [min(a, b, c)]: the first of the smallest arguments. *)
Definition min3 (a b c : R) : R := min2 (min2 a b) c.

(** [calc_Lp_Lr(sec, Fy)]: the returned pair [(Lp, Lr)]. *)
Definition calc_Lp_Lr (sec : Section) (Fy : R) : res (R * R) :=
  s <- sqrt_E_over Fy ;;
  let Lp := 1.76 * ry sec * s in
  if Rpos_b (Sx sec) && Rpos_b (ho sec) && Rpos_b (rts sec) then
    t1 <- truediv (J sec) (Sx sec * ho sec) ;;
    t2 <- math_sqrt (t1 ^ 2 + 6.76 * (0.7 * Fy / E_STEEL) ^ 2) ;;
    q <- truediv E_STEEL (0.7 * Fy) ;;
    s2 <- math_sqrt (t1 + t2) ;;
    Ok (Lp, 1.95 * rts sec * q * s2)
  else Ok (Lp, Lp * 3).

(** The elastic buckling stress of [calc_Mn] and
    [calc_plate_girder_Mn]:
    [math.pi**2 * E_STEEL / (Lb/rts)**2
     * math.sqrt(1 + 0.078*J/(Sx*ho) * (Lb/rts)**2)]
    when [rts], [Sx] and [ho] are positive, [0.7 * Fy] otherwise. *)
Definition elastic_Fcr (sec : Section) (Fy Lb : R) : res R :=
  if Rpos_b (rts sec) && Rpos_b (Sx sec) && Rpos_b (ho sec) then
    r1 <- truediv Lb (rts sec) ;;
    q1 <- truediv (PI ^ 2 * E_STEEL) (r1 ^ 2) ;;
    q2 <- truediv (0.078 * J sec) (Sx sec * ho sec) ;;
    r2 <- truediv Lb (rts sec) ;;
    s <- math_sqrt (1 + q2 * r2 ^ 2) ;;
    Ok (q1 * s)
  else Ok (0.7 * Fy).

(** [calc_Mn(sec, Fy, Lb, cmp)]: the returned tuple
    [(Mn, Lp, Lr, ltb)]. *)
Definition calc_Mn (sec : Section) (Fy Lb : R) (cmp : CompactResult)
  : res (R * R * R * string) :=
  let Mp := Fy * Zx sec / 1e6 in
  '(Lp, Lr) <- calc_Lp_Lr sec Fy ;;
  if Rle_dec Lb Lp then Ok (Mp, Lp, Lr, "No LTB"%string)
  else if Rle_dec Lb Lr then
    let Mn := min2 (Mp - (Mp - 0.7 * Fy * Sx sec / 1e6) * (Lb - Lp)
                         / max2 (Lr - Lp) 1) Mp in
    Ok (Mn, Lp, Lr, "Inelastic LTB"%string)
  else
    Fcr <- elastic_Fcr sec Fy Lb ;;
    Ok (min2 (Fcr * Sx sec / 1e6) Mp, Lp, Lr, "Elastic LTB"%string).

(** [calc_plate_girder_Mn(sec, Fy, Lb, cmp)]: the returned tuple
    [(Mn, Lp, Lr, ltb, Rpg, aw)]. *)
Definition calc_plate_girder_Mn (sec : Section) (Fy Lb : R)
  (cmp : CompactResult) : res (R * R * R * string * R * R) :=
  let Mp := Fy * Zx sec / 1e6 in
  let My := Fy * Sx sec / 1e6 in
  let h_tw := hw sec / max2 (tw sec) 1 in
  let bf := bf_top sec in
  let tf := tf_top sec in
  s1 <- sqrt_E_over Fy ;;
  let lambda_pw := 3.76 * s1 in
  s2 <- sqrt_E_over Fy ;;
  let lambda_rw := 5.70 * s2 in
  let web_is_slender := if Rlt_dec lambda_rw h_tw then true else false in
  if negb web_is_slender then
    '(Mn, Lp, Lr, ltb) <- calc_Mn sec Fy Lb cmp ;;
    let Rpg := 1.0 in
    let Aw := hw sec * tw sec in
    let Afc := bf * tf in
    let aw := Aw / max2 Afc 1 in
    Ok (Mn, Lp, Lr, ltb, Rpg, aw)
  else
    let Aw := hw sec * tw sec in
    let Afc := bf * tf in
    let aw := Aw / max2 Afc 1 in
    let hc := hw sec in
    q1 <- truediv aw (1200 + 300 * aw) ;;
    q2 <- truediv hc (tw sec) ;;
    s3 <- sqrt_E_over Fy ;;
    let Rpg := 1 - q1 * (q2 - 5.7 * s3) in
    let Rpg := min2 Rpg 1.0 in
    let Rpg := max2 Rpg 0.5 in
    lambda_f <- truediv bf (2 * tf) ;;
    s4 <- sqrt_E_over Fy ;;
    let lambda_pf := 0.38 * s4 in
    q3 <- truediv E_STEEL (0.7 * Fy) ;;
    s5 <- math_sqrt q3 ;;
    let lambda_rf := 0.95 * s5 in
    '(Lp, Lr) <- calc_Lp_Lr sec Fy ;;
    (* 1. compression flange yielding *)
    let Mn_cfy := Rpg * Fy * Sx sec / 1e6 in
    (* 2. lateral-torsional buckling *)
    '(Mn_ltb, ltb) <-
      (if Rle_dec Lb Lp then Ok (Rpg * Fy * Sx sec / 1e6, "No LTB"%string)
       else if Rle_dec Lb Lr then
         let Cb := 1.0 in
         q <- truediv ((Rpg * Fy * Sx sec / 1e6
                        - 0.7 * Rpg * Fy * Sx sec / 1e6) * (Lb - Lp))
                (Lr - Lp) ;;
         let Mn_ltb := Cb * (Rpg * Fy * Sx sec / 1e6 - q) in
         Ok (min2 Mn_ltb (Rpg * Fy * Sx sec / 1e6), "Inelastic LTB"%string)
       else
         Fcr <- elastic_Fcr sec Fy Lb ;;
         Ok (Rpg * Fcr * Sx sec / 1e6, "Elastic LTB"%string)) ;;
    (* 3. compression flange local buckling *)
    Mn_flb <-
      (if Rle_dec lambda_f lambda_pf then Ok (Rpg * Fy * Sx sec / 1e6)
       else if Rle_dec lambda_f lambda_rf then
         q <- truediv (0.3 * Fy * (lambda_f - lambda_pf))
                (lambda_rf - lambda_pf) ;;
         Ok (Rpg * (Fy - q) * Sx sec / 1e6)
       else
         Fcr_flb <- truediv (0.9 * E_STEEL) (lambda_f ^ 2) ;;
         Ok (Rpg * Fcr_flb * Sx sec / 1e6)) ;;
    let Mn := min3 Mn_cfy Mn_ltb Mn_flb in
    Ok (Mn, Lp, Lr, ltb, Rpg, aw).

(** One entry of the mapping returned by
    [check_plate_girder_proportions]; the constant texts are left out. *)
Record ProportionCheck : Type := mkProportionCheck {
  pc_actual : R;
  pc_limit : R;
  pc_status : string
}.

Record Proportions : Type := mkProportions {
  web_slenderness_unstiff : ProportionCheck;
  web_slenderness_stiff : ProportionCheck;
  flange_slenderness : ProportionCheck
}.

(** ['OK' if actual <= limit else 'NG']. *)
Definition status_le (actual limit : R) : string :=
  if Rle_dec actual limit then "OK"%string else "NG"%string.

(** [check_plate_girder_proportions(sec, Fy)]. *)
Definition check_plate_girder_proportions (sec : Section) (Fy : R)
  : res Proportions :=
  h_tw <- truediv (hw sec) (tw sec) ;;
  let limit_unstiff := 260 in
  let c1 := mkProportionCheck h_tw limit_unstiff
              (status_le h_tw limit_unstiff) in
  s1 <- sqrt_E_over Fy ;;
  let limit_stiff := min2 (11.7 * s1) 270 in
  let c2 := mkProportionCheck h_tw limit_stiff (status_le h_tw limit_stiff) in
  bf_tf <- truediv (bf_top sec) (2 * tf_top sec) ;;
  s2 <- sqrt_E_over Fy ;;
  let flange_limit := 1.0 * s2 in
  let c3 := mkProportionCheck bf_tf flange_limit
              (status_le bf_tf flange_limit) in
  Ok (mkProportions c1 c2 c3).

(* ================================================================== *)
(** ** Welds *)
(* ================================================================== *)

(** [check_minimum_weld_size(t_thin, t_thick)]: the size in mm, an
    integer. *)
Definition check_minimum_weld_size (t_thin t_thick : R) : Z :=
  let t_base := max2 t_thin t_thick in
  if Rle_dec t_base 6.35 then 3%Z
  else if Rle_dec t_base 12.7 then 5%Z
  else if Rle_dec t_base 19.05 then 6%Z
  else 8%Z.

Record WeldSizeCheck : Type := mkWeldSizeCheck {
  ws_bound : R;
  ws_provided : R;
  ws_status : string
}.

Record WeldShearFlow : Type := mkWeldShearFlow {
  sf_Q : R;
  sf_I : R;
  sf_V : R;
  sf_q_total : R;
  sf_q_per_weld : R
}.

Record WeldCapacity : Type := mkWeldCapacity {
  wc_a : R;
  wc_Fnw : R;
  wc_Rn : R;
  wc_Omega : R;
  wc_Ra : R
}.

Record WeldCheck : Type := mkWeldCheck {
  wk_demand : R;
  wk_capacity : R;
  wk_ratio : R;
  wk_status : string
}.

(** The mapping returned by [calc_weld_design]; [ws_bound] is the
    ['required'] size of ['minimum_size'] and the ['limit'] of
    ['maximum_size']; the constant ['ref'] and ['unit'] texts are left
    out. *)
Record WeldResults : Type := mkWeldResults {
  weld_minimum_size : WeldSizeCheck;
  weld_maximum_size : WeldSizeCheck;
  weld_shear_flow : WeldShearFlow;
  weld_capacity : WeldCapacity;
  weld_check : WeldCheck
}.

(** The default electrode strength of [calc_weld_design]. *)
Definition FEXX_default : R := 482.

(** [calc_weld_design(sec, Fy, Fu, V, weld_size, FEXX)]. *)
Definition calc_weld_design (sec : Section) (Fy Fu V weld_size FEXX : R)
  : res WeldResults :=
  let t_flange := max2 (tf_top sec) (tf_bot sec) in
  let w_min := IZR (check_minimum_weld_size (tw sec) t_flange) in
  let minimum := mkWeldSizeCheck w_min weld_size (status_le w_min weld_size) in
  let w_max := tw sec - 1.6 in
  let maximum := mkWeldSizeCheck w_max weld_size (status_le weld_size w_max) in
  let a := 0.707 * weld_size in
  let Q := bf_top sec * tf_top sec * (d sec - y_bar sec - tf_top sec / 2) in
  q <- truediv (V * 1000 * Q) (Ix sec) ;;
  let q_per_weld := q / 2 in
  let flow := mkWeldShearFlow Q (Ix sec) V q q_per_weld in
  let Fnw := 0.6 * FEXX in
  let Rn := Fnw * a in
  let Ra := Rn / 2.0 in
  let capacity := mkWeldCapacity a Fnw Rn 2.0 Ra in
  let ratio_ := if Rlt_dec 0 Ra then q_per_weld / Ra else 999 in
  Ok (mkWeldResults minimum maximum flow capacity
        (mkWeldCheck q_per_weld Ra ratio_ (status_le ratio_ 1.0))).

(* ================================================================== *)
(** ** Web local yielding and crippling *)
(* ================================================================== *)

(** [check_wly(sec, Fy, lb, at_sup)]. *)
Definition check_wly (sec : Section) (Fy lb : R) (at_sup : bool) : R :=
  let k := tf_top sec + 5 in
  Fy * tw sec * ((if at_sup then 2.5 else 5) * k + lb) / 1000.

(** [check_wcr(sec, Fy, lb, at_sup)].  The power [(tw/tf)**1.5] is taken
    on a positive base, [tw] and [tf] having been tested positive. *)
Definition check_wcr (sec : Section) (Fy lb : R) (at_sup : bool) : res R :=
  let d_ := d sec in
  let tf := tf_top sec in
  let tw_ := tw sec in
  if (if Rle_dec d_ 0 then true else false)
     || (if Rle_dec tf 0 then true else false)
     || (if Rle_dec tw_ 0 then true else false)
  then Ok 999999
  else if at_sup && (if Rle_dec (lb / d_) 0.2 then true else false) then
    s <- math_sqrt (E_STEEL * Fy * tf / tw_) ;;
    Ok (0.4 * tw_ ^ 2 * (1 + 3 * (lb / d_) * Rpower (tw_ / tf) 1.5) * s / 1000)
  else if at_sup then
    s <- math_sqrt (E_STEEL * Fy * tf / tw_) ;;
    Ok (0.4 * tw_ ^ 2 * (1 + (4 * lb / d_ - 0.2) * Rpower (tw_ / tf) 1.5)
        * s / 1000)
  else
    s <- math_sqrt (E_STEEL * Fy * tf / tw_) ;;
    Ok (0.8 * tw_ ^ 2 * (1 + 3 * (lb / d_) * Rpower (tw_ / tf) 1.5) * s / 1000).

(* ================================================================== *)
(** ** Load summary of a crane *)
(* ================================================================== *)

(** The mapping returned by [get_load_summary], keys in insertion
    order. *)
Record LoadSummary : Type := mkLoadSummary {
  sum_R_max : R;
  sum_R_min : R;
  max_wheel_static : R;
  min_wheel_static : R;
  max_wheel_impact : R;
  min_wheel_impact : R;
  sum_lateral_per_wheel : R;
  longitudinal : R
}.

(** [CraneData.get_load_summary]. *)
Definition get_load_summary (self : CraneData)
  : res (CraneData * LoadSummary) :=
  '(self, _) <- calc_wheel_loads self ;;
  let v1 := R_max self in
  let v2 := R_min self in
  let v3 := max_wheel_load self in
  let v4 := min_wheel_load self in
  '(self, v5) <- wheel_load_with_impact self ;;
  '(self, v6) <- min_wheel_load_with_impact self ;;
  v7 <- lateral_per_wheel self ;;
  '(self, v8) <- longitudinal_force self ;;
  Ok (self, mkLoadSummary v1 v2 v3 v4 v5 v6 v7 v8).

(* ================================================================== *)
(** ** Further inputs used in examples *)
(* ================================================================== *)

(** The crane of scenario 1 with a bridge span of zero. *)
Definition zero_span_crane : CraneData :=
  mkCraneData 1 10.0 5.0 0.72 0 1.0 2.2 0.29 0.29 2 0.25 0.20 0.10
    false 0.0 0.0 0.0 0.0 0.0 0.0 0.0.

(** A list of floats in strictly ascending order. *)
Fixpoint strictly_increasing (l : list R) : Prop :=
  match l with
  | [] => True
  | x :: l' =>
      match l' with
      | [] => True
      | y :: _ => x < y
      end
      /\ strictly_increasing l'
  end.

(** A crane twice as long as a span of 2 m: wheel base 4.4 m. *)
Definition long_crane : CraneData :=
  mkCraneData 1 10.0 5.0 0.72 20.0 1.0 4.4 0.29 0.29 2 0.25 0.20 0.10
    false 0.0 0.0 0.0 0.0 0.0 0.0 0.0.

(** A crane as the loops of [find_critical] see it after the initial
    sort: its loads are assigned, computing them again changes nothing,
    and it is longer than the span. *)
Definition too_long_refreshed (L : R) (c : CraneData) : Prop :=
  (exists Pv_, wheel_load_with_impact c = Ok (c, Pv_))
  /\ (1 <= num_wheels c)%Z
  /\ L < crane_length c
  /\ 0 <= buffer_left c
  /\ 0 <= buffer_right c.

(** A case as [find_critical] appends it: the analysis of some wheels,
    labelled afterwards. *)
Definition analysed_case (L : R) (lc : LoadCase) : Prop :=
  exists (ws : list WheelPos) (lc0 : LoadCase) (dsc : Desc),
    analyze_load L ws = Some lc0
    /\ lc = set_desc dsc lc0
    /\ dsc <> DescNone.

(** What the single-crane loop of [find_critical] appends for a crane
    [c] that fits on the span, [Pv_] and [Ph_] being its wheel load with
    impact and its lateral load per wheel: at most one moment case, the
    analysis of the crane's wheels at one of the 60 trial positions, whose
    moment no trial position exceeds in magnitude (none only if every
    trial moment is zero); then the analysis with the first wheel at 0
    and the analysis with the first wheel at [L - crane_length], each
    under its description. *)
Definition single_crane_result (L : R) (c : CraneData) (Pv_ Ph_ : R)
  (m : list LoadCase) (l r : LoadCase) : Prop :=
  let place p :=
    place_wheels (crane_id c) (num_wheels c) (wheel_base c) p Pv_ Ph_ in
  (List.length m <= 1)%nat
  /\ (forall lc, In lc m ->
        exists p lc0,
          In p (linspace 0 (L - crane_length c) 60)
          /\ analyze_load L (place p) = Some lc0
          /\ lc = set_desc (CraneMaxM (crane_id c) (capacity_tonnes c)) lc0
          /\ wheels lc = place p
          /\ forall p' c',
               In p' (linspace 0 (L - crane_length c) 60) ->
               analyze_load L (place p') = Some c' ->
               Rabs (M_max c') <= Rabs (M_max lc))
  /\ (m = [] ->
      forall p' c',
        In p' (linspace 0 (L - crane_length c) 60) ->
        analyze_load L (place p') = Some c' -> M_max c' = 0)
  /\ (exists lc0,
        analyze_load L (place 0.0) = Some lc0
        /\ l = set_desc (CraneMaxVLeft (crane_id c) (capacity_tonnes c)) lc0
        /\ wheels l = place 0.0)
  /\ (exists lc0,
        analyze_load L (place (L - crane_length c)) = Some lc0
        /\ r = set_desc (CraneMaxVRight (crane_id c) (capacity_tonnes c)) lc0
        /\ wheels r = place (L - crane_length c)).

(** A deep plate girder: web 2000 x 10, flanges 300 x 20, with an
    elastic modulus and a radius of gyration given; with [Fy = 320] its
    web ratio 200 exceeds [5.70 * sqrt(E/Fy) = 142.5]. *)
Definition slender_girder : Section :=
  mkSection "Built-up" "built_up" 2040 300 20 300 20 10 2000
    false EmptyString 0 0 0 0
    32000 0 0 1.5e7 0 1.68e7 0 60 0 0 0 0 1020 0.

(** The classification of [slender_girder] for [Fy = 320]. *)
Definition slender_girder_cmp : CompactResult :=
  mkCompactResult "Compact" "Slender" 7.5 9.5 25 200 94 142.5.


(* ================================================================== *)
(** ** The same functions in binary64 *)
(* ================================================================== *)

(** Where a statement depends on rounding (an identity that is exact only
    without rounding, a value that sits on a limit) the functions
    concerned are embedded a second time on IEEE 754 binary64, the
    arithmetic of Python's [float]: every operation of the source is one
    rounded operation here, in the order in which Python evaluates it.
    - [x / y] raises [ZeroDivisionError] when [y == 0] (either zero) and
      is the rounded quotient otherwise; a divisor that is a [max(_, c)]
      with [c > 0] is written with [/] directly;
    - [math.sqrt(x)] raises [ValueError] when [x < 0];
    - [x ** 2] is taken as the rounded product [x * x];
    - [float('inf')] is the binary64 infinity;
    - [sum] adds from left to right starting from [0];
    - an [int] literal or loop index used with floats is converted
      exactly. *)
Module F64.

Import PrimFloat.
Local Open Scope float_scope.

(** [max(a, b)]: the first argument is kept unless the second is
    strictly larger. *)
Definition max2 (a b : float) : float := if a <? b then b else a.

Definition truediv (x y : float) : res float :=
  if y =? 0 then Raise ZeroDivisionError else Ok (x / y).

Definition math_sqrt (x : float) : res float :=
  if x <? 0 then Raise ValueError else Ok (PrimFloat.sqrt x).

Definition pow2 (x : float) : float := x * x.

Definition sum (xs : list float) : float := fold_left PrimFloat.add xs 0.

(** An [int] of the source as a float. *)
Definition of_int (z : Z) : float := PrimFloat.of_uint63 (Uint63.of_Z z).

Definition E_STEEL : float := 200000.

(** *** Moving-load analysis *)

Record WheelPos : Type := mkWheelPos {
  wp_crane_id : Z;
  wheel_id : Z;
  pos : float;
  Pv : float;
  Ph : float
}.

Record LoadCase : Type := mkLoadCase {
  desc : Desc;
  wheels : list WheelPos;
  M_max : float;
  M_pos : float;
  V_max : float;
  V_pos : float;
  R_left : float;
  R_right : float;
  positions : list float;
  moments : list float;
  shears : list float
}.

(** Bending moment at [x]: the inner loop of [analyze_load] on [M]. *)
Definition moment_at (R_l : float) (ws : list WheelPos) (x : float) : float :=
  fold_left
    (fun M w => if pos w <? x then M - Pv w * (x - pos w) else M)
    ws (R_l * x).

(** Shear at [x]: the inner loop of [analyze_load] on [V]. *)
Definition shear_at (R_l : float) (ws : list WheelPos) (x : float) : float :=
  fold_left (fun V w => if pos w <=? x then V - Pv w else V) ws R_l.

(** [sorted(set(xs))], ascending and without repetitions. *)
Fixpoint insert_uniq (x : float) (l : list float) : list float :=
  match l with
  | [] => [x]
  | y :: l' =>
      if x <? y then x :: y :: l'
      else if x =? y then y :: l'
      else y :: insert_uniq x l'
  end.

Definition sorted_set (l : list float) : list float :=
  fold_right insert_uniq [] l.

(** The evaluation points [pts] of [analyze_load]. *)
Definition eval_points (L : float) (ws : list WheelPos) : list float :=
  sorted_set ([0] ++ map pos ws ++ [L]
              ++ map (fun i => of_int i * L / 100) (range 101)).

(** [max(range(len(xs)), key=lambda i: abs(xs[i]))]: the first index
    whose key no later one exceeds. *)
Fixpoint argmax_from (xs : list float) (best : nat) (rest : list nat)
  : nat :=
  match rest with
  | [] => best
  | i :: rest' =>
      if PrimFloat.abs (nth best xs 0) <? PrimFloat.abs (nth i xs 0)
      then argmax_from xs i rest'
      else argmax_from xs best rest'
  end.

Definition argmax_abs (xs : list float) : nat :=
  argmax_from xs O (seq 1 (List.length xs - 1)).

(** [analyze_load(L, wheels)]; [None] is Python's [None]. *)
Definition analyze_load (L : float) (ws : list WheelPos) : option LoadCase :=
  match ws with
  | [] => None
  | _ :: _ =>
      let sum_P := sum (map Pv ws) in
      let sum_M := sum (map (fun w => Pv w * pos w) ws) in
      let R_r := sum_M / max2 L 0.1 in
      let R_l := sum_P - R_r in
      let pts := eval_points L ws in
      let M_list := map (moment_at R_l ws) pts in
      let V_list := map (shear_at R_l ws) pts in
      let m_idx := argmax_abs M_list in
      let v_idx := argmax_abs V_list in
      Some (mkLoadCase DescNone ws
              (nth m_idx M_list 0) (nth m_idx pts 0)
              (PrimFloat.abs (nth v_idx V_list 0)) (nth v_idx pts 0)
              R_l R_r pts M_list V_list)
  end.

(** *** Section classification *)

(** The dataclass [Section], its numeric attributes as binary64. *)
Record Section : Type := mkSection {
  name : string;
  sec_type : string;
  d : float;
  bf_top : float;
  tf_top : float;
  bf_bot : float;
  tf_bot : float;
  tw : float;
  hw : float;
  has_cap : bool;
  cap_name : string;
  cap_A : float;
  cap_Iy : float;
  cap_d : float;
  cap_cy : float;
  A : float;
  Ix : float;
  Iy : float;
  Sx : float;
  Sy : float;
  Zx : float;
  rx : float;
  ry : float;
  rts : float;
  J : float;
  Cw : float;
  ho : float;
  y_bar : float;
  mass : float
}.

Record CompactResult : Type := mkCompactResult {
  flg : string;
  web : string;
  lf : float;
  lpf : float;
  lrf : float;
  lw : float;
  lpw : float;
  lrw : float
}.

(** ['Compact' if l <= lp else ('Noncompact' if l <= lr else 'Slender')]. *)
Definition classify (l lp lr : float) : string :=
  if l <=? lp then "Compact"%string
  else if l <=? lr then "Noncompact"%string
  else "Slender"%string.

(** [math.sqrt(E_STEEL / Fy)]. *)
Definition sqrt_E_over (Fy : float) : res float :=
  q <- truediv E_STEEL Fy ;; math_sqrt q.

(** [check_compact(sec, Fy)]. *)
Definition check_compact (sec : Section) (Fy : float) : res CompactResult :=
  let lf_ := bf_top sec / max2 (2 * tf_top sec) 1 in
  s1 <- sqrt_E_over Fy ;;
  let lpf_ := 0.38 * s1 in
  s2 <- sqrt_E_over Fy ;;
  let lrf_ := 1.0 * s2 in
  let flg_ := classify lf_ lpf_ lrf_ in
  let lw_ := hw sec / max2 (tw sec) 1 in
  s3 <- sqrt_E_over Fy ;;
  let lpw_ := 3.76 * s3 in
  s4 <- sqrt_E_over Fy ;;
  let lrw_ := 5.70 * s4 in
  let web_ := classify lw_ lpw_ lrw_ in
  Ok (mkCompactResult flg_ web_ lf_ lpf_ lrf_ lw_ lpw_ lrw_).

(** *** Shear strength *)

Record KvEntry : Type := mkKvEntry {
  kv_value : float;
  kv_a_h : float;
  kv_has_stiffeners : bool
}.

Record Cv1Entry : Type := mkCv1Entry {
  cv1_value : float;
  cv1_h_tw : float;
  cv1_limit1 : float;
  cv1_limit2 : float;
  cv1_case : CvCase
}.

Record NoTfaEntry : Type := mkNoTfaEntry {
  no_tfa_Vn : float;
  no_tfa_Aw : float;
  no_tfa_Cv1 : float
}.

(** [results['shear_tfa']], as in the first embedding. *)
Inductive TfaEntry : Type :=
| TfaApplicable (Vn Cv2 : float)
| TfaEndPanel
| TfaAspectLimit (a_h limit_ah : float)
| TfaNoStiffeners.

Record GoverningEntry : Type := mkGoverningEntry {
  gov_Vn : float;
  gov_method : ShearMethod;
  gov_Omega_v : float;
  gov_Va : float
}.

Record ShearResults : Type := mkShearResults {
  res_kv : KvEntry;
  res_Cv1 : Cv1Entry;
  res_shear_no_tfa : NoTfaEntry;
  res_shear_tfa : TfaEntry;
  res_governing : GoverningEntry
}.

(** [calc_plate_girder_shear_detailed(sec, Fy, stiff_spacing, end_panel)];
    [stiff_spacing = None] is Python's [None]. *)
Definition calc_plate_girder_shear_detailed (sec : Section) (Fy : float)
  (stiff_spacing : option float) (end_panel : bool) : res ShearResults :=
  let Aw := hw sec * tw sec in
  h_tw <- truediv (hw sec) (tw sec) ;;
  '(kv, has_stiffeners, a_h) <-
    match stiff_spacing with
    | None => Ok (5.34, false, infinity)
    | Some spacing =>
        if spacing <=? 0 then Ok (5.34, false, infinity)
        else
          a <- truediv spacing (hw sec) ;;
          if a <=? 3.0
          then q <- truediv 5 (pow2 a) ;; Ok (5 + q, true, a)
          else Ok (5.34, true, a)
    end ;;
  let kv_entry := mkKvEntry kv a_h has_stiffeners in
  q1 <- truediv (kv * E_STEEL) Fy ;;
  s1 <- math_sqrt q1 ;;
  let limit1 := 1.10 * s1 in
  q2 <- truediv (kv * E_STEEL) Fy ;;
  s2 <- math_sqrt q2 ;;
  let limit2 := 1.37 * s2 in
  '(Cv1, cv_case) <-
    (if h_tw <=? limit1 then Ok (1.0, CvUnity)
     else if h_tw <=? limit2
     then c <- truediv limit1 h_tw ;; Ok (c, CvInelastic)
     else c <- truediv (1.51 * kv * E_STEEL) (pow2 h_tw * Fy) ;;
          Ok (c, CvElastic)) ;;
  let cv1_entry := mkCv1Entry Cv1 h_tw limit1 limit2 cv_case in
  let Vn1 := 0.6 * Fy * Aw * Cv1 / 1000 in
  let no_tfa := mkNoTfaEntry Vn1 Aw Cv1 in
  '(tfa_applicable, Vn2, tfa_entry) <-
    (if has_stiffeners && (a_h <=? 3.0) then
       r <- truediv 260 h_tw ;;
       let limit_ah := pow2 r in
       if a_h <=? limit_ah then
         if negb end_panel then
           Cv2 <- (if h_tw <=? limit1 then Ok 1.0
                   else truediv limit1 h_tw) ;;
           s <- math_sqrt (1 + pow2 a_h) ;;
           t <- truediv (1 - Cv2) (1.15 * s) ;;
           let Vn2 := 0.6 * Fy * Aw * (Cv2 + t) / 1000 in
           Ok (true, Vn2, TfaApplicable Vn2 Cv2)
         else Ok (false, Vn1, TfaEndPanel)
       else Ok (false, Vn1, TfaAspectLimit a_h limit_ah)
     else Ok (false, Vn1, TfaNoStiffeners)) ;;
  let Vn := if tfa_applicable : bool then Vn2 else Vn1 in
  let governing := if tfa_applicable then WithTFA else WithoutTFA in
  let Omega := if tfa_applicable then 1.67 else 1.50 in
  Ok (mkShearResults kv_entry cv1_entry no_tfa tfa_entry
        (mkGoverningEntry Vn governing Omega (Vn / Omega))).

(** [calc_Vn_plate_girder(sec, Fy, has_stiff, stiff_spa, use_tfa)]: the
    returned pair [(Vn, Cv1)]. *)
Definition calc_Vn_plate_girder (sec : Section) (Fy : float)
  (has_stiff : bool) (stiff_spa : float) (use_tfa : bool)
  : res (float * float) :=
  let Aw := hw sec * tw sec in
  let h_tw := hw sec / max2 (tw sec) 1 in
  kv <- (if has_stiff && (0 <? stiff_spa) && (0 <? hw sec) then
           a_h <- truediv stiff_spa (hw sec) ;;
           if a_h <=? 3
           then q <- truediv 5 (pow2 a_h) ;; Ok (5 + q)
           else Ok 5.34
         else Ok 5.34) ;;
  q1 <- truediv (kv * E_STEEL) Fy ;;
  s1 <- math_sqrt q1 ;;
  let limit_1 := 1.10 * s1 in
  q2 <- truediv (kv * E_STEEL) Fy ;;
  s2 <- math_sqrt q2 ;;
  let limit_2 := 1.37 * s2 in
  Cv1 <- (if h_tw <=? limit_1 then Ok 1.0
          else if h_tw <=? limit_2 then truediv limit_1 h_tw
          else truediv (1.51 * kv * E_STEEL) (pow2 h_tw * Fy)) ;;
  let Vn1 := 0.6 * Fy * Aw * Cv1 / 1000 in
  if use_tfa && has_stiff && (0 <? stiff_spa) && (Cv1 <? 1.0)
  then
    a_h <- truediv stiff_spa (hw sec) ;;
    if (a_h <=? 3) && (0.5 <=? a_h)
    then
      Cv2 <- (if h_tw <=? limit_1 then Ok 1.0
              else truediv limit_1 h_tw) ;;
      s <- math_sqrt (1 + pow2 a_h) ;;
      t <- truediv (1 - Cv2) (1.15 * s) ;;
      let Vn_tfa := 0.6 * Fy * Aw * (Cv2 + t) / 1000 in
      Ok (max2 Vn1 Vn_tfa, Cv1)
    else Ok (Vn1, Cv1)
  else Ok (Vn1, Cv1).

(** *** Inputs used in examples *)


(** Webs whose exact ratio [hw/tw] equals the exact limit
    [3.76 * sqrt(E/Fy)]: 940 x 10 with [Fy = 320] (ratio 94), and
    752 x 10 with [Fy = 500] (ratio 75.2). *)
Definition web_940 : Section :=
  mkSection "Built-up" "built_up" 980 300 20 300 20 10 940
    false EmptyString 0 0 0 0
    0 0 0 0 0 0 0 0 0 0 0 0 0 0.

Definition web_752 : Section :=
  mkSection "Built-up" "built_up" 792 300 20 300 20 10 752
    false EmptyString 0 0 0 0
    0 0 0 0 0 0 0 0 0 0 0 0 0 0.

End F64.
(* ================================================================== *)
(** ** Facts about the primitives *)
(* ================================================================== *)

(** Case analysis on the first computation of a sequence known to
    succeed. *)
Ltac run_bind H :=
  match type of H with
  | bind ?c _ = Ok _ =>
      let v := fresh "v" in
      let E := fresh "E" in
      destruct c as [v | ?] eqn:E; cbn [bind] in H; [| discriminate H]
  end.

Lemma truediv_ok (x y : R) : y <> 0 -> truediv x y = Ok (x / y).
Proof.
  intros Hy. unfold truediv. destruct (Req_dec_T y 0) as [E | _].
  - contradiction.
  - reflexivity.
Qed.

Lemma truediv_zero (x : R) : truediv x 0 = Raise ZeroDivisionError.
Proof.
  unfold truediv. destruct (Req_dec_T 0 0) as [_ | N].
  - reflexivity.
  - exfalso. apply N. reflexivity.
Qed.

Lemma math_sqrt_ok (x : R) : 0 <= x -> math_sqrt x = Ok (sqrt x).
Proof.
  intros Hx. unfold math_sqrt. destruct (Rlt_dec x 0) as [Hlt | _].
  - lra.
  - reflexivity.
Qed.

Lemma max2_Rmax (a b : R) : max2 a b = Rmax a b.
Proof.
  unfold max2, Rmax.
  destruct (Rlt_dec a b) as [Hlt | Hge]; destruct (Rle_dec a b) as [Hle | Hgt];
    try reflexivity; lra.
Qed.

Lemma max2_left (a b : R) : b <= a -> max2 a b = a.
Proof.
  intros H. unfold max2. destruct (Rlt_dec a b); [lra | reflexivity].
Qed.

Lemma max2_right (a b : R) : a <= b -> max2 a b = b.
Proof.
  intros H. unfold max2. destruct (Rlt_dec a b); [reflexivity | lra].
Qed.

Lemma max2_ge_l (a b : R) : a <= max2 a b.
Proof. unfold max2. destruct (Rlt_dec a b); lra. Qed.

Lemma max2_ge_r (a b : R) : b <= max2 a b.
Proof. unfold max2. destruct (Rlt_dec a b); lra. Qed.

Lemma min2_Rmin (a b : R) : min2 a b = Rmin a b.
Proof.
  unfold min2, Rmin.
  destruct (Rlt_dec b a); destruct (Rle_dec a b); try reflexivity; lra.
Qed.

Lemma fold_left_Rplus_acc (l : list R) (a : R) :
  fold_left Rplus l a = a + fold_left Rplus l 0.
Proof.
  revert a. induction l as [| x l IH]; intros a; simpl.
  - lra.
  - rewrite (IH (a + x)), (IH (0 + x)). lra.
Qed.

Lemma sum_cons (x : R) (l : list R) : sum (x :: l) = x + sum l.
Proof.
  unfold sum. simpl. rewrite fold_left_Rplus_acc. lra.
Qed.

Lemma sum_nil : sum [] = 0.
Proof. reflexivity. Qed.

(* ================================================================== *)
(** ** Crane wheel loads *)
(* ================================================================== *)

(** Outside direct-input mode the reactions follow the lever rule on the
    bridge, whatever the other attributes are. *)
Lemma calc_wheel_loads_geometry (c : CraneData) :
  use_direct_input c = false ->
  bridge_span c <> 0 ->
  num_wheels c <> 0%Z ->
  exists c' loads,
    calc_wheel_loads c = Ok (c', loads)
    /\ R_max c' = bridge_weight c * GRAVITY / 2
                  + (capacity_tonnes c * GRAVITY + trolley_weight c * GRAVITY)
                    * (bridge_span c - min_hook_approach c) / bridge_span c
    /\ R_min c' = bridge_weight c * GRAVITY / 2
                  + (capacity_tonnes c * GRAVITY + trolley_weight c * GRAVITY)
                    * min_hook_approach c / bridge_span c
    /\ max_wheel_load c' = R_max c' / IZR (num_wheels c)
    /\ min_wheel_load c' = R_min c' / IZR (num_wheels c)
    /\ loads = (max_wheel_load c', min_wheel_load c').
Proof.
  intros Hmode Hspan Hn.
  assert (Hn' : IZR (num_wheels c) <> 0) by (apply not_0_IZR; exact Hn).
  unfold calc_wheel_loads. rewrite Hmode. cbn [andb].
  rewrite (truediv_ok _ _ Hspan). cbn [bind].
  rewrite (truediv_ok _ _ Hspan). cbn [bind].
  rewrite (truediv_ok _ _ Hn'). cbn [bind].
  rewrite (truediv_ok _ _ Hn'). cbn [bind].
  eexists. eexists. split; [reflexivity |].
  cbn [set_loads R_max R_min max_wheel_load min_wheel_load].
  repeat split; try reflexivity; lra.
Qed.

(** C4. For a crane that is not in direct-input mode, with capacity 10 t,
    bridge weight 5 t, trolley 0.72 t, bridge span 20 m, minimum hook
    approach 1 m, wheel base 2.2 m and 2 wheels per rail,
    [calc_wheel_loads] sets [R_max] to
    [P_bridge/2 + (P_lift + P_trolley)*(20 - 1)/20] with
    [P_lift = 10*9.81], [P_trolley = 0.72*9.81], [P_bridge = 5*9.81]. *)
Theorem calc_wheel_loads_scenario1 (c : CraneData) :
  use_direct_input c = false ->
  capacity_tonnes c = 10 ->
  bridge_weight c = 5 ->
  trolley_weight c = 0.72 ->
  bridge_span c = 20 ->
  min_hook_approach c = 1 ->
  wheel_base c = 2.2 ->
  num_wheels c = 2%Z ->
  exists c' loads,
    calc_wheel_loads c = Ok (c', loads)
    /\ R_max c' = 5 * 9.81 / 2 + (10 * 9.81 + 0.72 * 9.81) * (20 - 1) / 20.
Proof.
  intros Hmode Hcap Hbw Htw Hbs Hmin Hwb Hn.
  destruct (calc_wheel_loads_geometry c) as (c' & loads & Hrun & Hmax & _).
  - exact Hmode.
  - rewrite Hbs. lra.
  - rewrite Hn. discriminate.
  - exists c', loads. split; [exact Hrun |].
    rewrite Hmax, Hcap, Hbw, Htw, Hbs, Hmin. unfold GRAVITY. lra.
Qed.

Lemma calc_wheel_loads_scenario1_witness :
  exists c' loads,
    calc_wheel_loads scenario1_crane = Ok (c', loads)
    /\ R_max c' = 5 * 9.81 / 2 + (10 * 9.81 + 0.72 * 9.81) * (20 - 1) / 20.
Proof.
  apply (calc_wheel_loads_scenario1 scenario1_crane);
    cbn [scenario1_crane use_direct_input capacity_tonnes bridge_weight
         trolley_weight bridge_span min_hook_approach wheel_base num_wheels];
    try reflexivity; lra.
Defined.

(** The value of scenario 1 worked out: 124.43004 kN. *)
Lemma scenario1_R_max_value :
  5 * 9.81 / 2 + (10 * 9.81 + 0.72 * 9.81) * (20 - 1) / 20 = 124.43004.
Proof. lra. Qed.

(** [calc_wheel_loads] reads none of the attributes it assigns: running
    it again on its own result changes nothing. *)
Lemma calc_wheel_loads_idempotent (c c' : CraneData) (loads : R * R) :
  calc_wheel_loads c = Ok (c', loads) ->
  calc_wheel_loads c' = Ok (c', loads).
Proof.
  unfold calc_wheel_loads.
  destruct (use_direct_input c && Rpos_b (direct_max_wheel_load c)) eqn:Hmode.
  - intros H. injection H as <- <-.
    cbn [set_loads use_direct_input direct_max_wheel_load
         direct_min_wheel_load num_wheels].
    rewrite Hmode. reflexivity.
  - destruct (truediv (_ * (bridge_span c - _)) _) as [m1 |] eqn:H1;
      cbn [bind]; [| discriminate].
    destruct (truediv (_ * min_hook_approach c) _) as [m2 |] eqn:H2;
      cbn [bind]; [| discriminate].
    destruct (truediv (_ + m1) _) as [w1 |] eqn:H3; cbn [bind];
      [| discriminate].
    destruct (truediv (_ + m2) _) as [w2 |] eqn:H4; cbn [bind];
      [| discriminate].
    intros H. injection H as <- <-.
    cbn [set_loads use_direct_input direct_max_wheel_load bridge_span
         min_hook_approach capacity_tonnes trolley_weight bridge_weight
         num_wheels].
    rewrite Hmode, H1. cbn [bind]. rewrite H2. cbn [bind].
    rewrite H3. cbn [bind]. rewrite H4. cbn [bind]. reflexivity.
Qed.

(* ================================================================== *)
(** ** Section properties *)
(* ================================================================== *)

(** C10. Whatever the geometry of the section, built-up or with a cap
    channel, the plastic modulus that [calc_props] assigns is the elastic
    modulus it assigns times 1.12. *)
Theorem calc_props_Zx (s s' : Section) :
  calc_props s = Ok s' -> Zx s' = 1.12 * Sx s'.
Proof.
  unfold calc_props. intros H.
  repeat run_bind H.
  injection H as <-. cbn [Zx Sx]. lra.
Qed.

Lemma max2_one_pos (a : R) : 0 < max2 a 1.
Proof. pose proof (max2_ge_r a 1). lra. Qed.

Lemma div_max2_nonneg (x a : R) : 0 <= x -> 0 <= x / max2 a 1.
Proof.
  intros Hx. apply Rmult_le_pos; [exact Hx |].
  left. apply Rinv_0_lt_compat. apply max2_one_pos.
Qed.

Lemma plate_inertia_nonneg (b t area y : R) :
  0 <= b -> 0 <= t -> 0 <= area -> 0 <= b * t ^ 3 / 12 + area * y ^ 2.
Proof.
  intros Hb Ht Ha.
  assert (0 <= t ^ 3) by (apply pow_le; exact Ht).
  assert (0 <= y ^ 2) by (apply pow2_ge_0).
  assert (0 <= b * t ^ 3) by (apply Rmult_le_pos; assumption).
  assert (0 <= area * y ^ 2) by (apply Rmult_le_pos; assumption).
  lra.
Qed.

(** On plates of non-negative width and thickness (and a cap channel of
    non-negative inertia) [calc_props] raises nothing. *)
Lemma calc_props_total (s : Section) :
  0 <= bf_top s -> 0 <= tf_top s -> 0 <= bf_bot s -> 0 <= tf_bot s ->
  0 <= tw s -> 0 <= hw s -> 0 <= cap_Iy s ->
  exists s', calc_props s = Ok s'.
Proof.
  intros Hbt Htt Hbb Htb Htw Hhw Hci.
  assert (Atf : 0 <= bf_top s * tf_top s) by (apply Rmult_le_pos; assumption).
  assert (Abf : 0 <= bf_bot s * tf_bot s) by (apply Rmult_le_pos; assumption).
  assert (Aw : 0 <= hw s * tw s) by (apply Rmult_le_pos; assumption).
  unfold calc_props.
  set (capped := has_cap s && Rpos_b (cap_A s)).
  assert (Hcap : capped = true -> 0 < cap_A s).
  { unfold capped, Rpos_b. intros Hc. apply andb_true_iff in Hc.
    destruct Hc as [_ Hc]. destruct (Rlt_dec 0 (cap_A s)); [assumption | discriminate]. }
  match goal with
  | |- exists _, bind ?c _ = _ => assert (Hy : exists y, c = Ok y)
  end.
  { destruct capped.
    - eexists. apply truediv_ok. specialize (Hcap eq_refl). lra.
    - eexists. reflexivity. }
  destruct Hy as [y Hy]. rewrite Hy. cbn [bind].
  set (I_tf := bf_top s * tf_top s ^ 3 / 12 + _).
  set (I_bf := bf_bot s * tf_bot s ^ 3 / 12 + _).
  set (I_w := tw s * hw s ^ 3 / 12 + _).
  assert (HItf : 0 <= I_tf) by (apply plate_inertia_nonneg; assumption).
  assert (HIbf : 0 <= I_bf) by (apply plate_inertia_nonneg; assumption).
  assert (HIw : 0 <= I_w) by (apply plate_inertia_nonneg; assumption).
  set (Ix' := if capped then _ else _).
  assert (HIx : 0 <= Ix').
  { unfold Ix'. destruct capped.
    - specialize (Hcap eq_refl).
      assert (0 <= cap_A s * (d s + cap_cy s - y) ^ 2).
      { apply Rmult_le_pos; [lra | apply pow2_ge_0]. }
      lra.
    - lra. }
  set (Iy' := tf_top s * bf_top s ^ 3 / 12 + _ + _).
  assert (HIy : 0 <= Iy').
  { unfold Iy'.
    assert (0 <= tf_top s * bf_top s ^ 3)
      by (apply Rmult_le_pos; [| apply pow_le]; assumption).
    assert (0 <= tf_bot s * bf_bot s ^ 3)
      by (apply Rmult_le_pos; [| apply pow_le]; assumption).
    assert (0 <= hw s * tw s ^ 3)
      by (apply Rmult_le_pos; [| apply pow_le]; assumption).
    lra. }
  rewrite (math_sqrt_ok (Ix' / _)) by (apply div_max2_nonneg; exact HIx).
  cbn [bind].
  rewrite (math_sqrt_ok (Iy' / _)) by (apply div_max2_nonneg; exact HIy).
  cbn [bind].
  set (Cw' := if Rlt_dec 0 _ then _ else _).
  assert (HCw : 0 <= Cw').
  { unfold Cw'. destruct (Rlt_dec 0 _).
    - assert (0 <= Iy' * (d s - (tf_top s + tf_bot s) / 2) ^ 2)
        by (apply Rmult_le_pos; [exact HIy | apply pow2_ge_0]).
      lra.
    - lra. }
  rewrite (math_sqrt_ok (Iy' * Cw')) by (apply Rmult_le_pos; assumption).
  cbn [bind].
  rewrite math_sqrt_ok by (apply div_max2_nonneg; apply sqrt_pos).
  cbn [bind].
  eexists. reflexivity.
Qed.

Lemma calc_props_Zx_witness :
  exists s', calc_props default_built_up = Ok s' /\ Zx s' = 1.12 * Sx s'.
Proof.
  destruct (calc_props_total default_built_up) as [s' Hs'];
    try (cbn [default_built_up bf_top tf_top bf_bot tf_bot tw hw cap_Iy]; lra).
  exists s'. split; [exact Hs' |].
  exact (calc_props_Zx default_built_up s' Hs').
Defined.

(* ================================================================== *)
(** ** Reactions of [analyze_load] *)
(* ================================================================== *)

(** The reactions that [analyze_load] stores, for any non-empty list of
    wheels. *)
Lemma analyze_load_reactions (L : R) (ws : list WheelPos) :
  ws <> [] ->
  exists lc,
    analyze_load L ws = Some lc
    /\ wheels lc = ws
    /\ R_right lc = total_load_moment ws / max2 L 0.1
    /\ R_left lc = total_vertical_load ws - R_right lc.
Proof.
  intros Hne. destruct ws as [| w ws']; [contradiction |].
  unfold analyze_load. eexists. split; [reflexivity |].
  cbn [wheels R_right R_left]. repeat split.
Qed.

(** Without wheels there is no case. *)
Lemma analyze_load_nil (L : R) : analyze_load L [] = None.
Proof. reflexivity. Qed.

(** Without rounding, in the real-number embedding, the reactions of the
    case returned by [analyze_load] add up to the sum of the vertical
    wheel loads. *)
Lemma analyze_load_equilibrium (L : R) (ws : list WheelPos) :
  ws <> [] ->
  exists lc,
    analyze_load L ws = Some lc
    /\ R_left lc + R_right lc = total_vertical_load ws.
Proof.
  intros Hne.
  destruct (analyze_load_reactions L ws Hne) as (lc & Hrun & _ & _ & Hl).
  exists lc. split; [exact Hrun |]. rewrite Hl. lra.
Qed.

(** The total load of the example is 100 kN, shared equally. *)
Lemma two_wheels_10m_reactions :
  exists lc,
    analyze_load 10 two_wheels_10m = Some lc
    /\ R_left lc = 50 /\ R_right lc = 50.
Proof.
  destruct (analyze_load_reactions 10 two_wheels_10m) as (lc & Hrun & _ & Hr & Hl).
  - unfold two_wheels_10m. discriminate.
  - exists lc. split; [exact Hrun |].
    assert (Hm : max2 10 0.1 = 10) by (apply max2_left; lra).
    assert (HM : total_load_moment two_wheels_10m = 500).
    { unfold total_load_moment, two_wheels_10m. cbn [map Pv pos].
      rewrite !sum_cons, sum_nil. lra. }
    assert (HP : total_vertical_load two_wheels_10m = 100).
    { unfold total_vertical_load, two_wheels_10m. cbn [map Pv].
      rewrite !sum_cons, sum_nil. lra. }
    rewrite Hm, HM in Hr. rewrite HP in Hl. lra.
Qed.

(** The claim C2 as stated fails below a span of 0.1 m: the divisor of the
    right reaction is [max(L, 0.1)], not [L].  On a span of 0.05 m one
    wheel of 10 kN at 0.02 m gives [R_right = 2], whereas the moment sum
    over the span is 4. *)
Lemma analyze_load_short_span_counterexample :
  0 < short_span
  /\ short_span_wheels <> []
  /\ exists lc,
       analyze_load short_span short_span_wheels = Some lc
       /\ R_right lc = 2
       /\ total_load_moment short_span_wheels / short_span = 4
       /\ R_right lc <> total_load_moment short_span_wheels / short_span.
Proof.
  assert (HM : total_load_moment short_span_wheels = 0.2).
  { unfold total_load_moment, short_span_wheels. cbn [map Pv pos].
    rewrite sum_cons, sum_nil. lra. }
  assert (Hm : max2 short_span 0.1 = 0.1).
  { apply max2_right. unfold short_span. lra. }
  split; [unfold short_span; lra |].
  split; [unfold short_span_wheels; discriminate |].
  destruct (analyze_load_reactions short_span short_span_wheels)
    as (lc & Hrun & _ & Hr & _).
  - unfold short_span_wheels. discriminate.
  - exists lc. split; [exact Hrun |].
    rewrite Hm, HM in Hr. rewrite HM. unfold short_span.
    repeat split; lra.
Qed.

(** C2, amended. For every span of at least 0.1 m and every non-empty
    list of wheels, [analyze_load] computes the right reaction as the sum
    of [Pv * pos] over the span and the left reaction as the sum of [Pv]
    minus the right reaction. *)
Theorem analyze_load_reaction_formulas (L : R) (ws : list WheelPos) :
  0.1 <= L ->
  ws <> [] ->
  exists lc,
    analyze_load L ws = Some lc
    /\ R_right lc = total_load_moment ws / L
    /\ R_left lc = total_vertical_load ws - R_right lc.
Proof.
  intros HL Hne.
  destruct (analyze_load_reactions L ws Hne) as (lc & Hrun & _ & Hr & Hl).
  exists lc. split; [exact Hrun |]. split; [| exact Hl].
  rewrite Hr. rewrite max2_left by exact HL. reflexivity.
Qed.

Lemma analyze_load_reaction_formulas_witness :
  exists lc,
    analyze_load 10 two_wheels_10m = Some lc
    /\ R_right lc = total_load_moment two_wheels_10m / 10
    /\ R_left lc = total_vertical_load two_wheels_10m - R_right lc.
Proof.
  apply (analyze_load_reaction_formulas 10 two_wheels_10m).
  - lra.
  - unfold two_wheels_10m. discriminate.
Defined.

(* ================================================================== *)
(** ** Web classification *)
(* ================================================================== *)

Lemma E_over_Fy_pos (Fy : R) : 0 < Fy -> 0 < E_STEEL / Fy.
Proof.
  intros HFy. unfold E_STEEL. apply Rdiv_lt_0_compat; lra.
Qed.

Lemma sqrt_E_over_ok (Fy : R) :
  0 < Fy -> sqrt_E_over Fy = Ok (sqrt (E_STEEL / Fy)).
Proof.
  intros HFy. unfold sqrt_E_over.
  rewrite truediv_ok by lra. cbn [bind].
  apply math_sqrt_ok. left. apply E_over_Fy_pos. exact HFy.
Qed.

(** With a positive yield strength [check_compact] raises nothing and
    returns the two classifications with their ratios and limits. *)
Lemma check_compact_run (sec : Section) (Fy : R) :
  0 < Fy ->
  let s := sqrt (E_STEEL / Fy) in
  let lf_ := bf_top sec / max2 (2 * tf_top sec) 1 in
  let lw_ := hw sec / max2 (tw sec) 1 in
  check_compact sec Fy =
  Ok (mkCompactResult
        (classify lf_ (0.38 * s) (1.0 * s))
        (classify lw_ (3.76 * s) (5.70 * s))
        lf_ (0.38 * s) (1.0 * s) lw_ (3.76 * s) (5.70 * s)).
Proof.
  intros HFy s lf_ lw_. unfold check_compact.
  rewrite (sqrt_E_over_ok Fy HFy). cbn [bind]. reflexivity.
Qed.

Lemma classify_compact (l lp lr : R) :
  l <= lp -> classify l lp lr = "Compact"%string.
Proof.
  intros H. unfold classify. destruct (Rle_dec l lp); [reflexivity | lra].
Qed.

Lemma classify_noncompact (l lp lr : R) :
  lp < l -> l <= lr -> classify l lp lr = "Noncompact"%string.
Proof.
  intros H1 H2. unfold classify.
  destruct (Rle_dec l lp); [lra |].
  destruct (Rle_dec l lr); [reflexivity | lra].
Qed.

Lemma classify_slender (l lp lr : R) :
  lp < l -> lr < l -> classify l lp lr = "Slender"%string.
Proof.
  intros H1 H2. unfold classify.
  destruct (Rle_dec l lp); [lra |].
  destruct (Rle_dec l lr); [lra | reflexivity].
Qed.

Lemma sqrt_625 : sqrt (E_STEEL / 320) = 25.
Proof.
  replace (E_STEEL / 320) with (25 * 25) by (unfold E_STEEL; lra).
  apply sqrt_square. lra.
Qed.

(* ================================================================== *)
(** ** Shear strength without stiffeners *)
(* ================================================================== *)

(** [end_panel] is not looked at when no stiffener spacing is given. *)
Lemma shear_detailed_end_panel_irrelevant (sec : Section) (Fy : R)
  (end_panel : bool) :
  calc_plate_girder_shear_detailed sec Fy None end_panel
  = calc_plate_girder_shear_detailed sec Fy None false.
Proof. reflexivity. Qed.

(** Neither is it with a spacing that is not positive. *)
Lemma shear_detailed_nonpositive_spacing (sec : Section) (Fy spacing : R)
  (end_panel : bool) :
  spacing <= 0 ->
  calc_plate_girder_shear_detailed sec Fy (Some spacing) end_panel
  = calc_plate_girder_shear_detailed sec Fy None false.
Proof.
  intros Hs. unfold calc_plate_girder_shear_detailed.
  destruct (Rle_dec spacing 0); [reflexivity | lra].
Qed.

(** Without stiffeners [use_tfa] is not looked at. *)
Lemma Vn_plate_girder_use_tfa_irrelevant (sec : Section) (Fy stiff_spa : R)
  (use_tfa : bool) :
  calc_Vn_plate_girder sec Fy false stiff_spa use_tfa
  = calc_Vn_plate_girder sec Fy false stiff_spa false.
Proof.
  unfold calc_Vn_plate_girder. cbn [andb].
  destruct use_tfa; reflexivity.
Qed.

Lemma kv_E_over_Fy_pos (Fy : R) : 0 < Fy -> 0 < 5.34 * E_STEEL / Fy.
Proof.
  intros HFy. unfold E_STEEL. apply Rdiv_lt_0_compat; lra.
Qed.

(** The unstiffened shear coefficient: the three branches of [Cv1] and
    the text that goes with each, for [kv = 5.34]. *)
Lemma Cv1_unstiffened_ok (h_tw Fy : R) :
  0 < Fy ->
  let s := sqrt (5.34 * E_STEEL / Fy) in
  exists Cv1 cv_case,
    (if Rle_dec h_tw (1.10 * s) then Ok (1.0, CvUnity)
     else if Rle_dec h_tw (1.37 * s)
     then c <- truediv (1.10 * s) h_tw ;; Ok (c, CvInelastic)
     else c <- truediv (1.51 * 5.34 * E_STEEL) (h_tw ^ 2 * Fy) ;;
          Ok (c, CvElastic))
    = Ok (Cv1, cv_case).
Proof.
  intros HFy s.
  assert (Hs : 0 < s).
  { apply sqrt_lt_R0. apply kv_E_over_Fy_pos. exact HFy. }
  destruct (Rle_dec h_tw (1.10 * s)) as [H1 | H1].
  - eexists. eexists. reflexivity.
  - destruct (Rle_dec h_tw (1.37 * s)) as [H2 | H2].
    + rewrite truediv_ok by lra. cbn [bind]. eexists. eexists. reflexivity.
    + rewrite truediv_ok.
      * cbn [bind]. eexists. eexists. reflexivity.
      * assert (0 < h_tw) by lra.
        assert (0 < h_tw ^ 2) by (apply pow_lt; assumption).
        apply Rgt_not_eq. apply Rmult_lt_0_compat; assumption.
Qed.

(** In the real-number embedding, with [stiff_spacing = None], a web of
    non-zero thickness and a positive yield strength,
    [calc_plate_girder_shear_detailed] raises nothing and returns the
    same results whatever [end_panel] is, and [calc_Vn_plate_girder]
    with [has_stiff = False] does not look at [use_tfa]. *)
Lemma shear_without_stiffeners (sec : Section) (Fy : R) :
  tw sec <> 0 ->
  0 < Fy ->
  (forall end_panel : bool,
     exists r,
       calc_plate_girder_shear_detailed sec Fy None end_panel = Ok r
       /\ calc_plate_girder_shear_detailed sec Fy None (negb end_panel) = Ok r
       /\ kv_value (res_kv r) = 5.34
       /\ kv_has_stiffeners (res_kv r) = false
       /\ res_shear_tfa r = TfaNoStiffeners
       /\ gov_method (res_governing r) = WithoutTFA
       /\ gov_Vn (res_governing r) = no_tfa_Vn (res_shear_no_tfa r)
       /\ gov_Vn (res_governing r)
          = 0.6 * Fy * (hw sec * tw sec) * cv1_value (res_Cv1 r) / 1000)
  /\ (forall (stiff_spa : R) (use_tfa : bool),
        calc_Vn_plate_girder sec Fy false stiff_spa use_tfa
        = calc_Vn_plate_girder sec Fy false stiff_spa (negb use_tfa)).
Proof.
  intros Htw HFy. split.
  - intros end_panel.
    rewrite (shear_detailed_end_panel_irrelevant sec Fy (negb end_panel)).
    rewrite (shear_detailed_end_panel_irrelevant sec Fy end_panel).
    unfold calc_plate_girder_shear_detailed.
    rewrite (truediv_ok _ _ Htw). cbn [bind].
    rewrite (truediv_ok (5.34 * E_STEEL) Fy) by lra. cbn [bind].
    rewrite math_sqrt_ok by (left; apply kv_E_over_Fy_pos; exact HFy).
    cbn [bind].
    destruct (Cv1_unstiffened_ok (hw sec / tw sec) Fy HFy)
      as (Cv1 & cv_case & HCv).
    cbv zeta in HCv. rewrite HCv. cbn [bind andb].
    eexists. split; [reflexivity |].
    cbn [res_kv res_Cv1 res_shear_no_tfa res_shear_tfa res_governing
         kv_value kv_has_stiffeners gov_method gov_Vn no_tfa_Vn cv1_value].
    repeat split.
  - intros stiff_spa use_tfa.
    rewrite (Vn_plate_girder_use_tfa_irrelevant sec Fy stiff_spa use_tfa).
    rewrite (Vn_plate_girder_use_tfa_irrelevant sec Fy stiff_spa (negb use_tfa)).
    reflexivity.
Qed.

(** On a web at least 1 mm thick the legacy entry point [calc_Vn], which
    never uses tension-field action, returns the governing strength and
    the coefficient of the detailed calculation without stiffeners. *)
Lemma shear_detailed_agrees_with_calc_Vn (sec : Section) (Fy stiff_spa : R)
  (end_panel : bool) :
  1 <= tw sec ->
  0 < Fy ->
  exists r,
    calc_plate_girder_shear_detailed sec Fy None end_panel = Ok r
    /\ calc_Vn sec Fy false stiff_spa
       = Ok (gov_Vn (res_governing r), cv1_value (res_Cv1 r)).
Proof.
  intros Htw HFy.
  assert (Hs : 0 < sqrt (5.34 * E_STEEL / Fy)).
  { apply sqrt_lt_R0. apply kv_E_over_Fy_pos. exact HFy. }
  unfold calc_Vn, calc_Vn_plate_girder, calc_plate_girder_shear_detailed.
  cbn [andb]. rewrite (max2_left (tw sec) 1) by exact Htw.
  rewrite (truediv_ok (hw sec) (tw sec)) by lra. cbn [bind].
  rewrite (truediv_ok (5.34 * E_STEEL) Fy) by lra. cbn [bind].
  rewrite math_sqrt_ok by (left; apply kv_E_over_Fy_pos; exact HFy).
  cbn [bind].
  destruct (Rle_dec (hw sec / tw sec) (1.10 * sqrt (5.34 * E_STEEL / Fy)))
    as [H1 | H1].
  - cbn [bind andb]. eexists. split; reflexivity.
  - destruct (Rle_dec (hw sec / tw sec) (1.37 * sqrt (5.34 * E_STEEL / Fy)))
      as [H2 | H2].
    + rewrite truediv_ok by lra. cbn [bind andb].
      eexists. split; reflexivity.
    + rewrite truediv_ok.
      * cbn [bind andb]. eexists. split; reflexivity.
      * assert (0 < hw sec / tw sec) by lra.
        assert (0 < (hw sec / tw sec) ^ 2) by (apply pow_lt; assumption).
        apply Rgt_not_eq. apply Rmult_lt_0_compat; assumption.
Qed.

(* ================================================================== *)
(** ** Fatigue *)
(* ================================================================== *)

(** Every entry of the fatigue table, and so the entry looked up for any
    category name, has a positive constant and a threshold of at least
    31 MPa. *)
Lemma fatigue_entry_bounds (cat : string) :
  let cf := dict_get cat FATIGUE_CATS FATIGUE_CAT_E in
  0 < Cf cf /\ 31 <= thresh cf.
Proof.
  cbv zeta. unfold FATIGUE_CATS, FATIGUE_CAT_E. cbn [dict_get].
  repeat match goal with
         | |- context [String.eqb cat ?k] => destruct (String.eqb cat k)
         end;
    cbn [Cf thresh]; lra.
Qed.

Lemma fatigue_entry_E :
  dict_get "E" FATIGUE_CATS FATIGUE_CAT_E = FATIGUE_CAT_E.
Proof. reflexivity. Qed.

(** The cube root of 550 is below 31. *)
Lemma cube_root_550_lt_31 : Rpower (11e8 / 2000000) (1 / 3) < 31.
Proof.
  assert (H31 : Rpower 29791 (1 / 3) = 31).
  { replace 29791 with (31 ^ 3) by lra.
    rewrite <- (Rpower_pow 3 31) by lra.
    rewrite Rpower_mult.
    replace (INR 3 * (1 / 3)) with 1 by (simpl; lra).
    apply Rpower_1. lra. }
  rewrite <- H31. apply Rlt_Rpower_l; lra.
Qed.

(** C6. For a section with [Sx > 0], any moment [M], a cycle count
    [N >= 1] and any category name, [check_fatigue] returns the stress
    range [M*1e6/Sx], the allowable range
    [max(threshold, (Cf/N)^(1/3))] and their quotient as ratio; for
    category E at two million cycles the allowable range is the threshold
    31 MPa, the cycle-dependent value being smaller, and the ratio is the
    stress range over 31. *)
Theorem check_fatigue_ratio (sec : Section) (M N : R) (cat : string) :
  0 < Sx sec ->
  1 <= N ->
  let cf := dict_get cat FATIGUE_CATS FATIGUE_CAT_E in
  let stress_range := M * 1e6 / Sx sec in
  sr (check_fatigue sec M N cat) = stress_range
  /\ Fsr (check_fatigue sec M N cat)
     = Rmax (thresh cf) (Rpower (Cf cf / N) (1 / 3))
  /\ ratio (check_fatigue sec M N cat)
     = stress_range / Rmax (thresh cf) (Rpower (Cf cf / N) (1 / 3))
  /\ Rpower (11e8 / 2000000) (1 / 3) < 31
  /\ Fsr (check_fatigue sec M 2000000 "E") = 31
  /\ ratio (check_fatigue sec M 2000000 "E") = stress_range / 31.
Proof.
  intros HSx HN cf stress_range.
  assert (Hrun : forall N' cat',
             1 <= N' ->
             check_fatigue sec M N' cat'
             = let cf' := dict_get cat' FATIGUE_CATS FATIGUE_CAT_E in
               let F := Rmax (thresh cf') (Rpower (Cf cf' / N') (1 / 3)) in
               mkFatigueResult stress_range F (stress_range / F)).
  { intros N' cat' HN'. unfold check_fatigue.
    destruct (Rle_dec (Sx sec) 0) as [Hle | _]; [lra |].
    cbv zeta. rewrite (max2_left N' 1) by exact HN'.
    rewrite <- max2_Rmax.
    destruct (fatigue_entry_bounds cat') as [_ Hth]. cbv zeta in Hth.
    rewrite (max2_left (max2 _ _) 1); [reflexivity |].
    pose proof (max2_ge_l (thresh (dict_get cat' FATIGUE_CATS FATIGUE_CAT_E))
                  (Rpower (Cf (dict_get cat' FATIGUE_CATS FATIGUE_CAT_E) / N')
                     (1 / 3))).
    lra. }
  assert (HE : Rmax 31 (Rpower (11e8 / 2000000) (1 / 3)) = 31).
  { apply Rmax_left. left. exact cube_root_550_lt_31. }
  rewrite (Hrun N cat HN).
  rewrite (Hrun 2000000 "E"%string) by lra.
  cbv zeta. rewrite fatigue_entry_E. cbn [sr Fsr ratio FATIGUE_CAT_E Cf thresh].
  rewrite HE.
  repeat split; try reflexivity. exact cube_root_550_lt_31.
Qed.

Lemma check_fatigue_ratio_witness :
  sr (check_fatigue ipe300 100 2000000 "E") = 100 * 1e6 / Sx ipe300
  /\ Fsr (check_fatigue ipe300 100 2000000 "E")
     = Rmax (thresh (dict_get "E" FATIGUE_CATS FATIGUE_CAT_E))
         (Rpower (Cf (dict_get "E" FATIGUE_CATS FATIGUE_CAT_E) / 2000000)
            (1 / 3))
  /\ ratio (check_fatigue ipe300 100 2000000 "E")
     = 100 * 1e6 / Sx ipe300
       / Rmax (thresh (dict_get "E" FATIGUE_CATS FATIGUE_CAT_E))
           (Rpower (Cf (dict_get "E" FATIGUE_CATS FATIGUE_CAT_E) / 2000000)
              (1 / 3))
  /\ Rpower (11e8 / 2000000) (1 / 3) < 31
  /\ Fsr (check_fatigue ipe300 100 2000000 "E") = 31
  /\ ratio (check_fatigue ipe300 100 2000000 "E")
     = 100 * 1e6 / Sx ipe300 / 31.
Proof.
  apply (check_fatigue_ratio ipe300 100 2000000 "E").
  - cbn [ipe300 Sx]. lra.
  - lra.
Defined.

(** The base of the power in [check_fatigue] is positive for every cycle
    count and every category name. *)
Lemma fatigue_power_base_pos (N : R) (cat : string) :
  0 < Cf (dict_get cat FATIGUE_CATS FATIGUE_CAT_E) / max2 N 1.
Proof.
  destruct (fatigue_entry_bounds cat) as [HCf _]. cbv zeta in HCf.
  apply Rdiv_lt_0_compat; [exact HCf | apply max2_one_pos].
Qed.

(* ================================================================== *)
(** ** Governing cases *)
(* ================================================================== *)

Section MaxKey.

Context {A : Type}.
Variable key : A -> R.

(** The running maximum either stays the initial element, which then
    dominates the whole list, or moves to the first later element that
    beats everything before it and is not beaten afterwards. *)
Lemma max_key_from_cases (xs : list A) :
  forall best : A,
    let m := max_key_from key best xs in
    (m = best /\ forall x, In x xs -> key x <= key best)
    \/ (exists l1 l2,
          xs = l1 ++ m :: l2
          /\ key best < key m
          /\ (forall x, In x l1 -> key x < key m)
          /\ (forall x, In x l2 -> key x <= key m)).
Proof.
  induction xs as [| x xs' IH]; intros best; cbn [max_key_from].
  - left. split; [reflexivity | intros x []].
  - destruct (Rlt_dec (key best) (key x)) as [Hlt | Hge].
    + specialize (IH x). cbv zeta in IH.
      destruct IH as [[Hm Hall] | (l1 & l2 & Hxs & Hk & H1 & H2)].
      * right. exists [], xs'. rewrite Hm. cbn [app].
        repeat split; [exact Hlt | intros y [] | exact Hall].
      * right. exists (x :: l1), l2. rewrite Hxs at 1. cbn [app].
        repeat split.
        -- lra.
        -- intros y [<- | Hy]; [exact Hk | apply H1; exact Hy].
        -- exact H2.
    + specialize (IH best). cbv zeta in IH.
      destruct IH as [[Hm Hall] | (l1 & l2 & Hxs & Hk & H1 & H2)].
      * left. split; [exact Hm |].
        intros y [<- | Hy]; [lra | apply Hall; exact Hy].
      * right. exists (x :: l1), l2. rewrite Hxs at 1. cbn [app].
        repeat split.
        -- exact Hk.
        -- intros y [<- | Hy]; [lra | apply H1; exact Hy].
        -- exact H2.
Qed.

(** [max] with a key returns the first maximiser. *)
Lemma max_key_from_first_max (best : A) (xs : list A) :
  first_max key (best :: xs) (max_key_from key best xs).
Proof.
  destruct (max_key_from_cases xs best)
    as [[Hm Hall] | (l1 & l2 & Hxs & Hk & H1 & H2)].
  - exists [], xs. rewrite Hm. cbn [app].
    repeat split; [intros y [] | exact Hall].
  - exists (best :: l1), l2. rewrite Hxs at 1. cbn [app].
    repeat split.
    + intros y [<- | Hy]; [exact Hk | apply H1; exact Hy].
    + exact H2.
Qed.

(** A first maximiser belongs to the list and dominates it. *)
Lemma first_max_In (l : list A) (m : A) :
  first_max key l m -> In m l /\ forall x, In x l -> key x <= key m.
Proof.
  intros (l1 & l2 & -> & H1 & H2). split.
  - apply in_or_app. right. left. reflexivity.
  - intros x Hx. apply in_app_or in Hx.
    destruct Hx as [Hx | [<- | Hx]].
    + left. apply H1. exact Hx.
    + lra.
    + apply H2. exact Hx.
Qed.

(** There is only one first maximiser position: two decompositions of
    the same list agree. *)
Lemma first_max_unique (l : list A) (m m' : A) :
  first_max key l m -> first_max key l m' -> m = m'.
Proof.
  intros (l1 & l2 & -> & H1 & H2) (k1 & k2 & Heq & K1 & K2).
  revert k1 Heq K1. induction l1 as [| a l1 IH]; intros k1 Heq K1.
  - destruct k1 as [| b k1]; cbn [app] in Heq.
    + injection Heq as Hm _. exact Hm.
    + injection Heq as Hb Hrest.
      assert (Hin : In m' l2).
      { rewrite Hrest. apply in_or_app. right. left. reflexivity. }
      specialize (H2 m' Hin).
      specialize (K1 b (or_introl eq_refl)). rewrite <- Hb in K1. lra.
  - destruct k1 as [| b k1]; cbn [app] in Heq.
    + injection Heq as Ha Hrest.
      assert (Hin : In m k2).
      { rewrite <- Hrest. apply in_or_app. right. left. reflexivity. }
      specialize (K2 m Hin).
      specialize (H1 a (or_introl eq_refl)). rewrite Ha in H1. lra.
    + injection Heq as _ Hrest.
      apply (IH (fun x Hx => H1 x (or_intror Hx)) k1 Hrest).
      intros x Hx. apply K1. right. exact Hx.
Qed.

End MaxKey.

Lemma first_max_ext {A : Type} (k1 k2 : A -> R) (l : list A) (m : A) :
  (forall x, k1 x = k2 x) -> first_max k1 l m -> first_max k2 l m.
Proof.
  intros Hext (l1 & l2 & Hl & H1 & H2). exists l1, l2.
  split; [exact Hl |]. split.
  - intros x Hx. rewrite <- !Hext. apply H1. exact Hx.
  - intros x Hx. rewrite <- !Hext. apply H2. exact Hx.
Qed.

(** C8. [get_governing] on the empty list returns the empty mapping and
    raises nothing; on a non-empty list it returns, under the keys
    'moment', 'shear' and 'reaction', the first case of the list that
    maximises [|M_max|], [V_max] and [max(R_left, R_right)]
    respectively. *)
Theorem get_governing_spec :
  get_governing [] = []
  /\ forall (r0 : LoadCase) (rest : list LoadCase),
       exists m s r,
         get_governing (r0 :: rest)
         = [ ("moment"%string, m); ("shear"%string, s);
             ("reaction"%string, r) ]
         /\ first_max (fun c => Rabs (M_max c)) (r0 :: rest) m
         /\ first_max V_max (r0 :: rest) s
         /\ first_max (fun c => Rmax (R_left c) (R_right c)) (r0 :: rest) r.
Proof.
  split; [reflexivity |].
  intros r0 rest. cbn [get_governing].
  eexists. eexists. eexists. split; [reflexivity |].
  split; [apply max_key_from_first_max |].
  split; [apply (max_key_from_first_max (fun r => V_max r)) |].
  apply (first_max_ext (fun r => max2 (R_left r) (R_right r))).
  - intros x. apply max2_Rmax.
  - apply max_key_from_first_max.
Qed.

(* ================================================================== *)
(** ** Deflection under two wheels *)
(* ================================================================== *)

(** At midspan the local function returns a thousand times the
    point-load deflection. *)
Lemma deflection_at_point_midspan (L_mm E I a_mm P_N : R) :
  6 * E * I * L_mm <> 0 ->
  deflection_at_point L_mm E I a_mm (L_mm / 2) P_N
  = Ok (point_load_midspan_deflection L_mm E I a_mm P_N * 1000).
Proof.
  intros Hden. unfold deflection_at_point, point_load_midspan_deflection.
  destruct (Rle_dec (L_mm / 2) a_mm) as [Hle | Hgt].
  - rewrite truediv_ok by exact Hden. cbn [bind]. reflexivity.
  - rewrite truediv_ok by exact Hden. cbn [bind].
    replace (L_mm - L_mm / 2) with (L_mm / 2) by lra. reflexivity.
Qed.

(** For two positive wheel loads on a beam of positive span and inertia,
    [calc_actual_deflection] places the first wheel at
    [L/2 - P2*wb/(P1+P2)] clamped to [[0, L - wb]] and returns a thousand
    times the sum of the two point-load deflections at midspan. *)
Lemma calc_actual_deflection_two_wheels (sec : Section) (P1 P2 L wb : R) :
  0 < P1 -> 0 < P2 -> 0 < L -> 0 < Ix sec ->
  let L_mm := L * 1000 in
  let wb_mm := wb * 1000 in
  let x1 := Rmax 0 (Rmin (L_mm / 2 - P2 * wb_mm / (P1 + P2)) (L_mm - wb_mm)) in
  calc_actual_deflection sec [P1; P2] L wb
  = Ok (Rabs
          (1000
           * (point_load_midspan_deflection L_mm E_STEEL (Ix sec) x1
                (P1 * 1000)
              + point_load_midspan_deflection L_mm E_STEEL (Ix sec)
                  (x1 + wb_mm) (P2 * 1000)))).
Proof.
  intros HP1 HP2 HL HI L_mm wb_mm x1.
  assert (Hden : 6 * E_STEEL * Ix sec * L_mm <> 0).
  { unfold E_STEEL, L_mm. apply Rgt_not_eq.
    repeat apply Rmult_lt_0_compat; lra. }
  unfold calc_actual_deflection.
  assert (HP : sum [P1; P2] = P1 + P2).
  { rewrite !sum_cons, sum_nil. lra. }
  rewrite HP.
  destruct (Rlt_dec 0 (P1 + P2)) as [_ | Hn]; [| lra].
  rewrite truediv_ok by lra. cbn [bind].
  rewrite min2_Rmin, max2_Rmax.
  fold L_mm wb_mm. fold x1.
  rewrite !deflection_at_point_midspan by exact Hden. cbn [bind].
  f_equal. f_equal. lra.
Qed.

(** For a number of wheels other than two the total load is taken as one
    load at midspan, and the value returned is a thousand times
    [P*L^3/(48*E*I)] (with [P] in newtons, lengths in millimetres). *)
Lemma calc_actual_deflection_other_count (sec : Section)
  (wheel_loads : list R) (L wb : R) :
  List.length wheel_loads <> 2%nat ->
  Ix sec <> 0 ->
  calc_actual_deflection sec wheel_loads L wb
  = Ok (Rabs (1000 * (sum wheel_loads * 1000 * (L * 1000) ^ 3
                      / (48 * E_STEEL * Ix sec)))).
Proof.
  intros Hlen HI.
  assert (Hden : 48 * E_STEEL * Ix sec <> 0).
  { unfold E_STEEL. intros H. apply HI.
    apply Rmult_integral in H. destruct H as [H | H]; [lra | exact H]. }
  unfold calc_actual_deflection.
  destruct wheel_loads as [| p1 [| p2 [| p3 rest]]];
    try (cbn [List.length] in Hlen; contradiction);
    rewrite truediv_ok by exact Hden; cbn [bind]; f_equal; f_equal; lra.
Qed.

(** C9, evaluated. For IPE 300 ([Ix = 83.6e6 mm^4]) on a span of 6 m under
    two wheels of 50 kN placed 2 m apart, the wheels stand at 2 m and 4 m
    and the two point-load deflections at midspan add up to about
    22.93 mm; [calc_actual_deflection] returns a thousand times that,
    about 22927. *)
Theorem calc_actual_deflection_ipe300_6m :
  exists v,
    calc_actual_deflection ipe300 [50; 50] 6 2 = Ok v
    /\ v = 1000
           * (point_load_midspan_deflection 6000 E_STEEL (Ix ipe300) 2000 50000
              + point_load_midspan_deflection 6000 E_STEEL (Ix ipe300) 4000
                  50000)
    /\ 22.92 < point_load_midspan_deflection 6000 E_STEEL (Ix ipe300) 2000 50000
               + point_load_midspan_deflection 6000 E_STEEL (Ix ipe300) 4000
                   50000 < 22.93
    /\ 22920 < v < 22930.
Proof.
  assert (Hx1 : Rmax 0 (Rmin (6 * 1000 / 2 - 50 * (2 * 1000) / (50 + 50))
                           (6 * 1000 - 2 * 1000)) = 2000).
  { rewrite Rmin_left by lra. rewrite Rmax_right by lra. lra. }
  assert (Hd1 : point_load_midspan_deflection 6000 E_STEEL (Ix ipe300) 2000
                  50000 = 14375 / 1254).
  { unfold point_load_midspan_deflection, E_STEEL. cbn [ipe300 Ix].
    destruct (Rle_dec (6000 / 2) 2000); [lra |]. lra. }
  assert (Hd2 : point_load_midspan_deflection 6000 E_STEEL (Ix ipe300) 4000
                  50000 = 14375 / 1254).
  { unfold point_load_midspan_deflection, E_STEEL. cbn [ipe300 Ix].
    destruct (Rle_dec (6000 / 2) 4000); [| lra]. lra. }
  eexists. split.
  - rewrite calc_actual_deflection_two_wheels
      by (try (cbn [ipe300 Ix]); lra).
    cbv zeta. rewrite Hx1.
    replace (6 * 1000) with 6000 by lra.
    replace (2000 + 2 * 1000) with 4000 by lra.
    replace (50 * 1000) with 50000 by lra.
    rewrite Rabs_right; [reflexivity |].
    rewrite Hd1, Hd2. clear Hx1 Hd1 Hd2. lra.
  - rewrite Hd1, Hd2. clear Hx1 Hd1 Hd2. repeat split; lra.
Qed.

(* ================================================================== *)
(** ** Critical cases when two cranes do not fit together *)
(* ================================================================== *)

(** [calc_wheel_loads] assigns the four calculated attributes only. *)
Lemma calc_wheel_loads_frame (c c' : CraneData) (loads : R * R) :
  calc_wheel_loads c = Ok (c', loads) ->
  exists a b w v, c' = set_loads c a b w v.
Proof.
  unfold calc_wheel_loads.
  destruct (use_direct_input c && Rpos_b (direct_max_wheel_load c)).
  - intros H. injection H as <- _. do 4 eexists. reflexivity.
  - intros H. repeat run_bind H. injection H as <- _.
    do 4 eexists. reflexivity.
Qed.

Lemma wheel_load_with_impact_frame (c c' : CraneData) (Pv_ : R) :
  wheel_load_with_impact c = Ok (c', Pv_) ->
  exists a b w v, c' = set_loads c a b w v.
Proof.
  unfold wheel_load_with_impact. intros H.
  destruct (calc_wheel_loads c) as [[c1 l] | e] eqn:Hc; cbn [bind] in H;
    [| discriminate H].
  injection H as <- _. apply (calc_wheel_loads_frame c c1 l Hc).
Qed.

(** Calling [wheel_load_with_impact] again returns the same load and
    leaves the crane as it is. *)
Lemma wheel_load_with_impact_again (c c' : CraneData) (Pv_ : R) :
  wheel_load_with_impact c = Ok (c', Pv_) ->
  wheel_load_with_impact c' = Ok (c', Pv_).
Proof.
  unfold wheel_load_with_impact. intros H.
  destruct (calc_wheel_loads c) as [[c1 l] | e] eqn:Hc; cbn [bind] in H;
    [| discriminate H].
  injection H as <- <-.
  rewrite (calc_wheel_loads_idempotent c c1 l Hc). cbn [bind]. reflexivity.
Qed.

Lemma wheel_load_with_impact_defined (c : CraneData) :
  crane_loads_defined c ->
  exists c' Pv_, wheel_load_with_impact c = Ok (c', Pv_).
Proof.
  intros [Hn Hmode].
  assert (Hn' : IZR (num_wheels c) <> 0) by (apply not_0_IZR; lia).
  unfold wheel_load_with_impact, calc_wheel_loads.
  destruct (use_direct_input c && Rpos_b (direct_max_wheel_load c)) eqn:Hd.
  - cbn [bind]. do 2 eexists. reflexivity.
  - destruct Hmode as [Hmode | Hspan]; [discriminate Hmode |].
    rewrite !(truediv_ok _ _ Hspan). cbn [bind].
    rewrite !(truediv_ok _ _ Hn'). cbn [bind].
    do 2 eexists. reflexivity.
Qed.

Lemma lateral_per_wheel_defined (c : CraneData) :
  (1 <= num_wheels c)%Z -> exists Ph_, lateral_per_wheel c = Ok Ph_.
Proof.
  intros Hn. unfold lateral_per_wheel.
  destruct (use_direct_input c && Rpos_b (direct_lateral_load c)).
  - eexists. reflexivity.
  - rewrite truediv_ok; [eexists; reflexivity |].
    apply not_0_IZR. lia.
Qed.

Lemma place_wheels_nonempty (cid n : Z) (wb p Pv_ Ph_ : R) :
  (1 <= n)%Z -> place_wheels cid n wb p Pv_ Ph_ <> [].
Proof.
  intros Hn. unfold place_wheels, range.
  destruct (Z.to_nat n) as [| k] eqn:Hk; [lia |].
  cbn [seq map]. discriminate.
Qed.

Lemma analyze_load_some (L : R) (ws : list WheelPos) :
  ws <> [] -> exists lc, analyze_load L ws = Some lc /\ wheels lc = ws.
Proof.
  intros Hne.
  destruct (analyze_load_reactions L ws Hne) as (lc & Hrun & Hw & _).
  exists lc. split; assumption.
Qed.

(** A crane that fits on the span contributes its two shear cases, after
    its moment case when the search found one. *)
Lemma single_crane_cases_fit (L : R) (c0 c : CraneData) (Pv_ : R)
  (results : list LoadCase) :
  wheel_load_with_impact c0 = Ok (c, Pv_) ->
  (1 <= num_wheels c)%Z ->
  crane_length c <= L ->
  exists (mcase : list LoadCase) (lcL lcR : LoadCase),
    single_crane_cases L c0 results = Ok (results ++ mcase ++ [lcL; lcR])
    /\ (forall lc, In lc mcase ->
          desc lc = CraneMaxM (crane_id c) (capacity_tonnes c))
    /\ desc lcL = CraneMaxVLeft (crane_id c) (capacity_tonnes c)
    /\ desc lcR = CraneMaxVRight (crane_id c) (capacity_tonnes c).
Proof.
  intros Hload Hn Hfit. unfold crane_length in Hfit.
  destruct (lateral_per_wheel_defined c Hn) as [Ph_ Hlat].
  unfold single_crane_cases. rewrite Hload. cbn [bind].
  rewrite Hlat. cbn [bind].
  destruct (Rlt_dec L (wheel_base c * IZR (num_wheels c - 1))) as [Hlt | _];
    [lra |].
  destruct (analyze_load_some L
              (place_wheels (crane_id c) (num_wheels c) (wheel_base c) 0.0
                 Pv_ Ph_)) as (lcL & HL & _).
  { apply place_wheels_nonempty. exact Hn. }
  destruct (analyze_load_some L
              (place_wheels (crane_id c) (num_wheels c) (wheel_base c)
                 (L - wheel_base c * IZR (num_wheels c - 1)) Pv_ Ph_))
    as (lcR & HR & _).
  { apply place_wheels_nonempty. exact Hn. }
  rewrite HL, HR. cbn [append_case].
  destruct (search_max_M L _ _) as [best |]; cbn [append_case].
  - exists [set_desc (CraneMaxM (crane_id c) (capacity_tonnes c)) best].
    do 2 eexists. split.
    + rewrite <- !app_assoc. cbn [app]. reflexivity.
    + cbn [set_desc desc]. repeat split.
      intros lc [<- | []]. reflexivity.
  - exists []. do 2 eexists. split.
    + rewrite <- !app_assoc. cbn [app]. reflexivity.
    + cbn [set_desc desc]. repeat split. intros lc [].
Qed.

(** The two-crane block adds nothing when the two cranes with the gap
    between them are longer than the span. *)
Lemma two_crane_cases_do_not_fit (L : R) (c1 c2 : CraneData) (Pv1 Pv2 : R)
  (results : list LoadCase) :
  wheel_load_with_impact c1 = Ok (c1, Pv1) ->
  wheel_load_with_impact c2 = Ok (c2, Pv2) ->
  (1 <= num_wheels c1)%Z ->
  (1 <= num_wheels c2)%Z ->
  L < crane_length c1 + (buffer_right c1 + buffer_left c2) + crane_length c2 ->
  two_crane_cases L [c1; c2] results = Ok results.
Proof.
  intros H1 H2 Hn1 Hn2 Hlong. unfold crane_length in Hlong.
  destruct (lateral_per_wheel_defined c1 Hn1) as [Ph1 Hlat1].
  destruct (lateral_per_wheel_defined c2 Hn2) as [Ph2 Hlat2].
  unfold two_crane_cases.
  rewrite H1. cbn [bind]. rewrite Hlat1. cbn [bind].
  rewrite H2. cbn [bind]. rewrite Hlat2. cbn [bind].
  destruct (Rle_dec _ L) as [Hle | _]; [lra | reflexivity].
Qed.

(** The three-crane block needs three cranes. *)
Lemma three_crane_cases_two (L : R) (c1 c2 : CraneData)
  (results : list LoadCase) :
  three_crane_cases L [c1; c2] results = Ok results.
Proof. reflexivity. Qed.

(* ================================================================== *)
(** ** The index searches of [analyze_load] *)
(* ================================================================== *)

Lemma insert_uniq_nonempty (x : R) (l : list R) : insert_uniq x l <> [].
Proof.
  destruct l as [| y l']; cbn [insert_uniq]; [discriminate |].
  destruct (Rlt_dec x y); [discriminate |].
  destruct (Req_dec_T x y); discriminate.
Qed.

(** The list of evaluation points always holds the left support. *)
Lemma eval_points_nonempty (L : R) (ws : list WheelPos) :
  eval_points L ws <> [].
Proof.
  unfold eval_points, sorted_set. cbn [app fold_right].
  apply insert_uniq_nonempty.
Qed.

(** On a non-empty list the index found is an index of the list, so the
    look-ups of [analyze_load] never leave the lists. *)
Lemma argmax_abs_in_range (xs : list R) :
  xs <> [] -> (argmax_abs xs < List.length xs)%nat.
Proof.
  intros Hne. unfold argmax_abs.
  destruct xs as [| x xs']; [contradiction |].
  cbn [List.length seq max_key].
  pose proof (max_key_from_first_max
                (fun i => Rabs (nth i (x :: xs') 0)) O
                (seq 1 (List.length xs'))) as Hfm.
  apply first_max_In in Hfm. destruct Hfm as [Hin _].
  change (O :: seq 1 (List.length xs')) with (seq 0 (S (List.length xs')))
    in Hin.
  apply in_seq in Hin. lia.
Qed.

(** The moment kept by [analyze_load] is the largest in magnitude among
    the moments at the evaluation points. *)
Lemma argmax_abs_dominates (xs : list R) (y : R) :
  In y xs -> Rabs y <= Rabs (nth (argmax_abs xs) xs 0).
Proof.
  intros Hy. unfold argmax_abs.
  destruct xs as [| x xs']; [contradiction |].
  cbn [List.length seq max_key].
  pose proof (max_key_from_first_max
                (fun i => Rabs (nth i (x :: xs') 0)) O
                (seq 1 (List.length xs'))) as Hfm.
  apply first_max_In in Hfm. destruct Hfm as [_ Hall].
  destruct (In_nth (x :: xs') y 0 Hy) as (i & Hi & Hnth).
  rewrite <- Hnth. apply Hall.
  change (O :: seq 1 (List.length xs')) with (seq 0 (S (List.length xs'))).
  apply in_seq. cbn [List.length] in Hi. lia.
Qed.

(* ================================================================== *)
(** ** The two deflection estimates compared *)
(* ================================================================== *)

(** For one wheel and a wheel base not shorter than the span both
    functions take the load at midspan; [calc_actual_deflection] returns
    a thousand times what [calc_defl] returns. *)
Lemma calc_actual_deflection_vs_calc_defl (sec : Section) (P L a : R) :
  0 < Ix sec -> 0 <= P -> 0 <= L -> L <= a ->
  exists d0,
    calc_defl sec P L a = Ok d0
    /\ calc_actual_deflection sec [P] L a = Ok (1000 * d0).
Proof.
  intros HI HP HL Ha.
  rewrite calc_actual_deflection_other_count;
    [| cbn [List.length]; discriminate | lra].
  unfold calc_defl.
  destruct (Rle_dec (Ix sec) 0) as [Hle | _]; [lra |].
  destruct (Rlt_dec (a * 1000) (L * 1000)) as [Hlt | _]; [lra |].
  eexists. split; [reflexivity |].
  rewrite sum_cons, sum_nil.
  replace (P + 0) with P by lra.
  rewrite Rabs_right; [reflexivity |].
  apply Rle_ge.
  assert (0 <= (L * 1000) ^ 3) by (apply pow_le; lra).
  assert (0 < 48 * E_STEEL * Ix sec).
  { unfold E_STEEL. apply Rmult_lt_0_compat; lra. }
  apply Rmult_le_pos; [lra |].
  apply Rmult_le_pos.
  - apply Rmult_le_pos; [lra | assumption].
  - left. apply Rinv_0_lt_compat. assumption.
Qed.

(* ================================================================== *)
(** ** Further properties of the crane wheel loads *)
(* ================================================================== *)

Lemma truediv_inv (x y q : R) :
  truediv x y = Ok q -> y <> 0 /\ q = x / y.
Proof.
  unfold truediv. destruct (Req_dec_T y 0) as [Hy | Hy]; intros H.
  - discriminate H.
  - injection H as <-. split; [exact Hy | reflexivity].
Qed.

Lemma truediv_raises (x y : R) (e : PyError) :
  truediv x y = Raise e -> y = 0 /\ e = ZeroDivisionError.
Proof.
  unfold truediv. destruct (Req_dec_T y 0) as [Hy | Hy]; intros H.
  - injection H as <-. split; [exact Hy | reflexivity].
  - discriminate H.
Qed.

(** What a successful call of [calc_wheel_loads] has assigned. *)
Lemma calc_wheel_loads_assigned (c c' : CraneData) (loads : R * R) :
  calc_wheel_loads c = Ok (c', loads) ->
  max_wheel_load c' * IZR (num_wheels c) = R_max c'
  /\ min_wheel_load c' * IZR (num_wheels c) = R_min c'
  /\ loads = (max_wheel_load c', min_wheel_load c')
  /\ c' = set_loads c (R_max c') (R_min c') (max_wheel_load c')
            (min_wheel_load c').
Proof.
  unfold calc_wheel_loads.
  destruct (use_direct_input c && Rpos_b (direct_max_wheel_load c)).
  - intros H. injection H as <- <-.
    cbn [set_loads R_max R_min max_wheel_load min_wheel_load].
    repeat split.
  - intros H.
    destruct (truediv (_ * (bridge_span c - _)) _) as [m1 |] eqn:H1;
      cbn [bind] in H; [| discriminate H].
    destruct (truediv (_ * min_hook_approach c) _) as [m2 |] eqn:H2;
      cbn [bind] in H; [| discriminate H].
    destruct (truediv (_ + m1) _) as [w1 |] eqn:H3; cbn [bind] in H;
      [| discriminate H].
    destruct (truediv (_ + m2) _) as [w2 |] eqn:H4; cbn [bind] in H;
      [| discriminate H].
    injection H as <- <-.
    apply truediv_inv in H3. destruct H3 as [Hn ->].
    apply truediv_inv in H4. destruct H4 as [_ ->].
    cbn [set_loads R_max R_min max_wheel_load min_wheel_load].
    repeat split; try reflexivity;
      field; repeat split; try lra; exact Hn.
Qed.

(** X2. Whenever [calc_wheel_loads] returns, the returned pair is the
    pair of wheel loads it has assigned and no input attribute of the
    crane has changed.  With direct input (and a positive maximum wheel
    load) the maximum wheel load is the one supplied and each rail
    reaction is its wheel load times the number of wheels; otherwise the
    number of wheels is not zero and each wheel load is its rail reaction
    divided by the number of wheels. *)
Theorem calc_wheel_loads_consistent (c c' : CraneData) (loads : R * R) :
  calc_wheel_loads c = Ok (c', loads) ->
  loads = (max_wheel_load c', min_wheel_load c')
  /\ c' = set_loads c (R_max c') (R_min c') (max_wheel_load c')
            (min_wheel_load c')
  /\ (use_direct_input c && Rpos_b (direct_max_wheel_load c) = true ->
      max_wheel_load c' = direct_max_wheel_load c
      /\ R_max c' = max_wheel_load c' * IZR (num_wheels c)
      /\ R_min c' = min_wheel_load c' * IZR (num_wheels c))
  /\ (use_direct_input c && Rpos_b (direct_max_wheel_load c) = false ->
      num_wheels c <> 0%Z
      /\ max_wheel_load c' = R_max c' / IZR (num_wheels c)
      /\ min_wheel_load c' = R_min c' / IZR (num_wheels c)).
Proof.
  unfold calc_wheel_loads.
  destruct (use_direct_input c && Rpos_b (direct_max_wheel_load c)).
  - intros H. injection H as <- <-.
    cbn [set_loads R_max R_min max_wheel_load min_wheel_load].
    split; [reflexivity |]. split; [reflexivity |].
    split; [intros _; repeat split | intros Hf; discriminate Hf].
  - intros H.
    destruct (truediv (_ * (bridge_span c - _)) _) as [m1 |] eqn:H1;
      cbn [bind] in H; [| discriminate H].
    destruct (truediv (_ * min_hook_approach c) _) as [m2 |] eqn:H2;
      cbn [bind] in H; [| discriminate H].
    destruct (truediv (_ + m1) _) as [w1 |] eqn:H3; cbn [bind] in H;
      [| discriminate H].
    destruct (truediv (_ + m2) _) as [w2 |] eqn:H4; cbn [bind] in H;
      [| discriminate H].
    injection H as <- <-.
    apply truediv_inv in H3. destruct H3 as [Hn ->].
    apply truediv_inv in H4. destruct H4 as [_ ->].
    cbn [set_loads R_max R_min max_wheel_load min_wheel_load].
    split; [reflexivity |]. split; [reflexivity |].
    split; [intros Hf; discriminate Hf |].
    intros _. split; [| split; reflexivity].
    intros Hz. apply Hn. rewrite Hz. reflexivity.
Qed.

Lemma calc_wheel_loads_consistent_witness :
  exists c' loads,
    calc_wheel_loads scenario1_crane = Ok (c', loads)
    /\ loads = (max_wheel_load c', min_wheel_load c')
    /\ c' = set_loads scenario1_crane (R_max c') (R_min c')
              (max_wheel_load c') (min_wheel_load c')
    /\ max_wheel_load c' = R_max c' / IZR (num_wheels scenario1_crane)
    /\ min_wheel_load c' = R_min c' / IZR (num_wheels scenario1_crane).
Proof.
  destruct (calc_wheel_loads_geometry scenario1_crane)
    as (c' & loads & Hrun & _).
  - reflexivity.
  - cbn [scenario1_crane bridge_span]. lra.
  - cbn [scenario1_crane num_wheels]. discriminate.
  - exists c', loads. split; [exact Hrun |].
    destruct (calc_wheel_loads_consistent scenario1_crane c' loads Hrun)
      as (Hl & Hf & _ & Hg).
    split; [exact Hl |]. split; [exact Hf |].
    destruct Hg as (_ & Hmax & Hmin); [reflexivity |].
    split; [exact Hmax | exact Hmin].
Defined.

(** X3. [calc_wheel_loads] raises exactly when the loads have to be
    derived from the geometry (no direct input with a positive maximum
    wheel load) and the bridge span or the number of wheels is zero; the
    exception is then [ZeroDivisionError].  In direct-input mode with a
    positive maximum wheel load it never raises. *)
Theorem calc_wheel_loads_raises (c : CraneData) :
  (use_direct_input c && Rpos_b (direct_max_wheel_load c) = false
   /\ (bridge_span c = 0 \/ num_wheels c = 0%Z)
   -> calc_wheel_loads c = Raise ZeroDivisionError)
  /\ (use_direct_input c && Rpos_b (direct_max_wheel_load c) = true
      \/ (bridge_span c <> 0 /\ num_wheels c <> 0%Z)
      -> exists c' loads, calc_wheel_loads c = Ok (c', loads)).
Proof.
  split.
  - intros [Hmode Hzero]. unfold calc_wheel_loads. rewrite Hmode.
    destruct (Req_dec_T (bridge_span c) 0) as [Hs | Hs].
    + rewrite Hs, truediv_zero. reflexivity.
    + destruct Hzero as [Hz | Hz]; [contradiction |].
      rewrite !(truediv_ok _ _ Hs). cbn [bind].
      rewrite Hz, truediv_zero. reflexivity.
  - intros [Hmode | [Hs Hn]].
    + unfold calc_wheel_loads. rewrite Hmode. do 2 eexists. reflexivity.
    + unfold calc_wheel_loads.
      destruct (use_direct_input c && Rpos_b (direct_max_wheel_load c)).
      * do 2 eexists. reflexivity.
      * assert (Hn' : IZR (num_wheels c) <> 0) by (apply not_0_IZR; exact Hn).
        rewrite !(truediv_ok _ _ Hs). cbn [bind].
        rewrite !(truediv_ok _ _ Hn'). cbn [bind].
        do 2 eexists. reflexivity.
Qed.

Lemma calc_wheel_loads_raises_witness :
  calc_wheel_loads zero_span_crane = Raise ZeroDivisionError
  /\ exists c' loads, calc_wheel_loads scenario1_crane = Ok (c', loads).
Proof.
  split.
  - apply (proj1 (calc_wheel_loads_raises zero_span_crane)).
    split; [reflexivity | left; reflexivity].
  - apply (proj2 (calc_wheel_loads_raises scenario1_crane)).
    right. split.
    + cbn [scenario1_crane bridge_span]. lra.
    + cbn [scenario1_crane num_wheels]. discriminate.
Defined.

(** X4. For a crane whose loads are defined, [get_load_summary] returns
    the reactions and wheel loads that [calc_wheel_loads] assigns and
    leaves the crane as one call of [calc_wheel_loads] leaves it; the
    values with impact are the static wheel loads times
    [1 + impact_v], and the longitudinal force is [impact_l] times the
    maximum reaction. *)
Theorem get_load_summary_consistent (c : CraneData) :
  crane_loads_defined c ->
  exists c' s loads,
    get_load_summary c = Ok (c', s)
    /\ calc_wheel_loads c = Ok (c', loads)
    /\ sum_R_max s = R_max c'
    /\ sum_R_min s = R_min c'
    /\ (max_wheel_static s, min_wheel_static s) = loads
    /\ max_wheel_impact s = max_wheel_static s * (1 + impact_v c)
    /\ min_wheel_impact s = min_wheel_static s * (1 + impact_v c)
    /\ longitudinal s = impact_l c * sum_R_max s.
Proof.
  intros Hd. pose proof Hd as [Hn _].
  destruct (wheel_load_with_impact_defined c Hd) as (c1 & Pv1 & Hw).
  unfold wheel_load_with_impact in Hw.
  destruct (calc_wheel_loads c) as [[c' loads] | e] eqn:Hc; cbn [bind] in Hw;
    [| discriminate Hw].
  clear Hw c1 Pv1.
  pose proof (calc_wheel_loads_idempotent c c' loads Hc) as Hc'.
  destruct (calc_wheel_loads_assigned c c' loads Hc)
    as (_ & _ & Hloads & Hframe).
  assert (Hn' : (1 <= num_wheels c')%Z) by (rewrite Hframe; exact Hn).
  destruct (lateral_per_wheel_defined c' Hn') as [Ph_ Hlat].
  exists c'. eexists. exists loads.
  split.
  - unfold get_load_summary, wheel_load_with_impact,
      min_wheel_load_with_impact, longitudinal_force.
    rewrite Hc. cbn [bind].
    rewrite Hc'. cbn [bind]. rewrite Hc'. cbn [bind].
    rewrite Hlat. cbn [bind]. rewrite Hc'. cbn [bind]. reflexivity.
  - cbn [sum_R_max sum_R_min max_wheel_static min_wheel_static
         max_wheel_impact min_wheel_impact longitudinal].
    assert (Hv : impact_v c' = impact_v c) by (rewrite Hframe; reflexivity).
    assert (Hl : impact_l c' = impact_l c) by (rewrite Hframe; reflexivity).
    rewrite Hv, Hl. rewrite Hloads. repeat split.
Qed.

Lemma get_load_summary_consistent_witness :
  exists c' s loads,
    get_load_summary scenario1_crane = Ok (c', s)
    /\ calc_wheel_loads scenario1_crane = Ok (c', loads)
    /\ sum_R_max s = R_max c'
    /\ sum_R_min s = R_min c'
    /\ (max_wheel_static s, min_wheel_static s) = loads
    /\ max_wheel_impact s
       = max_wheel_static s * (1 + impact_v scenario1_crane)
    /\ min_wheel_impact s
       = min_wheel_static s * (1 + impact_v scenario1_crane)
    /\ longitudinal s = impact_l scenario1_crane * sum_R_max s.
Proof.
  apply (get_load_summary_consistent scenario1_crane).
  split; [cbn [scenario1_crane num_wheels]; lia |].
  right. cbn [scenario1_crane bridge_span]. lra.
Defined.

(* ================================================================== *)
(** ** Further properties of the section properties *)
(* ================================================================== *)

(** X5. [calc_props] reads the plate sizes and cap data only: applied to
    its own result it returns that result again. *)
Theorem calc_props_idempotent (s s' : Section) :
  calc_props s = Ok s' -> calc_props s' = Ok s'.
Proof.
  unfold calc_props. intros H.
  repeat run_bind H.
  injection H as <-.
  cbn [name sec_type d bf_top tf_top bf_bot tf_bot tw hw has_cap cap_name
       cap_A cap_Iy cap_d cap_cy].
  rewrite E. cbn [bind]. rewrite E0. cbn [bind]. rewrite E1. cbn [bind].
  rewrite E2. cbn [bind]. rewrite E3. cbn [bind]. reflexivity.
Qed.

Lemma calc_props_idempotent_witness :
  exists s', calc_props default_built_up = Ok s' /\ calc_props s' = Ok s'.
Proof.
  destruct (calc_props_total default_built_up) as [s' Hs'];
    try (cbn [default_built_up bf_top tf_top bf_bot tf_bot tw hw cap_Iy]; lra).
  exists s'. split; [exact Hs' |].
  exact (calc_props_idempotent default_built_up s' Hs').
Defined.

Lemma quotient_bounds (N m B : R) :
  0 < m -> 0 <= N -> N <= B * m -> 0 <= N / m <= B.
Proof.
  intros Hm HN HB. split.
  - apply Rmult_le_pos; [exact HN |]. left. apply Rinv_0_lt_compat. exact Hm.
  - apply (Rmult_le_reg_r m); [exact Hm |].
    replace (N / m * m) with N by (field; lra). exact HB.
Qed.

Lemma weighted_term_bounds (a y B : R) :
  0 <= a -> 0 <= y -> y <= B -> 0 <= a * y /\ a * y <= a * B.
Proof.
  intros Ha Hy HB. split.
  - apply Rmult_le_pos; assumption.
  - apply Rmult_le_compat_l; assumption.
Qed.

(** X6. On plates of non-negative sizes, with a cap channel (if any)
    whose centroid is not below the bottom fibre, [calc_props] returns
    and the centroid it assigns lies between the bottom fibre and the
    higher of the top of the plates and the centroid of the cap. *)
Theorem calc_props_centroid_within_depth (s : Section) :
  0 <= bf_top s -> 0 <= tf_top s -> 0 <= bf_bot s -> 0 <= tf_bot s ->
  0 <= tw s -> 0 <= hw s -> 0 <= cap_Iy s -> 0 <= d s + cap_cy s ->
  exists s',
    calc_props s = Ok s'
    /\ 0 <= y_bar s'
       <= Rmax (tf_bot s + hw s + tf_top s) (d s + cap_cy s).
Proof.
  intros Hbt Htt Hbb Htb Htw Hhw Hci Hcap.
  destruct (calc_props_total s Hbt Htt Hbb Htb Htw Hhw Hci) as [s' Hs'].
  exists s'. split; [exact Hs' |].
  set (B := Rmax (tf_bot s + hw s + tf_top s) (d s + cap_cy s)).
  assert (HB1 : tf_bot s + hw s + tf_top s <= B) by apply Rmax_l.
  assert (HB2 : d s + cap_cy s <= B) by apply Rmax_r.
  assert (Atf : 0 <= bf_top s * tf_top s) by (apply Rmult_le_pos; assumption).
  assert (Abf : 0 <= bf_bot s * tf_bot s) by (apply Rmult_le_pos; assumption).
  assert (Aw : 0 <= hw s * tw s) by (apply Rmult_le_pos; assumption).
  destruct (weighted_term_bounds (bf_top s * tf_top s)
              (tf_bot s + hw s + tf_top s / 2) B) as [T1 T1'];
    [assumption | lra | lra |].
  destruct (weighted_term_bounds (bf_bot s * tf_bot s) (tf_bot s / 2) B)
    as [T2 T2']; [assumption | lra | lra |].
  destruct (weighted_term_bounds (hw s * tw s) (tf_bot s + hw s / 2) B)
    as [T3 T3']; [assumption | lra | lra |].
  unfold calc_props in Hs'.
  repeat run_bind Hs'. injection Hs' as <-. cbn [y_bar].
  destruct (has_cap s && Rpos_b (cap_A s)) eqn:Hc.
  - assert (HcA : 0 < cap_A s).
    { apply andb_true_iff in Hc. destruct Hc as [_ Hc]. unfold Rpos_b in Hc.
      destruct (Rlt_dec 0 (cap_A s)); [assumption | discriminate]. }
    apply truediv_inv in E. destruct E as [_ ->].
    destruct (weighted_term_bounds (cap_A s) (d s + cap_cy s) B)
      as [T4 T4']; [lra | lra | lra |].
    apply quotient_bounds; lra.
  - injection E as <-.
    pose proof (max2_ge_l (bf_top s * tf_top s + bf_bot s * tf_bot s
                           + hw s * tw s) 1) as Hm1.
    pose proof (max2_one_pos (bf_top s * tf_top s + bf_bot s * tf_bot s
                              + hw s * tw s)) as Hm2.
    assert (HBpos : 0 <= B) by lra.
    apply quotient_bounds; [exact Hm2 | lra |].
    apply Rle_trans
      with (B * (bf_top s * tf_top s + bf_bot s * tf_bot s + hw s * tw s));
      [lra |].
    apply Rmult_le_compat_l; assumption.
Qed.

Lemma calc_props_centroid_within_depth_witness :
  exists s',
    calc_props default_built_up = Ok s'
    /\ 0 <= y_bar s'
       <= Rmax (tf_bot default_built_up + hw default_built_up
                + tf_top default_built_up)
            (d default_built_up + cap_cy default_built_up).
Proof.
  apply (calc_props_centroid_within_depth default_built_up);
    cbn [default_built_up bf_top tf_top bf_bot tf_bot tw hw cap_Iy d cap_cy];
    lra.
Defined.

(* ================================================================== *)
(** ** Further properties of [analyze_load] *)
(* ================================================================== *)

Lemma insert_uniq_In (x y : R) (l : list R) :
  In y (insert_uniq x l) <-> y = x \/ In y l.
Proof.
  induction l as [| z l' IH]; cbn [insert_uniq].
  - cbn [In]. split; intros [H | H]; auto.
  - destruct (Rlt_dec x z) as [Hlt | Hge].
    + cbn [In]. split; intros [H | H]; auto.
    + destruct (Req_dec_T x z) as [Heq | Hne].
      * cbn [In]. split.
        -- intros H. right. exact H.
        -- intros [H | H]; [left; congruence | exact H].
      * cbn [In]. rewrite IH. tauto.
Qed.

Lemma sorted_set_In (y : R) (l : list R) :
  In y (sorted_set l) <-> In y l.
Proof.
  unfold sorted_set. induction l as [| x l' IH]; cbn [fold_right].
  - reflexivity.
  - rewrite insert_uniq_In, IH. cbn [In]. split; intros [H | H]; auto.
Qed.

Lemma insert_uniq_increasing (x : R) (l : list R) :
  strictly_increasing l -> strictly_increasing (insert_uniq x l).
Proof.
  induction l as [| z l' IH]; intros Hl; cbn [insert_uniq].
  - cbn. auto.
  - destruct (Rlt_dec x z) as [Hlt | Hge].
    + split; [exact Hlt | exact Hl].
    + destruct (Req_dec_T x z) as [Heq | Hne]; [exact Hl |].
      destruct Hl as [Hhead Htail]. specialize (IH Htail).
      split; [| exact IH].
      destruct l' as [| u l'']; cbn [insert_uniq].
      * lra.
      * destruct (Rlt_dec x u); [lra |].
        destruct (Req_dec_T x u); exact Hhead.
Qed.

Lemma sorted_set_increasing (l : list R) : strictly_increasing (sorted_set l).
Proof.
  unfold sorted_set. induction l as [| x l' IH]; cbn [fold_right].
  - exact I.
  - apply insert_uniq_increasing. exact IH.
Qed.

(** X8. The evaluation points of a case are in strictly ascending order
    without repetition; they are the two supports, the wheel positions
    and the hundredths of the span, and nothing else; the case holds one
    moment and one shear per point. *)
Theorem analyze_load_positions (L : R) (ws : list WheelPos) (lc : LoadCase) :
  analyze_load L ws = Some lc ->
  strictly_increasing (positions lc)
  /\ (forall x,
        In x (positions lc)
        <-> x = 0 \/ x = L
            \/ (exists w, In w ws /\ x = pos w)
            \/ (exists i, (0 <= i <= 100)%Z /\ x = IZR i * L / 100))
  /\ List.length (moments lc) = List.length (positions lc)
  /\ List.length (shears lc) = List.length (positions lc).
Proof.
  intros H. unfold analyze_load in H.
  destruct ws as [| w0 ws0]; [discriminate H |].
  injection H as <-. cbn [positions moments shears].
  split; [apply sorted_set_increasing |].
  split; [| split; apply length_map].
  intros x. unfold eval_points. rewrite sorted_set_In.
  rewrite !in_app_iff. cbn [In]. rewrite !in_map_iff.
  split.
  - intros [[H | []] | [(w & Hw & Hin) | [[H | []] | (i & Hi & Hin)]]].
    + left. symmetry. exact H.
    + right. right. left. exists w. split; [exact Hin | symmetry; exact Hw].
    + right. left. symmetry. exact H.
    + right. right. right. exists i. split; [| symmetry; exact Hi].
      unfold range in Hin. apply in_map_iff in Hin.
      destruct Hin as (k & <- & Hk). apply in_seq in Hk. lia.
  - intros [H | [H | [(w & Hin & Hw) | (i & Hi & Hx)]]].
    + left. left. symmetry. exact H.
    + right. right. left. left. symmetry. exact H.
    + right. left. exists w. split; [symmetry; exact Hw | exact Hin].
    + right. right. right. exists i. split; [symmetry; exact Hx |].
      unfold range. apply in_map_iff. exists (Z.to_nat i).
      split; [lia |]. apply in_seq. lia.
Qed.

Lemma analyze_load_positions_witness :
  exists lc,
    analyze_load 10 two_wheels_10m = Some lc
    /\ strictly_increasing (positions lc)
    /\ (forall x,
          In x (positions lc)
          <-> x = 0 \/ x = 10
              \/ (exists w, In w two_wheels_10m /\ x = pos w)
              \/ (exists i, (0 <= i <= 100)%Z /\ x = IZR i * 10 / 100))
    /\ List.length (moments lc) = List.length (positions lc)
    /\ List.length (shears lc) = List.length (positions lc).
Proof.
  destruct (analyze_load_some 10 two_wheels_10m) as (lc & Hrun & _).
  - unfold two_wheels_10m. discriminate.
  - exists lc. split; [exact Hrun |].
    exact (analyze_load_positions 10 two_wheels_10m lc Hrun).
Defined.

(** X9. The moment kept in a case is one of the moments at the
    evaluation points, the one at the position kept with it, and no
    moment at an evaluation point is larger in magnitude; the shear kept
    is the magnitude of the shear at the position kept with it, and no
    shear at an evaluation point is larger in magnitude. *)
Theorem analyze_load_extremes (L : R) (ws : list WheelPos) (lc : LoadCase) :
  analyze_load L ws = Some lc ->
  In (M_pos lc) (positions lc)
  /\ M_max lc = moment_at (R_left lc) ws (M_pos lc)
  /\ (forall m, In m (moments lc) -> Rabs m <= Rabs (M_max lc))
  /\ In (V_pos lc) (positions lc)
  /\ V_max lc = Rabs (shear_at (R_left lc) ws (V_pos lc))
  /\ (forall v, In v (shears lc) -> Rabs v <= V_max lc).
Proof.
  intros H. unfold analyze_load in H.
  destruct ws as [| w0 ws0]; [discriminate H |].
  injection H as <-.
  cbn [positions moments shears M_pos M_max V_pos V_max R_left].
  set (ws := w0 :: ws0).
  match goal with
  | |- context [map (moment_at ?r ws) _] => set (R_l := r)
  end.
  set (pts := eval_points L ws).
  assert (Hne : pts <> []) by apply eval_points_nonempty.
  assert (HM : map (moment_at R_l ws) pts <> []).
  { intros Hnil. apply map_eq_nil in Hnil. contradiction. }
  assert (HV : map (shear_at R_l ws) pts <> []).
  { intros Hnil. apply map_eq_nil in Hnil. contradiction. }
  pose proof (argmax_abs_in_range _ HM) as Hm. rewrite length_map in Hm.
  pose proof (argmax_abs_in_range _ HV) as Hv. rewrite length_map in Hv.
  split; [apply nth_In; exact Hm |].
  split.
  { rewrite (nth_indep _ 0 (moment_at R_l ws 0))
      by (rewrite length_map; exact Hm).
    apply map_nth. }
  split; [intros m Hin; apply argmax_abs_dominates; exact Hin |].
  split; [apply nth_In; exact Hv |].
  split.
  { rewrite (nth_indep _ 0 (shear_at R_l ws 0))
      by (rewrite length_map; exact Hv).
    rewrite map_nth. reflexivity. }
  intros v Hin. apply argmax_abs_dominates. exact Hin.
Qed.

Lemma analyze_load_extremes_witness :
  exists lc,
    analyze_load 10 two_wheels_10m = Some lc
    /\ In (M_pos lc) (positions lc)
    /\ M_max lc = moment_at (R_left lc) two_wheels_10m (M_pos lc)
    /\ (forall m, In m (moments lc) -> Rabs m <= Rabs (M_max lc))
    /\ In (V_pos lc) (positions lc)
    /\ V_max lc = Rabs (shear_at (R_left lc) two_wheels_10m (V_pos lc))
    /\ (forall v, In v (shears lc) -> Rabs v <= V_max lc).
Proof.
  destruct (analyze_load_some 10 two_wheels_10m) as (lc & Hrun & _).
  - unfold two_wheels_10m. discriminate.
  - exists lc. split; [exact Hrun |].
    exact (analyze_load_extremes 10 two_wheels_10m lc Hrun).
Defined.

(** The contents of the case that [analyze_load] builds. *)
Lemma analyze_load_contents (L : R) (ws : list WheelPos) (lc : LoadCase) :
  analyze_load L ws = Some lc ->
  positions lc = eval_points L ws
  /\ moments lc = map (moment_at (R_left lc) ws) (positions lc)
  /\ shears lc = map (shear_at (R_left lc) ws) (positions lc)
  /\ M_max lc = nth (argmax_abs (moments lc)) (moments lc) 0
  /\ V_max lc = Rabs (nth (argmax_abs (shears lc)) (shears lc) 0).
Proof.
  intros H. unfold analyze_load in H.
  destruct ws as [| w0 ws0]; [discriminate H |].
  injection H as <-.
  cbn [positions moments shears M_max V_max R_left].
  repeat split.
Qed.

(* ================================================================== *)
(** ** Further properties of [find_critical] *)
(* ================================================================== *)

(** The only exception of the crane methods is [ZeroDivisionError]. *)
Lemma calc_wheel_loads_error (c : CraneData) (e : PyError) :
  calc_wheel_loads c = Raise e -> e = ZeroDivisionError.
Proof.
  unfold calc_wheel_loads.
  destruct (use_direct_input c && Rpos_b (direct_max_wheel_load c));
    [discriminate |].
  intros H.
  repeat match type of H with
         | bind ?t _ = Raise _ =>
             let E := fresh "E" in
             destruct t as [? | ?] eqn:E; cbn [bind] in H;
             [| injection H as <-; apply truediv_raises in E; apply E]
         end.
  discriminate H.
Qed.

Lemma wheel_load_with_impact_error (c : CraneData) (e : PyError) :
  wheel_load_with_impact c = Raise e -> e = ZeroDivisionError.
Proof.
  unfold wheel_load_with_impact. intros H.
  destruct (calc_wheel_loads c) as [[c1 l] | e1] eqn:Hc; cbn [bind] in H.
  - discriminate H.
  - injection H as <-. apply (calc_wheel_loads_error c e1 Hc).
Qed.

Lemma wheel_load_with_impact_zero_span (c : CraneData) :
  use_direct_input c && Rpos_b (direct_max_wheel_load c) = false ->
  bridge_span c = 0 ->
  wheel_load_with_impact c = Raise ZeroDivisionError.
Proof.
  intros Hmode Hs. unfold wheel_load_with_impact, calc_wheel_loads.
  rewrite Hmode, Hs, truediv_zero. reflexivity.
Qed.

Lemma mapM_raises {A B : Type} (f : A -> res B) (l : list A) (e0 : PyError) :
  (forall x e, f x = Raise e -> e = e0) ->
  Exists (fun x => exists e, f x = Raise e) l ->
  mapM f l = Raise e0.
Proof.
  intros Honly. induction 1 as [x l' [e He] | x l' _ IH]; cbn [mapM].
  - rewrite He. cbn [bind]. f_equal. apply (Honly x e He).
  - destruct (f x) as [y | e] eqn:Hx; cbn [bind].
    + rewrite IH. reflexivity.
    + f_equal. apply (Honly x e Hx).
Qed.

(** X12. If any crane of the list has to derive its loads from a bridge
    of zero span, [find_critical] raises [ZeroDivisionError], whatever
    the span of the beam and the other cranes are. *)
Theorem find_critical_zero_bridge_span (L : R) (cranes : list CraneData) :
  Exists (fun c =>
            use_direct_input c && Rpos_b (direct_max_wheel_load c) = false
            /\ bridge_span c = 0) cranes ->
  find_critical L cranes = Raise ZeroDivisionError.
Proof.
  intros Hex. unfold find_critical.
  rewrite (mapM_raises wheel_load_with_impact cranes ZeroDivisionError).
  - reflexivity.
  - exact wheel_load_with_impact_error.
  - apply Exists_exists in Hex. destruct Hex as (c & Hin & Hmode & Hs).
    apply Exists_exists. exists c. split; [exact Hin |].
    exists ZeroDivisionError.
    apply wheel_load_with_impact_zero_span; assumption.
Qed.

Lemma find_critical_zero_bridge_span_witness :
  find_critical 20 [scenario1_crane; zero_span_crane]
  = Raise ZeroDivisionError.
Proof.
  apply (find_critical_zero_bridge_span 20 [scenario1_crane; zero_span_crane]).
  apply Exists_cons_tl. apply Exists_cons_hd.
  split; reflexivity.
Defined.

Lemma mapM_defined {A B : Type} (f : A -> res B) (l : list A) :
  Forall (fun x => exists y, f x = Ok y) l ->
  exists ys, mapM f l = Ok ys /\ Forall2 (fun x y => f x = Ok y) l ys.
Proof.
  induction 1 as [| x l' [y Hy] _ (ys & Hys & HF)]; cbn [mapM].
  - exists []. split; [reflexivity | constructor].
  - exists (y :: ys). rewrite Hy. cbn [bind]. rewrite Hys. cbn [bind].
    split; [reflexivity | constructor; assumption].
Qed.

Lemma Forall2_transfer {A B : Type} (Rel : A -> B -> Prop)
  (P : A -> Prop) (Q : B -> Prop) (l : list A) (l' : list B) :
  (forall x y, Rel x y -> P x -> Q y) ->
  Forall2 Rel l l' -> Forall P l -> Forall Q l'.
Proof.
  intros Himp. induction 1 as [| x y l l' Hxy _ IH]; intros HP.
  - constructor.
  - inversion HP as [| ? ? Hx Hl]; subst.
    constructor; [apply (Himp x y Hxy Hx) | apply IH; exact Hl].
Qed.

Lemma single_crane_cases_skip (L : R) (c : CraneData)
  (results : list LoadCase) :
  too_long_refreshed L c -> single_crane_cases L c results = Ok results.
Proof.
  intros ([Pv_ Hw] & Hn & Hlong & _). unfold crane_length in Hlong.
  destruct (lateral_per_wheel_defined c Hn) as [Ph_ Hlat].
  unfold single_crane_cases. rewrite Hw. cbn [bind]. rewrite Hlat. cbn [bind].
  destruct (Rlt_dec L _) as [_ | Hn']; [reflexivity | contradiction].
Qed.

Lemma single_crane_loop_skip (L : R) (cs : list CraneData)
  (results : list LoadCase) :
  Forall (too_long_refreshed L) cs ->
  fold_left (fun acc c => results <- acc ;; single_crane_cases L c results)
    cs (Ok results) = Ok results.
Proof.
  induction 1 as [| c cs' Hc _ IH]; cbn [fold_left bind].
  - reflexivity.
  - rewrite (single_crane_cases_skip L c results Hc). exact IH.
Qed.

Lemma two_crane_cases_skip (L : R) (cs : list CraneData)
  (results : list LoadCase) :
  0 <= L ->
  Forall (too_long_refreshed L) cs ->
  two_crane_cases L cs results = Ok results.
Proof.
  intros HL Hcs.
  destruct cs as [| c1 [| c2 rest]]; try reflexivity.
  inversion Hcs as [| ? ? H1 Hcs']; subst.
  inversion Hcs' as [| ? ? H2 _]; subst.
  destruct H1 as ([Pv1 Hw1] & Hn1 & Hlong1 & _ & Hbr1).
  destruct H2 as ([Pv2 Hw2] & Hn2 & Hlong2 & Hbl2 & _).
  unfold crane_length in Hlong1, Hlong2.
  destruct (lateral_per_wheel_defined c1 Hn1) as [Ph1 Hlat1].
  destruct (lateral_per_wheel_defined c2 Hn2) as [Ph2 Hlat2].
  unfold two_crane_cases.
  rewrite Hw1. cbn [bind]. rewrite Hlat1. cbn [bind].
  rewrite Hw2. cbn [bind]. rewrite Hlat2. cbn [bind].
  destruct (Rle_dec _ L) as [Hle | _]; [lra | reflexivity].
Qed.

Lemma three_crane_cases_skip (L : R) (cs : list CraneData)
  (results : list LoadCase) :
  0 <= L ->
  Forall (too_long_refreshed L) cs ->
  three_crane_cases L cs results = Ok results.
Proof.
  intros HL Hcs.
  destruct cs as [| c1 [| c2 [| c3 rest]]]; try reflexivity.
  inversion Hcs as [| ? ? H1 Hcs']; subst.
  inversion Hcs' as [| ? ? H2 Hcs'']; subst.
  inversion Hcs'' as [| ? ? H3 _]; subst.
  destruct H1 as ([Pv1 Hw1] & Hn1 & Hlong1 & _ & Hbr1).
  destruct H2 as ([Pv2 Hw2] & Hn2 & Hlong2 & Hbl2 & Hbr2).
  destruct H3 as ([Pv3 Hw3] & Hn3 & Hlong3 & Hbl3 & _).
  unfold crane_length in Hlong1, Hlong2, Hlong3.
  destruct (lateral_per_wheel_defined c1 Hn1) as [Ph1 Hlat1].
  destruct (lateral_per_wheel_defined c2 Hn2) as [Ph2 Hlat2].
  destruct (lateral_per_wheel_defined c3 Hn3) as [Ph3 Hlat3].
  unfold three_crane_cases.
  rewrite Hw1. cbn [bind]. rewrite Hlat1. cbn [bind].
  rewrite Hw2. cbn [bind]. rewrite Hlat2. cbn [bind].
  rewrite Hw3. cbn [bind]. rewrite Hlat3. cbn [bind].
  destruct (Rle_dec _ L) as [Hle | _]; [lra | reflexivity].
Qed.

(** What the initial sort of [find_critical] leaves of a crane that is
    longer than the span. *)
Lemma too_long_after_refresh (L : R) (c : CraneData)
  (k : CraneData * R) :
  wheel_load_with_impact c = Ok k ->
  crane_loads_defined c /\ L < crane_length c
  /\ 0 <= buffer_left c /\ 0 <= buffer_right c ->
  too_long_refreshed L (fst k).
Proof.
  destruct k as [c' Pv_]. intros Hw ([Hn _] & Hlong & Hbl & Hbr). cbn [fst].
  destruct (wheel_load_with_impact_frame c c' Pv_ Hw)
    as (a & b & w & v & ->).
  split.
  - exists Pv_. apply (wheel_load_with_impact_again c _ Pv_ Hw).
  - unfold crane_length. cbn [set_loads num_wheels wheel_base buffer_left
                              buffer_right].
    repeat split; assumption.
Qed.

(** X13. On a span that is not negative, if every crane of the list (its
    loads being defined, its buffer distances not negative) is longer
    than the span, [find_critical] returns no case at all, and
    [get_governing] returns the empty mapping for its result. *)
Theorem find_critical_no_crane_fits (L : R) (cranes : list CraneData) :
  0 <= L ->
  Forall (fun c =>
            crane_loads_defined c /\ L < crane_length c
            /\ 0 <= buffer_left c /\ 0 <= buffer_right c) cranes ->
  find_critical L cranes = Ok []
  /\ (results <- find_critical L cranes ;; Ok (get_governing results))
     = Ok [].
Proof.
  intros HL Hall.
  assert (Hrun : find_critical L cranes = Ok []).
  { destruct (mapM_defined wheel_load_with_impact cranes)
      as (keyed & Hkeyed & HF2).
    { apply Forall_forall. intros c Hin.
      rewrite Forall_forall in Hall. destruct (Hall c Hin) as (Hd & _).
      destruct (wheel_load_with_impact_defined c Hd) as (c' & Pv_ & Hw).
      exists (c', Pv_). exact Hw. }
    assert (Hgood : Forall (too_long_refreshed L) (map fst keyed)).
    { apply Forall_map.
      apply (Forall2_transfer _ _ _ cranes keyed
               (too_long_after_refresh L) HF2 Hall). }
    unfold find_critical. rewrite Hkeyed. cbn [bind].
    rewrite (single_crane_loop_skip L _ [] Hgood). cbn [bind].
    rewrite (two_crane_cases_skip L _ [] HL Hgood). cbn [bind].
    apply (three_crane_cases_skip L _ [] HL Hgood). }
  split; [exact Hrun |]. rewrite Hrun. reflexivity.
Qed.

Lemma find_critical_no_crane_fits_witness :
  find_critical 2 [long_crane] = Ok []
  /\ (results <- find_critical 2 [long_crane] ;; Ok (get_governing results))
     = Ok [].
Proof.
  apply (find_critical_no_crane_fits 2 [long_crane]).
  - lra.
  - constructor; [| constructor].
    split.
    + split; [cbn [long_crane num_wheels]; lia |].
      right. cbn [long_crane bridge_span]. lra.
    + unfold crane_length.
      cbn [long_crane wheel_base num_wheels buffer_left buffer_right].
      change (IZR (2 - 1)) with 1. repeat split; lra.
Defined.

(** A search that only ever replaces its best case by the analysis of
    one of the placements it tries returns such an analysis. *)
Lemma search_origin (L : R) (place : R -> list WheelPos)
  (step : R * option LoadCase -> R -> R * option LoadCase) :
  (forall st p c,
     snd (step st p) = Some c ->
     snd st = Some c \/ analyze_load L (place p) = Some c) ->
  forall (ps : list R) (st : R * option LoadCase) (c : LoadCase),
    snd (fold_left step ps st) = Some c ->
    snd st = Some c
    \/ exists p, In p ps /\ analyze_load L (place p) = Some c.
Proof.
  intros Hstep. induction ps as [| p ps' IH]; intros st c H; cbn [fold_left] in H.
  - left. exact H.
  - destruct (IH _ _ H) as [Hst | (q & Hq & Hc)].
    + destruct (Hstep _ _ _ Hst) as [Hst' | Hc].
      * left. exact Hst'.
      * right. exists p. split; [left; reflexivity | exact Hc].
    + right. exists q. split; [right; exact Hq | exact Hc].
Qed.

Lemma keep_max_M_origin (L : R) (st : R * option LoadCase)
  (ws : list WheelPos) (c : LoadCase) :
  snd (keep_max_M L st ws) = Some c ->
  snd st = Some c \/ analyze_load L ws = Some c.
Proof.
  unfold keep_max_M. destruct (analyze_load L ws) as [case |].
  - destruct (Rlt_dec _ _); cbn [snd]; intros H.
    + right. exact H.
    + left. exact H.
  - intros H. left. exact H.
Qed.

Lemma keep_max_R_origin (L : R) (st : R * option LoadCase)
  (ws : list WheelPos) (c : LoadCase) :
  snd (keep_max_R L st ws) = Some c ->
  snd st = Some c \/ analyze_load L ws = Some c.
Proof.
  unfold keep_max_R. destruct (analyze_load L ws) as [case |].
  - cbv zeta. destruct (Rlt_dec _ _); cbn [snd]; intros H.
    + right. exact H.
    + left. exact H.
  - intros H. left. exact H.
Qed.

Lemma search_max_M_origin (L : R) (place : R -> list WheelPos)
  (ps : list R) (c : LoadCase) :
  search_max_M L place ps = Some c ->
  exists p, In p ps /\ analyze_load L (place p) = Some c.
Proof.
  unfold search_max_M. intros H.
  destruct (search_origin L place
              (fun st p => keep_max_M L st (place p))
              (fun st p c0 => keep_max_M_origin L st (place p) c0)
              ps (0, None) c H) as [Hnone | Hex].
  - discriminate Hnone.
  - exact Hex.
Qed.

Lemma append_case_analysed (L : R) (results : list LoadCase) (dsc : Desc)
  (case : option LoadCase) :
  Forall (analysed_case L) results ->
  dsc <> DescNone ->
  (forall c, case = Some c -> exists ws, analyze_load L ws = Some c) ->
  Forall (analysed_case L) (append_case results dsc case).
Proof.
  intros Hres Hd Hcase. destruct case as [c |]; cbn [append_case].
  - apply Forall_app. split; [exact Hres |].
    constructor; [| constructor].
    destruct (Hcase c eq_refl) as [ws Hws].
    exists ws, c, dsc. repeat split; assumption.
  - exact Hres.
Qed.

Ltac case_origin :=
  match goal with
  | |- forall c, analyze_load _ ?ws = Some c -> _ =>
      let c := fresh "c" in
      let H := fresh "H" in
      intros c H; exists ws; exact H
  | |- forall c, search_max_M _ _ _ = Some c -> _ =>
      let c := fresh "c" in
      let H := fresh "H" in
      intros c H; apply search_max_M_origin in H;
      destruct H as (? & _ & H); eexists; exact H
  end.

Lemma single_crane_cases_analysed (L : R) (c : CraneData)
  (results out : list LoadCase) :
  Forall (analysed_case L) results ->
  single_crane_cases L c results = Ok out ->
  Forall (analysed_case L) out.
Proof.
  intros Hres H. unfold single_crane_cases in H.
  destruct (wheel_load_with_impact c) as [[c1 Pv_] | e]; cbn [bind] in H;
    [| discriminate H].
  destruct (lateral_per_wheel c1) as [Ph_ | e]; cbn [bind] in H;
    [| discriminate H].
  destruct (Rlt_dec L _) as [_ | _].
  - injection H as <-. exact Hres.
  - injection H as <-.
    repeat (apply append_case_analysed;
            [| discriminate | case_origin]).
    exact Hres.
Qed.

Lemma Ok_inj {A : Type} (a b : A) : Ok a = Ok b -> a = b.
Proof. intros H. injection H as H. exact H. Qed.

Lemma search_max_R_origin {A B : R -> Prop} (L : R)
  (skip : forall p : R, {A p} + {B p}) (place : R -> list WheelPos)
  (ps : list R) (c : LoadCase) :
  snd (fold_left
         (fun st p => if skip p then st else keep_max_R L st (place p))
         ps (0, None)) = Some c ->
  exists p, In p ps /\ analyze_load L (place p) = Some c.
Proof.
  intros H.
  destruct (search_origin L place
              (fun st p => if skip p then st else keep_max_R L st (place p)))
    with (ps := ps) (st := (0, @None LoadCase)) (c := c)
    as [Hnone | Hex].
  - intros st p c0. destruct (skip p); intros Hs.
    + left. exact Hs.
    + apply keep_max_R_origin. exact Hs.
  - exact H.
  - discriminate Hnone.
  - exact Hex.
Qed.

Lemma two_crane_cases_analysed (L : R) (cs : list CraneData)
  (results out : list LoadCase) :
  Forall (analysed_case L) results ->
  two_crane_cases L cs results = Ok out ->
  Forall (analysed_case L) out.
Proof.
  intros Hres H. unfold two_crane_cases in H.
  destruct cs as [| c1 [| c2 rest]];
    try (injection H as <-; exact Hres).
  destruct (wheel_load_with_impact c1) as [[c1' Pv1] | e]; cbn [bind] in H;
    [| discriminate H].
  destruct (lateral_per_wheel c1') as [Ph1 | e]; cbn [bind] in H;
    [| discriminate H].
  destruct (wheel_load_with_impact c2) as [[c2' Pv2] | e]; cbn [bind] in H;
    [| discriminate H].
  destruct (lateral_per_wheel c2') as [Ph2 | e]; cbn [bind] in H;
    [| discriminate H].
  match type of H with
  | (if ?t then _ else _) = _ => destruct t as [_ | _]
  end; [| apply Ok_inj in H; subst out; exact Hres].
  destruct (Rlt_dec Pv1 Pv2) as [_ | _];
    cbv iota beta in H; apply Ok_inj in H; subst out.
  - apply append_case_analysed; [| discriminate | case_origin].
    apply append_case_analysed;
      [| discriminate
       | intros c Hc; apply search_max_R_origin in Hc;
         destruct Hc as (p & _ & Hp); eexists; exact Hp].
    repeat (apply append_case_analysed; [| discriminate | case_origin]).
    exact Hres.
  - apply append_case_analysed; [| discriminate | case_origin].
    apply append_case_analysed;
      [| discriminate
       | intros c Hc; apply search_max_R_origin in Hc;
         destruct Hc as (p & _ & Hp); eexists; exact Hp].
    repeat (apply append_case_analysed; [| discriminate | case_origin]).
    exact Hres.
Qed.

Lemma three_crane_cases_analysed (L : R) (cs : list CraneData)
  (results out : list LoadCase) :
  Forall (analysed_case L) results ->
  three_crane_cases L cs results = Ok out ->
  Forall (analysed_case L) out.
Proof.
  intros Hres H. unfold three_crane_cases in H.
  destruct cs as [| c1 [| c2 [| c3 rest]]];
    try (apply Ok_inj in H; subst out; exact Hres).
  destruct (wheel_load_with_impact c1) as [[c1' Pv1] | e]; cbn [bind] in H;
    [| discriminate H].
  destruct (lateral_per_wheel c1') as [Ph1 | e]; cbn [bind] in H;
    [| discriminate H].
  destruct (wheel_load_with_impact c2) as [[c2' Pv2] | e]; cbn [bind] in H;
    [| discriminate H].
  destruct (lateral_per_wheel c2') as [Ph2 | e]; cbn [bind] in H;
    [| discriminate H].
  destruct (wheel_load_with_impact c3) as [[c3' Pv3] | e]; cbn [bind] in H;
    [| discriminate H].
  destruct (lateral_per_wheel c3') as [Ph3 | e]; cbn [bind] in H;
    [| discriminate H].
  match type of H with
  | (if ?t then _ else _) = _ => destruct t as [_ | _]
  end; apply Ok_inj in H; subst out; [| exact Hres].
  repeat (apply append_case_analysed; [| discriminate | case_origin]).
  exact Hres.
Qed.

Lemma single_crane_loop_analysed (L : R) (cs : list CraneData) :
  forall (acc : res (list LoadCase)) (out : list LoadCase),
    (forall r, acc = Ok r -> Forall (analysed_case L) r) ->
    fold_left (fun acc c => results <- acc ;; single_crane_cases L c results)
      cs acc = Ok out ->
    Forall (analysed_case L) out.
Proof.
  induction cs as [| c cs' IH]; intros acc out Hacc H; cbn [fold_left] in H.
  - apply Hacc. exact H.
  - apply (IH (results <- acc ;; single_crane_cases L c results) out);
      [| exact H].
    intros r Hr. destruct acc as [r0 | e]; cbn [bind] in Hr.
    + apply (single_crane_cases_analysed L c r0 r); [| exact Hr].
      apply Hacc. reflexivity.
    + discriminate Hr.
Qed.

(** X14. Whatever the span and the cranes, every case that
    [find_critical] returns is the analysis of a non-empty set of wheels
    and carries a description: its left reaction is the sum of the
    vertical loads of its wheels minus its right reaction, its moment is
    the largest in magnitude among the moments it lists, and its shear
    bounds the shears it lists in magnitude. *)
Theorem find_critical_cases_sound (L : R) (cranes : list CraneData)
  (results : list LoadCase) :
  find_critical L cranes = Ok results ->
  forall lc, In lc results ->
    wheels lc <> []
    /\ desc lc <> DescNone
    /\ R_left lc = total_vertical_load (wheels lc) - R_right lc
    /\ (forall m, In m (moments lc) -> Rabs m <= Rabs (M_max lc))
    /\ (forall v, In v (shears lc) -> Rabs v <= V_max lc).
Proof.
  intros H. unfold find_critical in H.
  destruct (mapM wheel_load_with_impact cranes) as [keyed | e];
    cbn [bind] in H; [| discriminate H].
  destruct (fold_left _ (map fst keyed) (Ok [])) as [r1 | e] eqn:H1;
    cbn [bind] in H; [| discriminate H].
  destruct (two_crane_cases L (map fst keyed) r1) as [r2 | e] eqn:H2;
    cbn [bind] in H; [| discriminate H].
  assert (Hall : Forall (analysed_case L) results).
  { apply (three_crane_cases_analysed L (map fst keyed) r2 results);
      [| exact H].
    apply (two_crane_cases_analysed L (map fst keyed) r1 r2); [| exact H2].
    apply (single_crane_loop_analysed L (map fst keyed) (Ok []) r1);
      [| exact H1].
    intros r Hr. apply Ok_inj in Hr. subst r. constructor. }
  intros lc Hin. rewrite Forall_forall in Hall.
  destruct (Hall lc Hin) as (ws & lc0 & dsc & Hrun & -> & Hdsc).
  assert (Hne : ws <> []).
  { intros ->. discriminate Hrun. }
  destruct (analyze_load_reactions L ws Hne) as (lc' & Hrun' & Hw & _ & Hl).
  rewrite Hrun in Hrun'. injection Hrun' as <-.
  destruct (analyze_load_contents L ws lc0 Hrun)
    as (_ & _ & _ & HM & HV).
  cbn [set_desc wheels desc R_left R_right moments shears M_max V_max].
  rewrite Hw. split; [exact Hne |]. split; [exact Hdsc |].
  split; [exact Hl |].
  split.
  - intros m Hm. rewrite HM. apply argmax_abs_dominates. exact Hm.
  - intros v Hv. rewrite HV. apply argmax_abs_dominates. exact Hv.
Qed.

(** What [find_critical] returns for one crane that fits on the span. *)
Lemma find_critical_single_fit (L : R) (c : CraneData) :
  crane_loads_defined c ->
  crane_length c <= L ->
  exists (m : list LoadCase) (l r : LoadCase),
    find_critical L [c] = Ok (m ++ [l; r])
    /\ (forall lc, In lc m ->
          desc lc = CraneMaxM (crane_id c) (capacity_tonnes c))
    /\ desc l = CraneMaxVLeft (crane_id c) (capacity_tonnes c)
    /\ desc r = CraneMaxVRight (crane_id c) (capacity_tonnes c).
Proof.
  intros Hd Hfit.
  destruct (wheel_load_with_impact_defined c Hd) as (c' & Pv_ & Hw).
  destruct (wheel_load_with_impact_frame c c' Pv_ Hw)
    as (a & b & w & v & Hc).
  pose proof (wheel_load_with_impact_again c c' Pv_ Hw) as Hw'.
  destruct Hd as [Hn _].
  assert (Hn' : (1 <= num_wheels c')%Z) by (rewrite Hc; exact Hn).
  assert (Hfit' : crane_length c' <= L) by (rewrite Hc; exact Hfit).
  destruct (single_crane_cases_fit L c' c' Pv_ [] Hw' Hn' Hfit')
    as (m & l & r & Hs & Hm & Hl & Hr).
  assert (Hid : crane_id c' = crane_id c) by (rewrite Hc; reflexivity).
  assert (Hcap : capacity_tonnes c' = capacity_tonnes c)
    by (rewrite Hc; reflexivity).
  rewrite Hid, Hcap in Hm, Hl, Hr.
  exists m, l, r. split; [| repeat split; assumption].
  unfold find_critical. cbn [mapM]. rewrite Hw.
  cbn [bind map fst fold_left]. rewrite Hs. cbn [bind app]. reflexivity.
Qed.

Lemma find_critical_cases_sound_witness :
  exists results,
    find_critical 20 [scenario1_crane] = Ok results
    /\ results <> []
    /\ forall lc, In lc results ->
         wheels lc <> []
         /\ desc lc <> DescNone
         /\ R_left lc = total_vertical_load (wheels lc) - R_right lc
         /\ (forall m, In m (moments lc) -> Rabs m <= Rabs (M_max lc))
         /\ (forall v, In v (shears lc) -> Rabs v <= V_max lc).
Proof.
  destruct (find_critical_single_fit 20 scenario1_crane)
    as (m & l & r & Hrun & _).
  - split; [cbn [scenario1_crane num_wheels]; lia |].
    right. cbn [scenario1_crane bridge_span]. lra.
  - unfold crane_length. cbn [scenario1_crane wheel_base num_wheels].
    change (IZR (2 - 1)) with 1. lra.
  - exists (m ++ [l; r]). split; [exact Hrun |]. split.
    + intros Hnil. apply app_eq_nil in Hnil. destruct Hnil as [_ Hnil].
      discriminate Hnil.
    + exact (find_critical_cases_sound 20 [scenario1_crane] _ Hrun).
Defined.

(** X15. For one crane whose loads are defined and which fits on the
    span, [find_critical] returns at least the two shear cases, so
    [get_governing] returns its three entries, each one of the cases
    returned and each maximal for its demand among them. *)
Theorem find_critical_then_get_governing (L : R) (c : CraneData) :
  crane_loads_defined c ->
  crane_length c <= L ->
  exists (results : list LoadCase) (m s r : LoadCase),
    find_critical L [c] = Ok results
    /\ get_governing results
       = [ ("moment"%string, m); ("shear"%string, s);
           ("reaction"%string, r) ]
    /\ In m results /\ In s results /\ In r results
    /\ forall lc, In lc results ->
         Rabs (M_max lc) <= Rabs (M_max m)
         /\ V_max lc <= V_max s
         /\ Rmax (R_left lc) (R_right lc) <= Rmax (R_left r) (R_right r).
Proof.
  intros Hd Hfit.
  destruct (find_critical_single_fit L c Hd Hfit)
    as (mc & l & r & Hrun & _).
  exists (mc ++ [l; r]).
  assert (Hne : exists r0 rest, mc ++ [l; r] = r0 :: rest).
  { destruct mc as [| x mc']; cbn [app]; eexists; eexists; reflexivity. }
  destruct Hne as (r0 & rest & Heq). rewrite Heq. cbn [get_governing].
  do 3 eexists. split; [rewrite <- Heq; exact Hrun |].
  split; [reflexivity |].
  pose proof (first_max_In _ _ _
                (max_key_from_first_max (fun x => Rabs (M_max x)) r0 rest))
    as [HmI HmD].
  pose proof (first_max_In _ _ _
                (max_key_from_first_max (fun x => V_max x) r0 rest))
    as [HsI HsD].
  pose proof (first_max_In _ _ _
                (max_key_from_first_max
                   (fun x => max2 (R_left x) (R_right x)) r0 rest))
    as [HrI HrD].
  split; [exact HmI |]. split; [exact HsI |]. split; [exact HrI |].
  intros lc Hin. split; [apply HmD; exact Hin |].
  split; [apply HsD; exact Hin |].
  rewrite <- !max2_Rmax. apply HrD. exact Hin.
Qed.

Lemma find_critical_then_get_governing_witness :
  exists (results : list LoadCase) (m s r : LoadCase),
    find_critical 20 [scenario1_crane] = Ok results
    /\ get_governing results
       = [ ("moment"%string, m); ("shear"%string, s);
           ("reaction"%string, r) ]
    /\ In m results /\ In s results /\ In r results
    /\ forall lc, In lc results ->
         Rabs (M_max lc) <= Rabs (M_max m)
         /\ V_max lc <= V_max s
         /\ Rmax (R_left lc) (R_right lc) <= Rmax (R_left r) (R_right r).
Proof.
  apply (find_critical_then_get_governing 20 scenario1_crane).
  - split; [cbn [scenario1_crane num_wheels]; lia |].
    right. cbn [scenario1_crane bridge_span]. lra.
  - unfold crane_length. cbn [scenario1_crane wheel_base num_wheels].
    change (IZR (2 - 1)) with 1. lra.
Defined.







(* ================================================================== *)
(** ** Further properties of the classification *)
(* ================================================================== *)

(** X18. For a positive yield strength [check_compact] classifies the
    flange by the ratio [bf_top / max(2*tf_top, 1)] (which is
    [bf_top / (2*tf_top)] as soon as [tf_top >= 0.5]): Compact up to and
    including [0.38 * sqrt(E/Fy)], Noncompact above that and up to and
    including [sqrt(E/Fy)], Slender above; both classifications are one
    of these three texts. *)
Theorem check_compact_flange_classes (sec : Section) (Fy : R) :
  0 < Fy ->
  exists r,
    check_compact sec Fy = Ok r
    /\ lf r = bf_top sec / max2 (2 * tf_top sec) 1
    /\ (0.5 <= tf_top sec -> lf r = bf_top sec / (2 * tf_top sec))
    /\ lpf r = 0.38 * sqrt (E_STEEL / Fy)
    /\ lrf r = 1.0 * sqrt (E_STEEL / Fy)
    /\ (lf r <= lpf r -> flg r = "Compact"%string)
    /\ (lpf r < lf r -> lf r <= lrf r -> flg r = "Noncompact"%string)
    /\ (lrf r < lf r -> flg r = "Slender"%string)
    /\ (forall cls, cls = flg r \/ cls = web r ->
          cls = "Compact"%string \/ cls = "Noncompact"%string
          \/ cls = "Slender"%string).
Proof.
  intros HFy. eexists. split; [apply check_compact_run; exact HFy |].
  cbn [lf lpf lrf flg web].
  assert (Hs : 0 < sqrt (E_STEEL / Fy)).
  { apply sqrt_lt_R0. apply E_over_Fy_pos. exact HFy. }
  split; [reflexivity |].
  split; [intros Htf; rewrite max2_left by lra; reflexivity |].
  split; [reflexivity |]. split; [reflexivity |].
  split; [intros H; apply classify_compact; exact H |].
  split; [intros H1 H2; apply classify_noncompact; assumption |].
  split; [intros H; apply classify_slender; lra |].
  intros cls [-> | ->]; unfold classify;
    destruct (Rle_dec _ _); auto; destruct (Rle_dec _ _); auto.
Qed.

Lemma check_compact_flange_classes_witness :
  exists r,
    check_compact boundary_web_section 320 = Ok r
    /\ lf r = bf_top boundary_web_section
              / max2 (2 * tf_top boundary_web_section) 1
    /\ (0.5 <= tf_top boundary_web_section ->
        lf r = bf_top boundary_web_section
               / (2 * tf_top boundary_web_section))
    /\ lpf r = 0.38 * sqrt (E_STEEL / 320)
    /\ lrf r = 1.0 * sqrt (E_STEEL / 320)
    /\ (lf r <= lpf r -> flg r = "Compact"%string)
    /\ (lpf r < lf r -> lf r <= lrf r -> flg r = "Noncompact"%string)
    /\ (lrf r < lf r -> flg r = "Slender"%string)
    /\ (forall cls, cls = flg r \/ cls = web r ->
          cls = "Compact"%string \/ cls = "Noncompact"%string
          \/ cls = "Slender"%string).
Proof.
  apply (check_compact_flange_classes boundary_web_section 320). lra.
Defined.

Lemma sqrt_E_over_nonpositive (Fy : R) :
  Fy <= 0 ->
  sqrt_E_over Fy
  = Raise (if Req_dec_T Fy 0 then ZeroDivisionError else ValueError).
Proof.
  intros HFy. unfold sqrt_E_over, truediv.
  destruct (Req_dec_T Fy 0) as [H0 | Hne]; [reflexivity |].
  cbn [bind]. unfold math_sqrt.
  destruct (Rlt_dec (E_STEEL / Fy) 0) as [_ | Hnn]; [reflexivity |].
  exfalso. apply Hnn. unfold E_STEEL.
  assert (Hneg : Fy < 0) by lra.
  assert (Hinv : / Fy < 0) by (apply Rinv_lt_0_compat; exact Hneg).
  unfold Rdiv. nra.
Qed.

(** X19. [check_compact] returns exactly for a positive yield strength:
    with [Fy = 0] it raises [ZeroDivisionError], with [Fy < 0] it raises
    [ValueError] (the square root of a negative number), whatever the
    section is. *)
Theorem check_compact_raises (sec : Section) (Fy : R) :
  (Fy <= 0 ->
   check_compact sec Fy
   = Raise (if Req_dec_T Fy 0 then ZeroDivisionError else ValueError))
  /\ (0 < Fy -> exists r, check_compact sec Fy = Ok r).
Proof.
  split.
  - intros HFy. unfold check_compact.
    rewrite (sqrt_E_over_nonpositive Fy HFy). reflexivity.
  - intros HFy. eexists. apply check_compact_run. exact HFy.
Qed.

Lemma check_compact_raises_witness :
  check_compact ipe300 0 = Raise ZeroDivisionError
  /\ check_compact ipe300 (-250) = Raise ValueError
  /\ exists r, check_compact ipe300 250 = Ok r.
Proof.
  split; [| split].
  - rewrite (proj1 (check_compact_raises ipe300 0)) by lra.
    destruct (Req_dec_T 0 0) as [_ | N]; [reflexivity | exfalso; lra].
  - rewrite (proj1 (check_compact_raises ipe300 (-250))) by lra.
    destruct (Req_dec_T (-250) 0) as [N | _]; [exfalso; lra | reflexivity].
  - apply (proj2 (check_compact_raises ipe300 250)). lra.
Defined.

(* ================================================================== *)
(** ** Flexural strength *)
(* ================================================================== *)

Lemma min2_le_l (a b : R) : min2 a b <= a.
Proof. unfold min2. destruct (Rlt_dec b a); lra. Qed.

Lemma min2_le_r (a b : R) : min2 a b <= b.
Proof. unfold min2. destruct (Rlt_dec b a); lra. Qed.

Lemma Rpos_b_true (x : R) : Rpos_b x = true -> 0 < x.
Proof.
  unfold Rpos_b. destruct (Rlt_dec 0 x); [trivial | discriminate].
Qed.

Lemma calc_Lp_Lr_defined (sec : Section) (Fy : R) :
  0 < Fy ->
  0 <= J sec ->
  exists Lr,
    calc_Lp_Lr sec Fy = Ok (1.76 * ry sec * sqrt (E_STEEL / Fy), Lr).
Proof.
  intros HFy HJ. unfold calc_Lp_Lr.
  rewrite (sqrt_E_over_ok Fy HFy). cbn [bind].
  destruct (Rpos_b (Sx sec) && Rpos_b (ho sec) && Rpos_b (rts sec)) eqn:Hc.
  - apply andb_true_iff in Hc. destruct Hc as [Hc _].
    apply andb_true_iff in Hc. destruct Hc as [HS Hh].
    apply Rpos_b_true in HS. apply Rpos_b_true in Hh.
    assert (Hprod : 0 < Sx sec * ho sec)
      by (apply Rmult_lt_0_compat; assumption).
    rewrite truediv_ok by lra. cbn [bind].
    assert (Ht1 : 0 <= J sec / (Sx sec * ho sec)).
    { apply Rmult_le_pos; [exact HJ |].
      left. apply Rinv_0_lt_compat. exact Hprod. }
    rewrite math_sqrt_ok.
    2:{ assert (0 <= (J sec / (Sx sec * ho sec)) ^ 2) by apply pow2_ge_0.
        assert (0 <= (0.7 * Fy / E_STEEL) ^ 2) by apply pow2_ge_0.
        lra. }
    cbn [bind]. rewrite truediv_ok by lra. cbn [bind].
    rewrite math_sqrt_ok.
    2:{ pose proof (sqrt_pos ((J sec / (Sx sec * ho sec)) ^ 2
                              + 6.76 * (0.7 * Fy / E_STEEL) ^ 2)).
        lra. }
    cbn [bind]. eexists. reflexivity.
  - eexists. reflexivity.
Qed.

Lemma elastic_Fcr_defined (sec : Section) (Fy Lb : R) :
  0 <= J sec -> 0 < Lb -> exists Fcr, elastic_Fcr sec Fy Lb = Ok Fcr.
Proof.
  intros HJ HLb. unfold elastic_Fcr.
  destruct (Rpos_b (rts sec) && Rpos_b (Sx sec) && Rpos_b (ho sec)) eqn:Hc.
  - apply andb_true_iff in Hc. destruct Hc as [Hc Hh].
    apply andb_true_iff in Hc. destruct Hc as [Hr HS].
    apply Rpos_b_true in HS. apply Rpos_b_true in Hh.
    apply Rpos_b_true in Hr.
    assert (Hprod : 0 < Sx sec * ho sec)
      by (apply Rmult_lt_0_compat; assumption).
    assert (Hq : 0 < Lb / rts sec) by (apply Rdiv_lt_0_compat; assumption).
    rewrite !(truediv_ok Lb (rts sec)) by lra. cbn [bind].
    rewrite truediv_ok.
    2:{ apply Rgt_not_eq. apply pow_lt. exact Hq. }
    cbn [bind]. rewrite truediv_ok by lra. cbn [bind].
    rewrite math_sqrt_ok.
    2:{ assert (0 <= 0.078 * J sec / (Sx sec * ho sec)).
        { apply Rmult_le_pos; [lra |].
          left. apply Rinv_0_lt_compat. exact Hprod. }
        assert (0 <= (Lb / rts sec) ^ 2) by apply pow2_ge_0.
        assert (0 <= 0.078 * J sec / (Sx sec * ho sec) * (Lb / rts sec) ^ 2)
          by (apply Rmult_le_pos; assumption).
        lra. }
    cbn [bind]. eexists. reflexivity.
  - eexists. reflexivity.
Qed.

(** X20. For a positive yield strength, a torsional constant that is not
    negative and a positive unbraced length, [calc_Mn] raises nothing;
    the limiting lengths it returns are those that [calc_Lp_Lr] returns;
    the nominal moment never exceeds the plastic moment
    [Fy * Zx / 1e6]; it is the plastic moment, with the case "No LTB",
    when the unbraced length does not exceed the returned [Lp], and the
    case is another one when it does. *)
Theorem calc_Mn_capped (sec : Section) (Fy Lb : R) (cmp : CompactResult) :
  0 < Fy ->
  0 <= J sec ->
  0 < Lb ->
  exists Mn Lp Lr ltb,
    calc_Mn sec Fy Lb cmp = Ok (Mn, Lp, Lr, ltb)
    /\ calc_Lp_Lr sec Fy = Ok (Lp, Lr)
    /\ Mn <= Fy * Zx sec / 1e6
    /\ (Lb <= Lp -> Mn = Fy * Zx sec / 1e6 /\ ltb = "No LTB"%string)
    /\ (Lp < Lb -> ltb <> "No LTB"%string).
Proof.
  intros HFy HJ HLb.
  destruct (calc_Lp_Lr_defined sec Fy HFy HJ) as [Lr HLr].
  destruct (elastic_Fcr_defined sec Fy Lb HJ HLb) as [Fcr HFcr].
  unfold calc_Mn. rewrite HLr. cbn [bind].
  destruct (Rle_dec Lb (1.76 * ry sec * sqrt (E_STEEL / Fy))) as [H1 | H1].
  - do 4 eexists. split; [reflexivity |]. split; [reflexivity |].
    split; [lra |]. split; [intros _; split; reflexivity | intros; lra].
  - destruct (Rle_dec Lb Lr) as [H2 | H2].
    + do 4 eexists. split; [reflexivity |]. split; [reflexivity |].
      split; [apply min2_le_r |].
      split; [intros; lra | intros _; discriminate].
    + rewrite HFcr. cbn [bind].
      do 4 eexists. split; [reflexivity |]. split; [reflexivity |].
      split; [apply min2_le_r |].
      split; [intros; lra | intros _; discriminate].
Qed.

Lemma check_compact_slender_girder :
  check_compact slender_girder 320 = Ok slender_girder_cmp.
Proof.
  rewrite check_compact_run by lra. cbv zeta. rewrite sqrt_625.
  cbn [slender_girder bf_top tf_top hw tw].
  rewrite !max2_left by lra.
  unfold slender_girder_cmp.
  rewrite classify_compact by lra. rewrite classify_slender by lra.
  f_equal. f_equal; lra.
Qed.

Lemma calc_Mn_capped_witness :
  exists Mn Lp Lr ltb,
    calc_Mn slender_girder 320 2000 slender_girder_cmp
    = Ok (Mn, Lp, Lr, ltb)
    /\ calc_Lp_Lr slender_girder 320 = Ok (Lp, Lr)
    /\ Mn <= 320 * Zx slender_girder / 1e6
    /\ (2000 <= Lp ->
        Mn = 320 * Zx slender_girder / 1e6 /\ ltb = "No LTB"%string)
    /\ (Lp < 2000 -> ltb <> "No LTB"%string).
Proof.
  apply (calc_Mn_capped slender_girder 320 2000 slender_girder_cmp).
  - lra.
  - cbn [slender_girder J]. lra.
  - lra.
Defined.

Lemma max2_min2_clamp (x lo hi : R) :
  lo <= hi -> lo <= max2 (min2 x hi) lo <= hi.
Proof.
  intros H. unfold max2, min2.
  destruct (Rlt_dec hi x); destruct (Rlt_dec _ lo); lra.
Qed.

Lemma min3_le_first (a b c : R) : min3 a b c <= a.
Proof.
  unfold min3. pose proof (min2_le_l (min2 a b) c).
  pose proof (min2_le_l a b). lra.
Qed.

(** X21. Whenever [calc_plate_girder_Mn] returns, the reduction factor
    [Rpg] it returns lies between 0.5 and 1 and [aw] is the web area
    over [max(compression flange area, 1)].  If the web is not slender
    ([hw / max(tw, 1)] does not exceed [5.70 * sqrt(E/Fy)]) the moment,
    the limiting lengths and the case are those of [calc_Mn] and [Rpg]
    is 1; if it is slender the nominal moment does not exceed the
    compression flange yielding value [Rpg * Fy * Sx / 1e6]. *)
Theorem calc_plate_girder_Mn_reduction (sec : Section) (Fy Lb : R)
  (cmp : CompactResult) (Mn Lp Lr : R) (ltb : string) (Rpg aw : R) :
  calc_plate_girder_Mn sec Fy Lb cmp = Ok (Mn, Lp, Lr, ltb, Rpg, aw) ->
  0.5 <= Rpg <= 1
  /\ aw = hw sec * tw sec / max2 (bf_top sec * tf_top sec) 1
  /\ (hw sec / max2 (tw sec) 1 <= 5.70 * sqrt (E_STEEL / Fy) ->
      calc_Mn sec Fy Lb cmp = Ok (Mn, Lp, Lr, ltb) /\ Rpg = 1)
  /\ (5.70 * sqrt (E_STEEL / Fy) < hw sec / max2 (tw sec) 1 ->
      Mn <= Rpg * Fy * Sx sec / 1e6).
Proof.
  intros H. unfold calc_plate_girder_Mn in H.
  destruct (sqrt_E_over Fy) as [s |] eqn:Hs; cbn [bind] in H;
    [| discriminate H].
  assert (Hsv : s = sqrt (E_STEEL / Fy)).
  { unfold sqrt_E_over in Hs.
    destruct (truediv E_STEEL Fy) as [q |] eqn:Hq; cbn [bind] in Hs;
      [| discriminate Hs].
    apply truediv_inv in Hq. destruct Hq as [_ ->].
    unfold math_sqrt in Hs. destruct (Rlt_dec _ 0); [discriminate Hs |].
    injection Hs as <-. reflexivity. }
  subst s.
  destruct (Rlt_dec (5.70 * sqrt (E_STEEL / Fy)) (hw sec / max2 (tw sec) 1))
    as [Hsl | Hns]; cbn [negb] in H.
  - (* slender web *)
    repeat run_bind H.
    destruct v4 as [Lp0 Lr0].
    match type of H with
    | bind ?c _ = Ok _ =>
        destruct c as [[Mn_ltb ltb0] | ?]; cbn [bind] in H; [| discriminate H]
    end.
    match type of H with
    | bind ?c _ = Ok _ =>
        destruct c as [Mn_flb | ?]; cbn [bind] in H; [| discriminate H]
    end.
    apply Ok_inj in H.
    assert (HMn : Mn = min3 (max2 (min2 (1 - v * (v0 - 5.7 * sqrt (E_STEEL / Fy))) 1.0) 0.5
                             * Fy * Sx sec / 1e6) Mn_ltb Mn_flb)
      by congruence.
    assert (HR : Rpg = max2 (min2 (1 - v * (v0 - 5.7 * sqrt (E_STEEL / Fy))) 1.0) 0.5)
      by congruence.
    assert (Ha : aw = hw sec * tw sec / max2 (bf_top sec * tf_top sec) 1)
      by congruence.
    clear H.
    split.
    { rewrite HR.
      pose proof (max2_min2_clamp
                    (1 - v * (v0 - 5.7 * sqrt (E_STEEL / Fy))) 0.5 1.0).
      lra. }
    split; [exact Ha |].
    split; [intros; lra |].
    intros _. rewrite HMn, <- HR. apply min3_le_first.
  - (* web not slender *)
    destruct (calc_Mn sec Fy Lb cmp) as [[[[Mn0 Lp0] Lr0] ltb0] | e];
      cbn [bind] in H; [| discriminate H].
    apply Ok_inj in H.
    assert (HMn : Mn0 = Mn) by congruence.
    assert (HLp : Lp0 = Lp) by congruence.
    assert (HLr : Lr0 = Lr) by congruence.
    assert (Hl : ltb0 = ltb) by congruence.
    assert (HR : Rpg = 1.0) by congruence.
    assert (Ha : aw = hw sec * tw sec / max2 (bf_top sec * tf_top sec) 1)
      by congruence.
    subst Mn0 Lp0 Lr0 ltb0 Rpg. split; [lra |]. split; [exact Ha |].
    split; [intros _; split; [reflexivity | lra] | intros; lra].
Qed.

Lemma sqrt_E_over_320 : sqrt_E_over 320 = Ok 25.
Proof.
  rewrite sqrt_E_over_ok by lra. rewrite sqrt_625. reflexivity.
Qed.

(** The deep girder of the examples runs through the slender-web branch. *)
Lemma calc_plate_girder_Mn_slender_girder :
  exists Mn Lp Lr ltb Rpg aw,
    calc_plate_girder_Mn slender_girder 320 2000 slender_girder_cmp
    = Ok (Mn, Lp, Lr, ltb, Rpg, aw)
    /\ 5.70 * sqrt (E_STEEL / 320)
       < hw slender_girder / max2 (tw slender_girder) 1.
Proof.
  assert (Hslender : 5.70 * sqrt (E_STEEL / 320)
                     < hw slender_girder / max2 (tw slender_girder) 1).
  { rewrite sqrt_625. cbn [slender_girder hw tw].
    rewrite max2_left by lra. lra. }
  destruct (calc_Lp_Lr_defined slender_girder 320) as [Lr HLr].
  { lra. }
  { cbn [slender_girder J]. lra. }
  rewrite sqrt_625 in HLr. cbn [slender_girder ry] in HLr.
  unfold calc_plate_girder_Mn.
  rewrite sqrt_E_over_320. cbn [bind].
  rewrite HLr.
  cbn [slender_girder hw tw bf_top tf_top Sx Zx].
  rewrite !max2_left by lra.
  destruct (Rlt_dec (5.70 * 25) (2000 / 10)) as [_ | Hn]; [| exfalso; lra].
  cbn [negb].
  rewrite (truediv_ok (2000 * 10 / (300 * 20))) by lra. cbn [bind].
  rewrite (truediv_ok 2000 10) by lra. cbn [bind].
  rewrite (truediv_ok 300 (2 * 20)) by lra. cbn [bind].
  rewrite (truediv_ok E_STEEL (0.7 * 320)) by lra. cbn [bind].
  rewrite math_sqrt_ok by (unfold E_STEEL; lra). cbn [bind].
  destruct (Rle_dec 2000 (1.76 * 60 * 25)) as [_ | Hn]; [| exfalso; lra].
  cbn [bind].
  destruct (Rle_dec (300 / (2 * 20)) (0.38 * 25)) as [_ | Hn];
    [| exfalso; lra].
  cbn [bind].
  do 6 eexists. split; [reflexivity | rewrite sqrt_625; lra].
Qed.

Lemma calc_plate_girder_Mn_reduction_witness :
  exists Mn Lp Lr ltb Rpg aw,
    calc_plate_girder_Mn slender_girder 320 2000 slender_girder_cmp
    = Ok (Mn, Lp, Lr, ltb, Rpg, aw)
    /\ 0.5 <= Rpg <= 1
    /\ aw = hw slender_girder * tw slender_girder
            / max2 (bf_top slender_girder * tf_top slender_girder) 1
    /\ Mn <= Rpg * 320 * Sx slender_girder / 1e6.
Proof.
  destruct calc_plate_girder_Mn_slender_girder
    as (Mn & Lp & Lr & ltb & Rpg & aw & Hrun & Hsl).
  exists Mn, Lp, Lr, ltb, Rpg, aw. split; [exact Hrun |].
  destruct (calc_plate_girder_Mn_reduction slender_girder 320 2000
              slender_girder_cmp Mn Lp Lr ltb Rpg aw Hrun)
    as (HR & Ha & _ & HM).
  split; [exact HR |]. split; [exact Ha |]. apply HM. exact Hsl.
Defined.

(* ================================================================== *)
(** ** Shear strength with stiffeners *)
(* ================================================================== *)

(** The buckling coefficient of [calc_Vn_plate_girder] is computed
    without an exception and is positive. *)
Lemma Vn_kv_pos (has_stiff : bool) (stiff_spa hw_ : R) :
  exists kv,
    (if has_stiff && Rpos_b stiff_spa && Rpos_b hw_ then
       a_h <- truediv stiff_spa hw_ ;;
       if Rle_dec a_h 3
       then q <- truediv 5 (a_h ^ 2) ;; Ok (5 + q)
       else Ok 5.34
     else Ok 5.34) = Ok kv
    /\ 0 < kv.
Proof.
  destruct (has_stiff && Rpos_b stiff_spa && Rpos_b hw_) eqn:Hc.
  - apply andb_prop in Hc. destruct Hc as [Hc Hhw].
    apply andb_prop in Hc. destruct Hc as [_ Hsp].
    apply Rpos_b_true in Hhw. apply Rpos_b_true in Hsp.
    rewrite truediv_ok by lra. cbn [bind].
    assert (Ha : 0 < stiff_spa / hw_)
      by (apply Rdiv_lt_0_compat; assumption).
    destruct (Rle_dec (stiff_spa / hw_) 3) as [H3 | H3].
    + assert (Ha2 : 0 < (stiff_spa / hw_) ^ 2) by (apply pow_lt; exact Ha).
      rewrite truediv_ok by lra. cbn [bind].
      eexists. split; [reflexivity |].
      assert (0 < 5 / (stiff_spa / hw_) ^ 2)
        by (apply Rdiv_lt_0_compat; lra).
      lra.
    + eexists. split; [reflexivity | lra].
  - eexists. split; [reflexivity | lra].
Qed.

(** The web shear coefficient for a positive buckling coefficient and a
    positive yield strength: it is computed without an exception, lies in
    (0, 1], and is below 1 only on a web beyond the first limit. *)
Lemma Cv1_bounds (kv h_tw Fy : R) :
  0 < kv -> 0 < Fy ->
  let s := sqrt (kv * E_STEEL / Fy) in
  exists Cv1,
    (if Rle_dec h_tw (1.10 * s) then Ok 1.0
     else if Rle_dec h_tw (1.37 * s) then truediv (1.10 * s) h_tw
     else truediv (1.51 * kv * E_STEEL) (h_tw ^ 2 * Fy)) = Ok Cv1
    /\ 0 < Cv1 <= 1
    /\ 0 < s
    /\ (Cv1 < 1 -> 1.10 * s < h_tw).
Proof.
  intros Hkv HFy s.
  assert (Hq : 0 < kv * E_STEEL / Fy).
  { unfold E_STEEL. apply Rdiv_lt_0_compat; lra. }
  assert (Hs : 0 < s) by (apply sqrt_lt_R0; exact Hq).
  assert (Hss : s * s * Fy = kv * E_STEEL).
  { unfold s. rewrite sqrt_sqrt by lra. field. lra. }
  destruct (Rle_dec h_tw (1.10 * s)) as [H1 | H1].
  - exists 1.0. repeat split; try lra.
  - destruct (Rle_dec h_tw (1.37 * s)) as [H2 | H2].
    + rewrite truediv_ok by lra.
      exists (1.10 * s / h_tw). split; [reflexivity |].
      assert (Hh : 0 < h_tw) by lra.
      assert (Hb : 0 <= 1.10 * s / h_tw <= 1).
      { apply quotient_bounds; lra. }
      assert (0 < 1.10 * s / h_tw) by (apply Rdiv_lt_0_compat; lra).
      repeat split; try lra.
    + assert (Hh : 0 < h_tw) by lra.
      assert (Hh2 : 0 < h_tw ^ 2) by (apply pow_lt; exact Hh).
      assert (Hd : 0 < h_tw ^ 2 * Fy)
        by (apply Rmult_lt_0_compat; assumption).
      rewrite truediv_ok by lra.
      eexists. split; [reflexivity |].
      assert (Hn : 0 < 1.51 * kv * E_STEEL) by (unfold E_STEEL; lra).
      assert (Hle : 1.51 * kv * E_STEEL <= 1 * (h_tw ^ 2 * Fy)).
      { replace (1.51 * kv * E_STEEL) with (1.51 * (s * s * Fy))
          by (rewrite Hss; ring).
        assert (Hsq : (1.37 * s) * (1.37 * s) <= h_tw * h_tw).
        { apply Rmult_le_compat; lra. }
        assert (Hs2 : 0 < s * s) by (apply Rmult_lt_0_compat; exact Hs).
        replace (h_tw ^ 2) with (h_tw * h_tw) by ring.
        assert (Hm : 1.51 * (s * s) * Fy <= h_tw * h_tw * Fy).
        { apply Rmult_le_compat_r; lra. }
        lra. }
      assert (Hb : 0 <= 1.51 * kv * E_STEEL / (h_tw ^ 2 * Fy) <= 1).
      { apply quotient_bounds; lra. }
      assert (0 < 1.51 * kv * E_STEEL / (h_tw ^ 2 * Fy))
        by (apply Rdiv_lt_0_compat; lra).
      repeat split; try lra.
Qed.

(** X22. With a positive yield strength [calc_Vn_plate_girder] returns
    for every section, stiffener arrangement and setting of [use_tfa]:
    the coefficient [Cv1] it returns lies in (0, 1], the strength is not
    below the value without tension-field action,
    [0.6 * Fy * Aw * Cv1 / 1000], and [calc_Vn] returns exactly that value
    with the same coefficient. *)
Theorem calc_Vn_plate_girder_total (sec : Section) (Fy : R)
  (has_stiff : bool) (stiff_spa : R) (use_tfa : bool) :
  0 < Fy ->
  exists Vn Cv1,
    calc_Vn_plate_girder sec Fy has_stiff stiff_spa use_tfa = Ok (Vn, Cv1)
    /\ 0 < Cv1 <= 1
    /\ 0.6 * Fy * (hw sec * tw sec) * Cv1 / 1000 <= Vn
    /\ calc_Vn sec Fy has_stiff stiff_spa
       = Ok (0.6 * Fy * (hw sec * tw sec) * Cv1 / 1000, Cv1).
Proof.
  intros HFy.
  unfold calc_Vn, calc_Vn_plate_girder.
  destruct (Vn_kv_pos has_stiff stiff_spa (hw sec)) as (kv & Hkv & Hkvpos).
  rewrite Hkv. cbn [bind].
  assert (Hq : 0 < kv * E_STEEL / Fy).
  { unfold E_STEEL. apply Rdiv_lt_0_compat; lra. }
  rewrite (truediv_ok (kv * E_STEEL) Fy) by lra. cbn [bind].
  rewrite math_sqrt_ok by lra. cbn [bind].
  destruct (Cv1_bounds kv (hw sec / max2 (tw sec) 1) Fy Hkvpos HFy)
    as (Cv1 & HCv & HCvb & Hs & Hbeyond).
  cbv zeta in HCv, Hs, Hbeyond.
  rewrite HCv. cbn [bind andb].
  destruct (use_tfa && has_stiff && Rpos_b stiff_spa
            && (if Rlt_dec Cv1 1.0 then true else false)) eqn:Htfa.
  - apply andb_prop in Htfa. destruct Htfa as [Htfa Hlt].
    apply andb_prop in Htfa. destruct Htfa as [_ Hsp].
    apply Rpos_b_true in Hsp.
    destruct (Rlt_dec Cv1 1.0) as [Hlt1 | ?]; [| discriminate Hlt].
    assert (Hhtw : 1.10 * sqrt (kv * E_STEEL / Fy)
                   < hw sec / max2 (tw sec) 1) by (apply Hbeyond; lra).
    assert (Hhw : 0 < hw sec).
    { pose proof (max2_one_pos (tw sec)) as Hm.
      destruct (Rlt_dec 0 (hw sec)) as [Hp | Hn]; [exact Hp |].
      exfalso.
      assert (hw sec / max2 (tw sec) 1 <= 0).
      { unfold Rdiv.
        replace 0 with (0 * / max2 (tw sec) 1) by ring.
        apply Rmult_le_compat_r; [| lra].
        left. apply Rinv_0_lt_compat. exact Hm. }
      lra. }
    rewrite (truediv_ok stiff_spa (hw sec)) by lra. cbn [bind].
    destruct ((if Rle_dec (stiff_spa / hw sec) 3 then true else false)
              && (if Rle_dec 0.5 (stiff_spa / hw sec) then true else false)).
    + destruct (Rle_dec (hw sec / max2 (tw sec) 1)
                  (1.10 * sqrt (kv * E_STEEL / Fy))) as [Hc | _]; [lra |].
      rewrite truediv_ok by lra. cbn [bind].
      assert (H1a : 1 <= 1 + (stiff_spa / hw sec) ^ 2).
      { pose proof (pow2_ge_0 (stiff_spa / hw sec)). lra. }
      rewrite math_sqrt_ok by lra. cbn [bind].
      assert (Hsq : 0 < sqrt (1 + (stiff_spa / hw sec) ^ 2)).
      { apply sqrt_lt_R0. lra. }
      rewrite truediv_ok by lra. cbn [bind].
      eexists. eexists. split; [reflexivity |].
      split; [exact HCvb |]. split; [apply max2_ge_l | reflexivity].
    + eexists. eexists. split; [reflexivity |].
      split; [exact HCvb |]. split; [lra | reflexivity].
  - eexists. eexists. split; [reflexivity |].
    split; [exact HCvb |]. split; [lra | reflexivity].
Qed.

Lemma calc_Vn_plate_girder_total_witness :
  exists Vn Cv1,
    calc_Vn_plate_girder slender_girder 320 true 3000 true = Ok (Vn, Cv1)
    /\ 0 < Cv1 <= 1
    /\ 0.6 * 320 * (hw slender_girder * tw slender_girder) * Cv1 / 1000 <= Vn
    /\ calc_Vn slender_girder 320 true 3000
       = Ok (0.6 * 320 * (hw slender_girder * tw slender_girder) * Cv1 / 1000,
             Cv1).
Proof.
  apply (calc_Vn_plate_girder_total slender_girder 320 true 3000 true). lra.
Defined.

(** X23. With a yield strength that is not positive
    [calc_Vn_plate_girder], and so [calc_Vn], returns nothing for any
    section and stiffener arrangement: [Fy = 0] raises
    [ZeroDivisionError], a negative [Fy] raises [ValueError] from the
    square root of the negative [kv * E / Fy]. *)
Theorem calc_Vn_plate_girder_raises (sec : Section) (Fy : R)
  (has_stiff : bool) (stiff_spa : R) (use_tfa : bool) :
  Fy <= 0 ->
  calc_Vn_plate_girder sec Fy has_stiff stiff_spa use_tfa
  = Raise (if Req_dec_T Fy 0 then ZeroDivisionError else ValueError).
Proof.
  intros HFy. unfold calc_Vn_plate_girder.
  destruct (Vn_kv_pos has_stiff stiff_spa (hw sec)) as (kv & Hkv & Hkvpos).
  rewrite Hkv. cbn [bind].
  destruct (Req_dec_T Fy 0) as [H0 | H0].
  - rewrite H0. rewrite truediv_zero. reflexivity.
  - rewrite (truediv_ok (kv * E_STEEL) Fy) by exact H0. cbn [bind].
    unfold math_sqrt.
    destruct (Rlt_dec (kv * E_STEEL / Fy) 0) as [_ | Hn]; [reflexivity |].
    exfalso. apply Hn.
    assert (Hinv : / Fy < 0) by (apply Rinv_lt_0_compat; lra).
    assert (Hnum : 0 < kv * E_STEEL) by (unfold E_STEEL; lra).
    unfold Rdiv. 
    replace 0 with (kv * E_STEEL * 0) by ring.
    apply Rmult_lt_compat_l; assumption.
Qed.

Lemma calc_Vn_plate_girder_raises_witness :
  calc_Vn_plate_girder slender_girder (-320) true 3000 true
  = Raise (if Req_dec_T (-320) 0 then ZeroDivisionError else ValueError).
Proof.
  apply (calc_Vn_plate_girder_raises slender_girder (-320) true 3000 true).
  lra.
Defined.

Lemma sqrt_1_plus_sq_le (a : R) :
  -3 <= a <= 3 -> 1 <= sqrt (1 + a ^ 2) <= 3.17.
Proof.
  intros Ha.
  assert (Ha2 : 0 <= a ^ 2 <= 9).
  { split; [apply pow2_ge_0 |]. nra. }
  split.
  - rewrite <- sqrt_1 at 1. apply sqrt_le_1; lra.
  - replace 3.17 with (sqrt (3.17 * 3.17)) by (apply sqrt_square; lra).
    apply sqrt_le_1; lra.
Qed.

(** The tension-field factor is not below the plain shear coefficient. *)
Lemma tfa_factor_ge (Cv1 Cv2 a : R) :
  -3 <= a <= 3 ->
  0 <= Cv2 <= 1 ->
  Cv1 <= Cv2 \/ (Cv2 <= 0.803 /\ Cv1 <= 1.248 * (Cv2 * Cv2)) ->
  Cv1 <= Cv2 + (1 - Cv2) / (1.15 * sqrt (1 + a ^ 2)).
Proof.
  intros Ha Hc Hcase.
  destruct (sqrt_1_plus_sq_le a Ha) as [Hs1 Hs2].
  set (q := sqrt (1 + a ^ 2)) in *.
  assert (Hd : 0 < 1.15 * q) by lra.
  assert (Ht : (1 - Cv2) / 3.6455 <= (1 - Cv2) / (1.15 * q)).
  { unfold Rdiv. apply Rmult_le_compat_l; [lra |].
    apply Rinv_le_contravar; lra. }
  destruct Hcase as [Hle | [Hc2 Hq]].
  - assert (0 <= (1 - Cv2) / 3.6455).
    { apply Rmult_le_pos; [lra |]. left. apply Rinv_0_lt_compat. lra. }
    lra.
  - assert (Hpoly : 1.248 * (Cv2 * Cv2) <= Cv2 + (1 - Cv2) / 3.6455).
    { unfold Rdiv. 
      assert (0.274 < / 3.6455).
      { apply (Rmult_lt_reg_r 3.6455); [lra |].
        rewrite Rinv_l by lra. lra. }
      nra. }
    lra.
Qed.

(** What the first block of [calc_plate_girder_shear_detailed] returns. *)
Lemma shear_detailed_kv_cases (hw_ : R) (stiff_spacing : option R)
  (kv : R) (hs : bool) (a_h : ExtR) :
  match stiff_spacing with
  | None => Ok (5.34, false, Infinity)
  | Some spacing =>
      if Rle_dec spacing 0 then Ok (5.34, false, Infinity)
      else
        a <- truediv spacing hw_ ;;
        if Rle_dec a 3.0
        then q <- truediv 5 (a ^ 2) ;; Ok (5 + q, true, Finite a)
        else Ok (5.34, true, Finite a)
  end = Ok (kv, hs, a_h) ->
  0 < kv
  /\ ((hs = false /\ a_h = Infinity /\ kv = 5.34)
      \/ (hs = true
          /\ exists spacing,
               stiff_spacing = Some spacing /\ 0 < spacing /\ hw_ <> 0
               /\ a_h = Finite (spacing / hw_)
               /\ kv = (if Rle_dec (spacing / hw_) 3.0
                        then 5 + 5 / (spacing / hw_) ^ 2 else 5.34))).
Proof.
  intros H.
  destruct stiff_spacing as [spacing |].
  - destruct (Rle_dec spacing 0) as [Hle | Hgt].
    + apply Ok_inj in H.
      assert (kv = 5.34 /\ hs = false /\ a_h = Infinity)
        as (-> & -> & ->) by (repeat split; congruence).
      split; [lra | left; repeat split].
    + run_bind H. apply truediv_inv in E. destruct E as [Hhw ->].
      destruct (Rle_dec (spacing / hw_) 3.0) as [H3 | H3].
      * run_bind H. apply truediv_inv in E. destruct E as [Ha2 ->].
        apply Ok_inj in H.
        assert (kv = 5 + 5 / (spacing / hw_) ^ 2 /\ hs = true
                /\ a_h = Finite (spacing / hw_))
          as (-> & -> & ->) by (repeat split; congruence).
        split.
        -- assert (0 < (spacing / hw_) ^ 2).
           { pose proof (pow2_ge_0 (spacing / hw_)). lra. }
           assert (0 < 5 / (spacing / hw_) ^ 2)
             by (apply Rdiv_lt_0_compat; lra).
           lra.
        -- right. split; [reflexivity |]. exists spacing.
           split; [reflexivity |]. split; [lra |]. split; [exact Hhw |].
           split; [reflexivity |].
           destruct (Rle_dec (spacing / hw_) 3.0); [reflexivity | contradiction].
      * apply Ok_inj in H.
        assert (kv = 5.34 /\ hs = true /\ a_h = Finite (spacing / hw_))
          as (-> & -> & ->) by (repeat split; congruence).
        split; [lra |]. right. split; [reflexivity |]. exists spacing.
        split; [reflexivity |]. split; [lra |]. split; [exact Hhw |].
        split; [reflexivity |].
        destruct (Rle_dec (spacing / hw_) 3.0); [contradiction | reflexivity].
  - apply Ok_inj in H.
    assert (kv = 5.34 /\ hs = false /\ a_h = Infinity)
      as (-> & -> & ->) by (repeat split; congruence).
    split; [lra | left; repeat split].
Qed.

Ltac tfa_off E :=
  apply Ok_inj in E;
  match type of E with
  | (false, _, ?t) = (?tfa, _, ?te) =>
      assert (tfa = false) by congruence;
      assert (te = t) by congruence;
      subst tfa te; cbn [tfa_applicable];
      split; [repeat split | intros; lra]
  end.

(** X24. Whatever [calc_plate_girder_shear_detailed] returns is
    consistent: the allowable strength is the governing nominal strength
    over the governing safety factor; the strength without tension-field
    action is [0.6 * Fy * Aw * Cv1 / 1000]; tension-field action is
    reported as applicable exactly when it governs, which happens only
    with stiffeners on a panel that is not an end panel, with the factor
    1.67 and the tension-field strength, while otherwise the factor is
    1.50 and the strength without tension-field action governs.  On a
    positive yield strength and positive web dimensions the governing
    nominal strength is never below the one without tension-field
    action. *)
Theorem shear_detailed_governing (sec : Section) (Fy : R)
  (stiff_spacing : option R) (end_panel : bool) (r : ShearResults) :
  calc_plate_girder_shear_detailed sec Fy stiff_spacing end_panel = Ok r ->
  let g := res_governing r in
  gov_Va g = gov_Vn g / gov_Omega_v g
  /\ no_tfa_Vn (res_shear_no_tfa r)
     = 0.6 * Fy * (hw sec * tw sec) * cv1_value (res_Cv1 r) / 1000
  /\ (if tfa_applicable (res_shear_tfa r)
      then gov_method g = WithTFA /\ gov_Omega_v g = 1.67
           /\ end_panel = false /\ kv_has_stiffeners (res_kv r) = true
           /\ exists Cv2, res_shear_tfa r = TfaApplicable (gov_Vn g) Cv2
      else gov_method g = WithoutTFA /\ gov_Omega_v g = 1.50
           /\ gov_Vn g = no_tfa_Vn (res_shear_no_tfa r))
  /\ (0 < Fy -> 0 < hw sec -> 0 < tw sec ->
      no_tfa_Vn (res_shear_no_tfa r) <= gov_Vn g).
Proof.
  intros H. unfold calc_plate_girder_shear_detailed in H.
  run_bind H. rename v into h_tw.
  apply truediv_inv in E. destruct E as [Htw Hh_tw].
  run_bind H. destruct v as [[kv hs] a_h]. cbv iota beta in H.
  apply shear_detailed_kv_cases in E. destruct E as [Hkv Hcases].
  run_bind H. rename v into q1.
  apply truediv_inv in E. destruct E as [HFy0 Hq1].
  run_bind H. rename v into s1. rename E into Es1.
  run_bind H. destruct v as [Cv1 cv_case]. cbv iota beta in H.
  rename E into ECv.
  run_bind H. destruct v as [[tfa Vn2] tfa_entry]. cbv iota beta in H.
  rename E into Etfa.
  apply Ok_inj in H. subst r.
  cbn [res_governing res_shear_no_tfa res_Cv1 res_shear_tfa res_kv
       gov_Va gov_Vn gov_Omega_v gov_method no_tfa_Vn cv1_value
       kv_has_stiffeners].
  split; [reflexivity |]. split; [reflexivity |].
  destruct (hs && ext_le a_h 3.0) eqn:Hc; [| tfa_off Etfa].
  apply andb_prop in Hc. destruct Hc as [Hhs Hext].
  destruct a_h as [a |]; [| tfa_off Etfa].
  run_bind Etfa. rename v into r0. clear E.
  destruct (Rle_dec a (r0 ^ 2)) as [Hah | Hah]; [| tfa_off Etfa].
  destruct end_panel; cbn [negb] in Etfa; [tfa_off Etfa |].
  run_bind Etfa. rename v into Cv2. rename E into ECv2.
  run_bind Etfa. rename v into s. rename E into Es.
  run_bind Etfa. rename v into t.
  apply truediv_inv in E. destruct E as [_ Ht].
  apply Ok_inj in Etfa.
  assert (Htfa : tfa = true) by congruence.
  assert (HVn2 : Vn2 = 0.6 * Fy * (hw sec * tw sec) * (Cv2 + t) / 1000)
    by congruence.
  assert (Hentry : tfa_entry = TfaApplicable Vn2 Cv2) by congruence.
  subst tfa tfa_entry. cbn [tfa_applicable].
  split.
  { split; [reflexivity |]. split; [reflexivity |]. split; [reflexivity |].
    split; [exact Hhs |]. exists Cv2. reflexivity. }
  intros HFy Hhw Htwpos.
  destruct Hcases as [[Hf _] | [_ (spacing & _ & Hsp & _ & Ha & _)]];
    [congruence |].
  assert (Haeq : a = spacing / hw sec) by congruence.
  assert (Hapos : 0 < a).
  { rewrite Haeq. apply Rdiv_lt_0_compat; assumption. }
  assert (Ha3 : a <= 3).
  { cbn [ext_le] in Hext. destruct (Rle_dec a 3.0); [lra | discriminate]. }
  assert (Hq1pos : 0 < q1).
  { rewrite Hq1. unfold E_STEEL. apply Rdiv_lt_0_compat; lra. }
  rewrite math_sqrt_ok in Es1 by lra. apply Ok_inj in Es1.
  assert (Hs1 : 0 < s1) by (rewrite <- Es1; apply sqrt_lt_R0; exact Hq1pos).
  assert (Hss : s1 * s1 * Fy = kv * E_STEEL).
  { rewrite <- Es1. rewrite sqrt_sqrt by lra. rewrite Hq1. field. lra. }
  assert (Hh : 0 < h_tw).
  { rewrite Hh_tw. apply Rdiv_lt_0_compat; assumption. }
  assert (Hs_eq : s = sqrt (1 + a ^ 2)).
  { assert (0 <= 1 + a ^ 2) by (pose proof (pow2_ge_0 a); lra).
    rewrite math_sqrt_ok in Es by assumption. congruence. }
  assert (Hfac : Cv1 <= Cv2 + (1 - Cv2) / (1.15 * sqrt (1 + a ^ 2))).
  { apply tfa_factor_ge; [lra | |].
    - destruct (Rle_dec h_tw (1.10 * s1)) as [H1 | H1].
      + apply Ok_inj in ECv2. lra.
      + apply truediv_inv in ECv2. destruct ECv2 as [_ ->].
        apply quotient_bounds; lra.
    - destruct (Rle_dec h_tw (1.10 * s1)) as [H1 | H1].
      + apply Ok_inj in ECv2. apply Ok_inj in ECv.
        assert (Cv1 = 1.0) by congruence. left. lra.
      + apply truediv_inv in ECv2. destruct ECv2 as [_ HCv2].
        destruct (Rle_dec h_tw (1.37 * s1)) as [H2 | H2].
        * run_bind ECv. apply truediv_inv in E. destruct E as [_ Hv].
          apply Ok_inj in ECv. assert (Cv1 = v) by congruence.
          left. lra.
        * run_bind ECv. apply truediv_inv in E. destruct E as [_ Hv].
          apply Ok_inj in ECv. assert (HCv1 : Cv1 = v) by congruence.
          right.
          assert (Hu : 0 < s1 / h_tw) by (apply Rdiv_lt_0_compat; lra).
          assert (Hu1 : 1.37 * (s1 / h_tw) <= 1).
          { apply (Rmult_le_reg_r h_tw); [exact Hh |].
            replace (1.37 * (s1 / h_tw) * h_tw) with (1.37 * s1)
              by (field; lra).
            lra. }
          assert (HCv2u : Cv2 = 1.10 * (s1 / h_tw)).
          { rewrite HCv2. field. lra. }
          assert (HCv1u : Cv1 = 1.51 * ((s1 / h_tw) * (s1 / h_tw))).
          { rewrite HCv1, Hv.
            replace (1.51 * kv * E_STEEL) with (1.51 * (s1 * s1 * Fy))
              by (rewrite Hss; ring).
            field. lra. }
          assert (Hu2 : 0 <= (s1 / h_tw) * (s1 / h_tw))
            by (apply Rmult_le_pos; lra).
          rewrite HCv2u, HCv1u. split; [lra |].
          assert (Hsq : 1.10 * (s1 / h_tw) * (1.10 * (s1 / h_tw))
                        = 1.21 * ((s1 / h_tw) * (s1 / h_tw))).
          { lra. }
          rewrite Hsq. lra. }
  cbv iota. rewrite HVn2, Ht, Hs_eq.
  assert (Hc0 : 0 <= 0.6 * Fy * (hw sec * tw sec)).
  { assert (0 < hw sec * tw sec) by (apply Rmult_lt_0_compat; assumption).
    assert (0 < Fy * (hw sec * tw sec))
      by (apply Rmult_lt_0_compat; assumption).
    lra. }
  apply Rmult_le_compat_r; [lra |].
  apply Rmult_le_compat_l; assumption.
Qed.

(** On a positive yield strength and positive web dimensions
    [calc_plate_girder_shear_detailed] raises nothing. *)
Lemma shear_detailed_defined (sec : Section) (Fy : R)
  (stiff_spacing : option R) (end_panel : bool) :
  0 < Fy -> 0 < hw sec -> 0 < tw sec ->
  exists r,
    calc_plate_girder_shear_detailed sec Fy stiff_spacing end_panel = Ok r.
Proof.
  intros HFy Hhw Htw.
  assert (Hh : 0 < hw sec / tw sec) by (apply Rdiv_lt_0_compat; assumption).
  unfold calc_plate_girder_shear_detailed.
  rewrite (truediv_ok (hw sec) (tw sec)) by lra. cbn [bind].
  assert (Hkv : exists kv hs a_h,
             match stiff_spacing with
             | None => Ok (5.34, false, Infinity)
             | Some spacing =>
                 if Rle_dec spacing 0 then Ok (5.34, false, Infinity)
                 else
                   a <- truediv spacing (hw sec) ;;
                   if Rle_dec a 3.0
                   then q <- truediv 5 (a ^ 2) ;; Ok (5 + q, true, Finite a)
                   else Ok (5.34, true, Finite a)
             end = Ok (kv, hs, a_h)
             /\ 0 < kv).
  { destruct stiff_spacing as [spacing |].
    - destruct (Rle_dec spacing 0) as [Hle | Hgt].
      + do 3 eexists. split; [reflexivity | lra].
      + rewrite truediv_ok by lra. cbn [bind].
        assert (Ha : 0 < spacing / hw sec)
          by (apply Rdiv_lt_0_compat; lra).
        destruct (Rle_dec (spacing / hw sec) 3.0).
        * assert (Ha2 : 0 < (spacing / hw sec) ^ 2)
            by (apply pow_lt; exact Ha).
          rewrite truediv_ok by lra. cbn [bind].
          do 3 eexists. split; [reflexivity |].
          assert (0 < 5 / (spacing / hw sec) ^ 2)
            by (apply Rdiv_lt_0_compat; lra).
          lra.
        * do 3 eexists. split; [reflexivity | lra].
    - do 3 eexists. split; [reflexivity | lra]. }
  destruct Hkv as (kv & hs & a_h & -> & Hkv). cbn [bind]. cbv iota beta.
  assert (Hq : 0 < kv * E_STEEL / Fy).
  { unfold E_STEEL. apply Rdiv_lt_0_compat; lra. }
  rewrite (truediv_ok (kv * E_STEEL) Fy) by lra. cbn [bind].
  rewrite math_sqrt_ok by lra. cbn [bind].
  assert (Hs : 0 < sqrt (kv * E_STEEL / Fy)) by (apply sqrt_lt_R0; exact Hq).
  assert (HCv : exists Cv1 cv_case,
             (if Rle_dec (hw sec / tw sec) (1.10 * sqrt (kv * E_STEEL / Fy))
              then Ok (1.0, CvUnity)
              else if Rle_dec (hw sec / tw sec)
                        (1.37 * sqrt (kv * E_STEEL / Fy))
              then c <- truediv (1.10 * sqrt (kv * E_STEEL / Fy))
                          (hw sec / tw sec) ;;
                   Ok (c, CvInelastic)
              else c <- truediv (1.51 * kv * E_STEEL)
                          ((hw sec / tw sec) ^ 2 * Fy) ;;
                   Ok (c, CvElastic))
             = Ok (Cv1, cv_case)).
  { destruct (Rle_dec _ _).
    - do 2 eexists. reflexivity.
    - destruct (Rle_dec _ _).
      + rewrite truediv_ok by lra. cbn [bind]. do 2 eexists. reflexivity.
      + assert (0 < (hw sec / tw sec) ^ 2) by (apply pow_lt; exact Hh).
        assert (0 < (hw sec / tw sec) ^ 2 * Fy)
          by (apply Rmult_lt_0_compat; assumption).
        rewrite truediv_ok by lra. cbn [bind]. do 2 eexists. reflexivity. }
  destruct HCv as (Cv1 & cv_case & ->). cbn [bind]. cbv iota beta.
  destruct (hs && ext_le a_h 3.0);
    [| cbn [bind]; cbv iota beta; eexists; reflexivity].
  destruct a_h as [a |]; [| cbn [bind]; cbv iota beta; eexists; reflexivity].
  rewrite (truediv_ok 260 (hw sec / tw sec)) by lra. cbn [bind].
  destruct (Rle_dec a _);
    [| cbn [bind]; cbv iota beta; eexists; reflexivity].
  destruct end_panel; cbn [negb];
    [cbn [bind]; cbv iota beta; eexists; reflexivity |].
  assert (H1a : 1 <= 1 + a ^ 2) by (pose proof (pow2_ge_0 a); lra).
  assert (Hsq : 0 < sqrt (1 + a ^ 2)) by (apply sqrt_lt_R0; lra).
  destruct (Rle_dec (hw sec / tw sec) (1.10 * sqrt (kv * E_STEEL / Fy))).
  - cbn [bind]. rewrite math_sqrt_ok by lra. cbn [bind].
    rewrite truediv_ok by lra. cbn [bind]. cbv iota beta.
    eexists. reflexivity.
  - rewrite truediv_ok by lra. cbn [bind].
    rewrite math_sqrt_ok by lra. cbn [bind].
    rewrite truediv_ok by lra. cbn [bind]. cbv iota beta.
    eexists. reflexivity.
Qed.

Lemma shear_detailed_governing_witness :
  exists r,
    calc_plate_girder_shear_detailed slender_girder 320 (Some 3000) false
    = Ok r
    /\ gov_Va (res_governing r)
       = gov_Vn (res_governing r) / gov_Omega_v (res_governing r)
    /\ no_tfa_Vn (res_shear_no_tfa r) <= gov_Vn (res_governing r).
Proof.
  destruct (shear_detailed_defined slender_girder 320 (Some 3000) false)
    as [r Hr]; [lra | cbn [slender_girder hw]; lra
                | cbn [slender_girder tw]; lra |].
  exists r. split; [exact Hr |].
  destruct (shear_detailed_governing slender_girder 320 (Some 3000) false r Hr)
    as (HVa & _ & _ & Hge).
  split; [exact HVa |].
  apply Hge; [lra | cbn [slender_girder hw]; lra
              | cbn [slender_girder tw]; lra].
Defined.

Lemma Rpos_b_pos (x : R) : 0 < x -> Rpos_b x = true.
Proof.
  intros H. unfold Rpos_b. destruct (Rlt_dec 0 x); [reflexivity | lra].
Qed.

(** The tension-field block of [calc_plate_girder_shear_detailed] raises
    nothing on a web ratio that is not zero. *)
Lemma shear_tfa_block_defined (Fy Aw h_tw limit1 Vn1 : R) (hs : bool)
  (a_h : ExtR) (end_panel : bool) :
  h_tw <> 0 ->
  exists x,
    (if hs && ext_le a_h 3.0 then
       match a_h with
       | Finite a =>
           r <- truediv 260 h_tw ;;
           let limit_ah := r ^ 2 in
           if Rle_dec a limit_ah then
             if negb end_panel then
               Cv2 <- (if Rle_dec h_tw limit1 then Ok 1.0
                       else truediv limit1 h_tw) ;;
               s <- math_sqrt (1 + a ^ 2) ;;
               t <- truediv (1 - Cv2) (1.15 * s) ;;
               let Vn2 := 0.6 * Fy * Aw * (Cv2 + t) / 1000 in
               Ok (true, Vn2, TfaApplicable Vn2 Cv2)
             else Ok (false, Vn1, TfaEndPanel)
           else Ok (false, Vn1, TfaAspectLimit a limit_ah)
       | Infinity => Ok (false, Vn1, TfaNoStiffeners)
       end
     else Ok (false, Vn1, TfaNoStiffeners)) = Ok x.
Proof.
  intros Hh.
  destruct (hs && ext_le a_h 3.0); [| eexists; reflexivity].
  destruct a_h as [a |]; [| eexists; reflexivity].
  rewrite (truediv_ok 260 h_tw) by exact Hh. cbn [bind]. cbv zeta.
  destruct (Rle_dec a _); [| eexists; reflexivity].
  destruct end_panel; cbn [negb]; [eexists; reflexivity |].
  assert (H1a : 1 <= 1 + a ^ 2) by (pose proof (pow2_ge_0 a); lra).
  assert (Hsq : 0 < sqrt (1 + a ^ 2)) by (apply sqrt_lt_R0; lra).
  destruct (Rle_dec h_tw limit1).
  - cbn [bind]. rewrite math_sqrt_ok by lra. cbn [bind].
    rewrite truediv_ok by lra. cbn [bind]. eexists. reflexivity.
  - rewrite (truediv_ok limit1 h_tw) by exact Hh. cbn [bind].
    rewrite math_sqrt_ok by lra. cbn [bind].
    rewrite truediv_ok by lra. cbn [bind]. eexists. reflexivity.
Qed.

(** X25. With transverse stiffeners at a positive spacing, on a web of
    positive depth at least 1 mm thick and a positive yield strength, the
    detailed calculation returns, its buckling coefficient is reported as
    the stiffened one, and [calc_Vn] returns the strength without
    tension-field action and the coefficient [Cv1] of the detailed
    results, for end panels and interior panels alike. *)
Theorem shear_detailed_agrees_with_calc_Vn_stiffened (sec : Section)
  (Fy spacing : R) (end_panel : bool) :
  1 <= tw sec -> 0 < hw sec -> 0 < Fy -> 0 < spacing ->
  exists r,
    calc_plate_girder_shear_detailed sec Fy (Some spacing) end_panel = Ok r
    /\ kv_has_stiffeners (res_kv r) = true
    /\ calc_Vn sec Fy true spacing
       = Ok (no_tfa_Vn (res_shear_no_tfa r), cv1_value (res_Cv1 r)).
Proof.
  intros Htw Hhw HFy Hsp.
  assert (Hh : 0 < hw sec / tw sec) by (apply Rdiv_lt_0_compat; lra).
  assert (Ha : 0 < spacing / hw sec) by (apply Rdiv_lt_0_compat; lra).
  assert (Ha2 : 0 < (spacing / hw sec) ^ 2) by (apply pow_lt; exact Ha).
  unfold calc_Vn, calc_Vn_plate_girder, calc_plate_girder_shear_detailed.
  rewrite (max2_left (tw sec) 1) by exact Htw.
  rewrite (Rpos_b_pos spacing Hsp), (Rpos_b_pos (hw sec) Hhw).
  cbn [andb].
  rewrite (truediv_ok (hw sec) (tw sec)) by lra. cbn [bind].
  destruct (Rle_dec spacing 0) as [Hc | _]; [lra |].
  rewrite (truediv_ok spacing (hw sec)) by lra. cbn [bind].
  assert (Hkv : exists kv,
             0 < kv
             /\ (if Rle_dec (spacing / hw sec) 3.0
                 then q <- truediv 5 ((spacing / hw sec) ^ 2) ;;
                      Ok (5 + q, true, Finite (spacing / hw sec))
                 else Ok (5.34, true, Finite (spacing / hw sec)))
                = Ok (kv, true, Finite (spacing / hw sec))
             /\ (if Rle_dec (spacing / hw sec) 3
                 then q <- truediv 5 ((spacing / hw sec) ^ 2) ;; Ok (5 + q)
                 else Ok 5.34) = Ok kv).
  { assert (0 < 5 / (spacing / hw sec) ^ 2)
      by (apply Rdiv_lt_0_compat; lra).
    destruct (Rle_dec (spacing / hw sec) 3.0) as [H3 | H3];
      destruct (Rle_dec (spacing / hw sec) 3) as [H3' | H3']; try lra.
    - rewrite truediv_ok by lra. cbn [bind].
      eexists. split; [| split; reflexivity]. lra.
    - eexists. split; [| split; reflexivity]. lra. }
  destruct Hkv as (kv & Hkv & -> & ->). cbn [bind]. cbv iota beta.
  assert (Hq : 0 < kv * E_STEEL / Fy).
  { unfold E_STEEL. apply Rdiv_lt_0_compat; lra. }
  rewrite (truediv_ok (kv * E_STEEL) Fy) by lra. cbn [bind].
  rewrite math_sqrt_ok by lra. cbn [bind].
  assert (Hs : 0 < sqrt (kv * E_STEEL / Fy)) by (apply sqrt_lt_R0; exact Hq).
  assert (Hne : hw sec / tw sec <> 0) by lra.
  assert (HCv : exists Cv1 cv_case,
             (if Rle_dec (hw sec / tw sec) (1.10 * sqrt (kv * E_STEEL / Fy))
              then Ok (1.0, CvUnity)
              else if Rle_dec (hw sec / tw sec)
                        (1.37 * sqrt (kv * E_STEEL / Fy))
              then c <- truediv (1.10 * sqrt (kv * E_STEEL / Fy))
                          (hw sec / tw sec) ;;
                   Ok (c, CvInelastic)
              else c <- truediv (1.51 * kv * E_STEEL)
                          ((hw sec / tw sec) ^ 2 * Fy) ;;
                   Ok (c, CvElastic))
             = Ok (Cv1, cv_case)
             /\ (if Rle_dec (hw sec / tw sec)
                      (1.10 * sqrt (kv * E_STEEL / Fy))
                 then Ok 1.0
                 else if Rle_dec (hw sec / tw sec)
                           (1.37 * sqrt (kv * E_STEEL / Fy))
                 then truediv (1.10 * sqrt (kv * E_STEEL / Fy))
                        (hw sec / tw sec)
                 else truediv (1.51 * kv * E_STEEL)
                        ((hw sec / tw sec) ^ 2 * Fy))
                = Ok Cv1).
  { destruct (Rle_dec _ _).
    - do 2 eexists. split; reflexivity.
    - destruct (Rle_dec _ _).
      + rewrite truediv_ok by lra. cbn [bind].
        do 2 eexists. split; reflexivity.
      + assert (0 < (hw sec / tw sec) ^ 2) by (apply pow_lt; exact Hh).
        assert (0 < (hw sec / tw sec) ^ 2 * Fy)
          by (apply Rmult_lt_0_compat; assumption).
        rewrite truediv_ok by lra. cbn [bind].
        do 2 eexists. split; reflexivity. }
  destruct HCv as (Cv1 & cv_case & -> & ->). cbn [bind]. cbv iota beta.
  destruct (shear_tfa_block_defined Fy (hw sec * tw sec) (hw sec / tw sec)
              (1.10 * sqrt (kv * E_STEEL / Fy))
              (0.6 * Fy * (hw sec * tw sec) * Cv1 / 1000)
              true (Finite (spacing / hw sec)) end_panel Hne)
    as ([[tfa Vn2] tfa_entry] & Hblock).
  cbv zeta in Hblock. rewrite Hblock. cbn [bind]. cbv iota beta.
  eexists. split; [reflexivity |].
  cbn [res_kv kv_has_stiffeners res_shear_no_tfa no_tfa_Vn res_Cv1 cv1_value].
  split; reflexivity.
Qed.

Lemma shear_detailed_agrees_with_calc_Vn_stiffened_witness :
  exists r,
    calc_plate_girder_shear_detailed slender_girder 320 (Some 3000) false
    = Ok r
    /\ kv_has_stiffeners (res_kv r) = true
    /\ calc_Vn slender_girder 320 true 3000
       = Ok (no_tfa_Vn (res_shear_no_tfa r), cv1_value (res_Cv1 r)).
Proof.
  apply (shear_detailed_agrees_with_calc_Vn_stiffened slender_girder 320
           3000 false).
  - cbn [slender_girder tw]. lra.
  - cbn [slender_girder hw]. lra.
  - lra.
  - lra.
Defined.

(* ================================================================== *)
(** ** Welds *)
(* ================================================================== *)

Lemma max2_comm (a b : R) : max2 a b = max2 b a.
Proof.
  unfold max2. destruct (Rlt_dec a b); destruct (Rlt_dec b a); lra.
Qed.

Lemma max2_mono (a b a' b' : R) :
  a <= a' -> b <= b' -> max2 a b <= max2 a' b'.
Proof.
  intros Ha Hb. unfold max2.
  destruct (Rlt_dec a b); destruct (Rlt_dec a' b'); lra.
Qed.

(** X26. The minimum fillet weld size does not depend on the order in
    which the two thicknesses are given, it never decreases when a
    thickness grows, and it is one of 3, 5, 6 and 8 mm, the value being
    set by the thicker part: at most 6.35 mm gives 3, at most 12.7 mm
    gives 5, at most 19.05 mm gives 6, anything thicker 8. *)
Theorem check_minimum_weld_size_thicker_part (t1 t2 : R) :
  check_minimum_weld_size t1 t2 = check_minimum_weld_size t2 t1
  /\ (forall t1' t2' : R,
        t1 <= t1' -> t2 <= t2' ->
        (check_minimum_weld_size t1 t2 <= check_minimum_weld_size t1' t2')%Z)
  /\ (check_minimum_weld_size t1 t2 = 3%Z <-> Rmax t1 t2 <= 6.35)
  /\ (check_minimum_weld_size t1 t2 = 5%Z <-> 6.35 < Rmax t1 t2 <= 12.7)
  /\ (check_minimum_weld_size t1 t2 = 6%Z <-> 12.7 < Rmax t1 t2 <= 19.05)
  /\ (check_minimum_weld_size t1 t2 = 8%Z <-> 19.05 < Rmax t1 t2).
Proof.
  split; [| split].
  - unfold check_minimum_weld_size. rewrite (max2_comm t1 t2). reflexivity.
  - intros t1' t2' H1 H2.
    pose proof (max2_mono t1 t2 t1' t2' H1 H2) as Hm.
    unfold check_minimum_weld_size.
    destruct (Rle_dec (max2 t1 t2) 6.35);
      destruct (Rle_dec (max2 t1 t2) 12.7);
      destruct (Rle_dec (max2 t1 t2) 19.05);
      destruct (Rle_dec (max2 t1' t2') 6.35);
      destruct (Rle_dec (max2 t1' t2') 12.7);
      destruct (Rle_dec (max2 t1' t2') 19.05);
      try lia; exfalso; lra.
  - unfold check_minimum_weld_size. rewrite <- max2_Rmax.
    destruct (Rle_dec (max2 t1 t2) 6.35);
      destruct (Rle_dec (max2 t1 t2) 12.7);
      destruct (Rle_dec (max2 t1 t2) 19.05);
      repeat split; intros; try lia; try lra; try reflexivity;
      exfalso; lra.
Qed.

Lemma check_minimum_weld_size_thicker_part_witness :
  check_minimum_weld_size 10 20 = check_minimum_weld_size 20 10
  /\ (check_minimum_weld_size 10 20 <= check_minimum_weld_size 12 25)%Z
  /\ check_minimum_weld_size 10 20 = 8%Z.
Proof.
  destruct (check_minimum_weld_size_thicker_part 10 20)
    as (Hs & Hm & _ & _ & _ & H8).
  split; [exact Hs |]. split; [apply Hm; lra |].
  apply H8. unfold Rmax. destruct (Rle_dec 10 20); lra.
Defined.

Lemma status_le_OK (x y : R) : status_le x y = "OK"%string <-> x <= y.
Proof.
  unfold status_le. destruct (Rle_dec x y) as [H | H].
  - split; [intros _; exact H | reflexivity].
  - split; [discriminate | contradiction].
Qed.

Lemma status_le_NG (x y : R) : status_le x y = "NG"%string <-> y < x.
Proof.
  unfold status_le. destruct (Rle_dec x y) as [H | H].
  - split; [discriminate | lra].
  - split; [lra | reflexivity].
Qed.

(** X27. [calc_weld_design] raises [ZeroDivisionError] on a section
    whose [Ix] is zero and returns otherwise.  What it returns does not
    depend on [Fy] and [Fu]; the demand per weld is half the shear flow
    [V * 1000 * Q / Ix]; the capacity is [0.6 * FEXX * 0.707 * w / 2]; if
    the product of electrode strength and weld size is positive the check
    is 'OK' exactly when the demand does not exceed the capacity, and
    otherwise the ratio is 999 and the check is 'NG'; the size checks are
    'OK' exactly when the weld size is at least the minimum size for the
    thicker of web and flanges, and at most [tw - 1.6]. *)
Theorem calc_weld_design_check (sec : Section) (Fy Fu V weld_size FEXX : R) :
  (Ix sec = 0 ->
   calc_weld_design sec Fy Fu V weld_size FEXX = Raise ZeroDivisionError)
  /\ (Ix sec <> 0 ->
      exists r,
        calc_weld_design sec Fy Fu V weld_size FEXX = Ok r
        /\ (forall Fy' Fu' : R,
              calc_weld_design sec Fy' Fu' V weld_size FEXX = Ok r)
        /\ wk_demand (weld_check r)
           = V * 1000
             * (bf_top sec * tf_top sec
                * (d sec - y_bar sec - tf_top sec / 2))
             / Ix sec / 2
        /\ wk_capacity (weld_check r) = 0.6 * FEXX * (0.707 * weld_size) / 2
        /\ (0 < FEXX * weld_size ->
            (wk_status (weld_check r) = "OK"%string
             <-> wk_demand (weld_check r) <= wk_capacity (weld_check r)))
        /\ (FEXX * weld_size <= 0 ->
            wk_ratio (weld_check r) = 999
            /\ wk_status (weld_check r) = "NG"%string)
        /\ (ws_status (weld_minimum_size r) = "OK"%string
            <-> IZR (check_minimum_weld_size (tw sec)
                       (Rmax (tf_top sec) (tf_bot sec))) <= weld_size)
        /\ (ws_status (weld_maximum_size r) = "OK"%string
            <-> weld_size <= tw sec - 1.6)).
Proof.
  split.
  - intros HI. unfold calc_weld_design. rewrite HI, truediv_zero.
    reflexivity.
  - intros HI.
    assert (Hrun : forall Fy' Fu' : R,
               calc_weld_design sec Fy' Fu' V weld_size FEXX
               = calc_weld_design sec Fy Fu V weld_size FEXX)
      by reflexivity.
    unfold calc_weld_design in *.
    rewrite (truediv_ok _ (Ix sec) HI) in *. cbn [bind] in *.
    eexists. split; [reflexivity |]. split; [exact Hrun |].
    cbn [weld_check wk_demand wk_capacity wk_status wk_ratio
         weld_minimum_size weld_maximum_size ws_status].
    split; [reflexivity |]. split; [lra |].
    split; [| split; [| split]].
    + intros Hpos.
      assert (HRa : 0 < 0.6 * FEXX * (0.707 * weld_size) / 2.0) by lra.
      destruct (Rlt_dec 0 (0.6 * FEXX * (0.707 * weld_size) / 2.0))
        as [_ | Hn]; [| contradiction].
      rewrite status_le_OK.
      set (q := V * 1000
                * (bf_top sec * tf_top sec
                   * (d sec - y_bar sec - tf_top sec / 2))
                / Ix sec / 2) in *.
      set (Ra := 0.6 * FEXX * (0.707 * weld_size) / 2.0) in *.
      split; intros H.
      * apply (Rmult_le_compat_r Ra) in H; [| lra].
        replace (q / Ra * Ra) with q in H by (field; lra). lra.
      * apply (Rmult_le_reg_r Ra); [exact HRa |].
        replace (q / Ra * Ra) with q by (field; lra). lra.
    + intros Hnp.
      destruct (Rlt_dec 0 (0.6 * FEXX * (0.707 * weld_size) / 2.0))
        as [Hp | _]; [exfalso; lra |].
      split; [reflexivity |]. apply status_le_NG. lra.
    + rewrite status_le_OK. rewrite <- max2_Rmax. reflexivity.
    + apply status_le_OK.
Qed.

Lemma calc_weld_design_check_witness :
  exists r,
    calc_weld_design ipe300 320 440 500 8 FEXX_default = Ok r
    /\ (forall Fy' Fu' : R,
          calc_weld_design ipe300 Fy' Fu' 500 8 FEXX_default = Ok r)
    /\ wk_capacity (weld_check r) = 0.6 * FEXX_default * (0.707 * 8) / 2
    /\ (wk_status (weld_check r) = "OK"%string
        <-> wk_demand (weld_check r) <= wk_capacity (weld_check r)).
Proof.
  destruct (calc_weld_design_check ipe300 320 440 500 8 FEXX_default)
    as [_ Hok].
  destruct Hok as (r & Hr & Hind & _ & Hcap & Hst & _).
  - cbn [ipe300 Ix]. lra.
  - exists r. split; [exact Hr |]. split; [exact Hind |].
    split; [exact Hcap |]. apply Hst. unfold FEXX_default. lra.
Defined.

(* ================================================================== *)
(** ** Web crippling, web local yielding and the deflection estimate *)
(* ================================================================== *)

Lemma scaled_le (k1 k2 t f1 f2 s : R) :
  0 <= t -> 0 <= s -> k1 * f1 <= k2 * f2 ->
  k1 * t * f1 * s / 1000 <= k2 * t * f2 * s / 1000.
Proof.
  intros Ht Hs Hf.
  replace (k1 * t * f1 * s / 1000) with (k1 * f1 * (t * s / 1000))
    by (unfold Rdiv; ring).
  replace (k2 * t * f2 * s / 1000) with (k2 * f2 * (t * s / 1000))
    by (unfold Rdiv; ring).
  apply Rmult_le_compat_r; [| exact Hf].
  assert (0 <= t * s) by (apply Rmult_le_pos; assumption).
  lra.
Qed.

Lemma scaled_nonneg (k t f s : R) :
  0 <= t -> 0 <= s -> 0 <= k * f -> 0 <= k * t * f * s / 1000.
Proof.
  intros Ht Hs Hf.
  replace (k * t * f * s / 1000) with (k * f * (t * s / 1000))
    by (unfold Rdiv; ring).
  apply Rmult_le_pos; [exact Hf |].
  assert (0 <= t * s) by (apply Rmult_le_pos; assumption).
  lra.
Qed.

(** X28. Web crippling and web local yielding.  [check_wcr] returns the
    marker 999999 as soon as the depth, the flange thickness or the web
    thickness is not positive; on positive dimensions it raises
    [ValueError] for a negative yield strength and returns otherwise.
    For a yield strength and a bearing length that are not negative the
    strength at a support is not negative and does not exceed the one
    under an interior load, which is exactly twice as large while
    [lb/d <= 0.2]; both never decrease when the bearing length grows,
    also across the change of formula at [lb/d = 0.2]; and the web local
    yielding strength of [check_wly] at a support does not exceed the
    interior one. *)
Theorem check_wcr_bearing_length (sec : Section) (Fy lb lb' : R) :
  (d sec <= 0 \/ tf_top sec <= 0 \/ tw sec <= 0 ->
   forall at_sup : bool, check_wcr sec Fy lb at_sup = Ok 999999)
  /\ (0 < d sec -> 0 < tf_top sec -> 0 < tw sec -> Fy < 0 ->
      forall at_sup : bool, check_wcr sec Fy lb at_sup = Raise ValueError)
  /\ (0 < d sec -> 0 < tf_top sec -> 0 < tw sec -> 0 <= Fy ->
      0 <= lb -> lb <= lb' ->
      exists Rs Ri Rs' Ri',
        check_wcr sec Fy lb true = Ok Rs
        /\ check_wcr sec Fy lb false = Ok Ri
        /\ check_wcr sec Fy lb' true = Ok Rs'
        /\ check_wcr sec Fy lb' false = Ok Ri'
        /\ 0 <= Rs <= Ri
        /\ (lb / d sec <= 0.2 -> Ri = 2 * Rs)
        /\ Rs <= Rs'
        /\ Ri <= Ri'
        /\ check_wly sec Fy lb true <= check_wly sec Fy lb false).
Proof.
  split; [| split].
  - intros Hdeg at_sup. unfold check_wcr.
    destruct (Rle_dec (d sec) 0); [reflexivity |].
    destruct (Rle_dec (tf_top sec) 0); [reflexivity |].
    destruct (Rle_dec (tw sec) 0); [reflexivity |].
    exfalso. destruct Hdeg as [H | [H | H]]; lra.
  - intros Hd Htf Htw HFy at_sup. unfold check_wcr.
    destruct (Rle_dec (d sec) 0); [lra |].
    destruct (Rle_dec (tf_top sec) 0); [lra |].
    destruct (Rle_dec (tw sec) 0); [lra |].
    cbn [orb].
    assert (Hneg : E_STEEL * Fy * tf_top sec / tw sec < 0).
    { assert (0 < tf_top sec / tw sec) by (apply Rdiv_lt_0_compat; lra).
      replace (E_STEEL * Fy * tf_top sec / tw sec)
        with (E_STEEL * Fy * (tf_top sec / tw sec))
        by (unfold Rdiv; ring).
      assert (E_STEEL * Fy < 0) by (unfold E_STEEL; lra).
      replace 0 with (E_STEEL * Fy * 0) by ring.
      assert (0 < - (E_STEEL * Fy) * (tf_top sec / tw sec))
        by (apply Rmult_lt_0_compat; lra).
      lra. }
    unfold math_sqrt.
    destruct (Rlt_dec (E_STEEL * Fy * tf_top sec / tw sec) 0)
      as [_ | Hn]; [| contradiction].
    destruct (at_sup && _); [reflexivity |].
    destruct at_sup; reflexivity.
  - intros Hd Htf Htw HFy Hlb Hlb'. unfold check_wcr.
    destruct (Rle_dec (d sec) 0); [lra |].
    destruct (Rle_dec (tf_top sec) 0); [lra |].
    destruct (Rle_dec (tw sec) 0); [lra |].
    cbn [orb andb].
    assert (Hrad : 0 <= E_STEEL * Fy * tf_top sec / tw sec).
    { assert (0 < tf_top sec / tw sec) by (apply Rdiv_lt_0_compat; lra).
      replace (E_STEEL * Fy * tf_top sec / tw sec)
        with (E_STEEL * Fy * (tf_top sec / tw sec))
        by (unfold Rdiv; ring).
      apply Rmult_le_pos; [unfold E_STEEL; lra | lra]. }
    rewrite math_sqrt_ok by exact Hrad. cbn [bind].
    set (s := sqrt (E_STEEL * Fy * tf_top sec / tw sec)).
    assert (Hs : 0 <= s) by apply sqrt_pos.
    set (p := Rpower (tw sec / tf_top sec) 1.5).
    assert (Hp : 0 < p) by apply exp_pos.
    assert (Ht : 0 <= tw sec ^ 2) by apply pow2_ge_0.
    assert (Hx : 0 <= lb / d sec).
    { apply Rmult_le_pos; [exact Hlb |].
      left. apply Rinv_0_lt_compat. exact Hd. }
    assert (Hxx : lb / d sec <= lb' / d sec).
    { apply Rmult_le_compat_r; [| exact Hlb'].
      left. apply Rinv_0_lt_compat. exact Hd. }
    assert (Hxp : 0 <= lb / d sec * p) by (apply Rmult_le_pos; lra).
    assert (Hxxp : lb / d sec * p <= lb' / d sec * p)
      by (apply Rmult_le_compat_r; lra).
    assert (H4 : 4 * lb / d sec = 4 * (lb / d sec)) by (unfold Rdiv; ring).
    assert (H4' : 4 * lb' / d sec = 4 * (lb' / d sec))
      by (unfold Rdiv; ring).
    rewrite H4, H4'.
    assert (Hlo : forall x : R, x <= 0.2 -> x * p <= 0.2 * p)
      by (intros x Hx0; apply Rmult_le_compat_r; lra).
    assert (Hhi : forall x : R, 0.2 <= x -> 0.2 * p <= x * p)
      by (intros x Hx0; apply Rmult_le_compat_r; lra).
    assert (Hwly : check_wly sec Fy lb true <= check_wly sec Fy lb false).
    { unfold check_wly.
      assert (0 <= Fy * tw sec) by (apply Rmult_le_pos; lra).
      apply Rmult_le_compat_r; [lra |].
      apply Rmult_le_compat_l; [assumption | lra]. }
    destruct (Rle_dec (lb / d sec) 0.2) as [H1 | H1];
      destruct (Rle_dec (lb' / d sec) 0.2) as [H2 | H2];
      try (exfalso; lra);
      (do 4 eexists;
       split; [reflexivity |]; split; [reflexivity |];
       split; [reflexivity |]; split; [reflexivity |];
       split; [split; [apply scaled_nonneg | apply scaled_le] |];
       [.. | split; [intros H02; try lra
                    | split; [apply scaled_le | split;
                                [apply scaled_le | exact Hwly]]]]);
      try assumption;
      try (pose proof (Hlo _ H1)); try (pose proof (Hlo _ H2));
      try (assert (0.2 * p <= lb / d sec * p) by (apply Hhi; lra));
      try (assert (0.2 * p <= lb' / d sec * p) by (apply Hhi; lra));
      try lra.
Qed.

Lemma check_wcr_bearing_length_witness :
  exists Rs Ri Rs' Ri',
    check_wcr boundary_web_section 320 100 true = Ok Rs
    /\ check_wcr boundary_web_section 320 100 false = Ok Ri
    /\ check_wcr boundary_web_section 320 300 true = Ok Rs'
    /\ check_wcr boundary_web_section 320 300 false = Ok Ri'
    /\ 0 <= Rs <= Ri
    /\ (100 / d boundary_web_section <= 0.2 -> Ri = 2 * Rs)
    /\ Rs <= Rs'
    /\ Ri <= Ri'
    /\ check_wly boundary_web_section 320 100 true
       <= check_wly boundary_web_section 320 100 false.
Proof.
  apply (check_wcr_bearing_length boundary_web_section 320 100 300).
  - cbn [boundary_web_section d]. lra.
  - cbn [boundary_web_section tf_top]. lra.
  - cbn [boundary_web_section tw]. lra.
  - lra.
  - lra.
  - lra.
Defined.

(** X29. [calc_defl] returns the marker 9999 for a section whose [Ix] is
    not positive, whatever the other arguments are.  With [Ix > 0] it
    raises [ZeroDivisionError] for a span of zero and a negative wheel
    base.  With [Ix > 0], a positive span and a load and a wheel base
    that are not negative it returns; [d0] being
    [P_N * L_mm^3 / (48 * E * Ix)], the midspan deflection under the
    single load [P], the result lies between twice and three times [d0]
    for a wheel base shorter than the span and is [d0] itself for a wheel
    base that reaches the span. *)
Theorem calc_defl_range (sec : Section) (P L a : R) :
  (Ix sec <= 0 -> calc_defl sec P L a = Ok 9999)
  /\ (0 < Ix sec -> L = 0 -> a < 0 ->
      calc_defl sec P L a = Raise ZeroDivisionError)
  /\ (0 < Ix sec -> 0 < L -> 0 <= P -> 0 <= a ->
      let d0 := P * 1000 * (L * 1000) ^ 3 / (48 * E_STEEL * Ix sec) in
      exists dl,
        calc_defl sec P L a = Ok dl
        /\ 0 <= d0
        /\ (a < L -> 2 * d0 <= dl <= 3 * d0)
        /\ (L <= a -> dl = d0)).
Proof.
  split; [| split].
  - intros HI. unfold calc_defl.
    destruct (Rle_dec (Ix sec) 0); [reflexivity | contradiction].
  - intros HI HL Ha. unfold calc_defl.
    destruct (Rle_dec (Ix sec) 0) as [Hc | _]; [lra |].
    destruct (Rlt_dec (a * 1000) (L * 1000)) as [_ | Hn]; [| lra].
    rewrite HL. replace (2 * (0 * 1000)) with 0 by ring.
    rewrite truediv_zero. reflexivity.
  - intros HI HL HP Ha d0.
    assert (Hd0 : 0 <= d0).
    { unfold d0.
      assert (0 <= (L * 1000) ^ 3) by (apply pow_le; lra).
      assert (0 < 48 * E_STEEL * Ix sec).
      { unfold E_STEEL. apply Rmult_lt_0_compat; lra. }
      apply Rmult_le_pos.
      - apply Rmult_le_pos; [lra | assumption].
      - left. apply Rinv_0_lt_compat. assumption. }
    unfold calc_defl.
    destruct (Rle_dec (Ix sec) 0) as [Hc | _]; [lra |].
    fold d0.
    destruct (Rlt_dec (a * 1000) (L * 1000)) as [Hlt | Hge].
    + rewrite truediv_ok by lra. cbn [bind].
      eexists. split; [reflexivity |]. split; [exact Hd0 |].
      split; [| intros; lra].
      intros _.
      set (q := a * 1000 / (2 * (L * 1000))).
      assert (Hq : 0 <= q <= 1 / 2).
      { unfold q. apply quotient_bounds; lra. }
      assert (Hsq : 0 <= q ^ 2 <= 1 / 4).
      { split; [apply pow2_ge_0 |].
        replace (q ^ 2) with (q * q) by ring.
        replace (1 / 4) with (1 / 2 * (1 / 2)) by lra.
        apply Rmult_le_compat; lra. }
      split.
      * replace (2 * d0) with (d0 * 2) by ring.
        apply Rmult_le_compat_l; lra.
      * replace (3 * d0) with (d0 * 3) by ring.
        apply Rmult_le_compat_l; lra.
    + eexists. split; [reflexivity |]. split; [exact Hd0 |].
      split; [intros; lra | intros _; reflexivity].
Qed.

Lemma calc_defl_range_witness :
  exists dl,
    calc_defl ipe300 100 6 3 = Ok dl
    /\ 0 <= 100 * 1000 * (6 * 1000) ^ 3 / (48 * E_STEEL * Ix ipe300)
    /\ 2 * (100 * 1000 * (6 * 1000) ^ 3 / (48 * E_STEEL * Ix ipe300)) <= dl
    /\ dl <= 3 * (100 * 1000 * (6 * 1000) ^ 3 / (48 * E_STEEL * Ix ipe300)).
Proof.
  destruct (calc_defl_range ipe300 100 6 3) as (_ & _ & H).
  destruct H as (dl & Hrun & H0 & Hlt & _).
  - cbn [ipe300 Ix]. lra.
  - lra.
  - lra.
  - lra.
  - exists dl. split; [exact Hrun |]. split; [exact H0 |].
    apply Hlt. lra.
Defined.

(* ================================================================== *)
(** ** Edge cases of the fatigue check *)
(* ================================================================== *)

Lemma dict_get_missing {V : Type} (k : string) (d : list (string * V))
  (dflt : V) :
  ~ In k (map fst d) -> dict_get k d dflt = dflt.
Proof.
  induction d as [| [k' v] d' IH]; intros Hk.
  - reflexivity.
  - cbn [dict_get]. destruct (String.eqb k k') eqn:E.
    + apply String.eqb_eq in E. exfalso. apply Hk. left. cbn [fst].
      symmetry. exact E.
    + apply IH. intros Hin. apply Hk. right. exact Hin.
Qed.

(** X30. Edge cases of [check_fatigue].  A section whose [Sx] is not
    positive gives the fixed result (0, 999, 0).  A category name that
    is not in the table is treated as category E, and a cycle count
    below one as one cycle.  For [Sx > 0] the allowable range is at
    least the threshold of the category, which is at least 31 MPa, the
    ratio is the stress range over the allowable range, and a larger
    cycle count never gives a larger allowable range. *)
Theorem check_fatigue_edge_cases (sec : Section) (M N : R) (cat : string) :
  (Sx sec <= 0 -> check_fatigue sec M N cat = mkFatigueResult 0 999 0)
  /\ (~ In cat (map fst FATIGUE_CATS) ->
      check_fatigue sec M N cat = check_fatigue sec M N "E")
  /\ (N <= 1 -> check_fatigue sec M N cat = check_fatigue sec M 1 cat)
  /\ (0 < Sx sec ->
      31 <= thresh (dict_get cat FATIGUE_CATS FATIGUE_CAT_E)
         <= Fsr (check_fatigue sec M N cat)
      /\ ratio (check_fatigue sec M N cat)
         = sr (check_fatigue sec M N cat) / Fsr (check_fatigue sec M N cat)
      /\ forall N' : R,
           N <= N' ->
           Fsr (check_fatigue sec M N' cat)
           <= Fsr (check_fatigue sec M N cat)).
Proof.
  split; [| split; [| split]].
  - intros HS. unfold check_fatigue.
    destruct (Rle_dec (Sx sec) 0); [reflexivity | contradiction].
  - intros Hcat. unfold check_fatigue.
    rewrite (dict_get_missing cat FATIGUE_CATS FATIGUE_CAT_E Hcat).
    rewrite fatigue_entry_E. reflexivity.
  - intros HN. unfold check_fatigue.
    rewrite (max2_right N 1) by exact HN.
    rewrite (max2_left 1 1) by lra. reflexivity.
  - intros HS.
    destruct (fatigue_entry_bounds cat) as [HCf Hth]. cbv zeta in HCf, Hth.
    unfold check_fatigue.
    destruct (Rle_dec (Sx sec) 0) as [Hc | _]; [lra |].
    cbn [Fsr ratio sr].
    set (cf := dict_get cat FATIGUE_CATS FATIGUE_CAT_E) in *.
    assert (HF : forall n : R,
               thresh cf <= max2 (thresh cf)
                              (Rpower (Cf cf / max2 n 1) (1 / 3)))
      by (intros n; apply max2_ge_l).
    split; [split; [exact Hth | apply HF] |].
    split.
    + rewrite (max2_left (max2 _ _) 1); [reflexivity |].
      specialize (HF N). lra.
    + intros N' HNN.
      apply max2_mono; [lra |].
      pose proof (max2_one_pos N) as H1.
      pose proof (max2_one_pos N') as H1'.
      assert (Hm : max2 N 1 <= max2 N' 1) by (apply max2_mono; lra).
      apply Rle_Rpower_l; [lra |].
      split.
      * apply Rdiv_lt_0_compat; assumption.
      * unfold Rdiv. apply Rmult_le_compat_l; [lra |].
        apply Rinv_le_contravar; assumption.
Qed.

Lemma check_fatigue_edge_cases_witness :
  check_fatigue ipe300 100 0.5 "Z" = check_fatigue ipe300 100 0.5 "E"
  /\ check_fatigue ipe300 100 0.5 "Z" = check_fatigue ipe300 100 1 "Z"
  /\ 31 <= Fsr (check_fatigue ipe300 100 0.5 "Z")
  /\ Fsr (check_fatigue ipe300 100 2000000 "Z")
     <= Fsr (check_fatigue ipe300 100 0.5 "Z").
Proof.
  destruct (check_fatigue_edge_cases ipe300 100 0.5 "Z")
    as (_ & Hcat & HN & Hpos).
  split.
  - apply Hcat. cbn [FATIGUE_CATS map fst In].
    intros [H | [H | [H | [H | [H | [H | H]]]]]];
      try discriminate H; exact H.
  - split; [apply HN; lra |].
    destruct Hpos as ([H31 HF] & _ & Hmono).
    + cbn [ipe300 Sx]. lra.
    + split; [lra |]. apply Hmono. lra.
Defined.

(* ================================================================== *)
(** ** Two cranes that do not fit together *)
(* ================================================================== *)

(** The maximum-moment search keeps a case whose moment no trial
    position exceeds in magnitude; it keeps none only if every trial
    moment is zero. *)
Lemma search_max_M_dominates (L : R) (place : R -> list WheelPos)
  (ps : list R) :
  forall (p : R) (c' : LoadCase),
    In p ps -> analyze_load L (place p) = Some c' ->
    match search_max_M L place ps with
    | Some c => Rabs (M_max c') <= Rabs (M_max c)
    | None => Rabs (M_max c') <= 0
    end.
Proof.
  unfold search_max_M.
  set (step := fun (st : R * option LoadCase) (p : R) =>
                 keep_max_M L st (place p)).
  set (inv := fun (st : R * option LoadCase) (seen : list R) =>
                match snd st with
                | Some c => fst st = Rabs (M_max c)
                | None => fst st = 0
                end
                /\ forall p c', In p seen ->
                     analyze_load L (place p) = Some c' ->
                     Rabs (M_max c') <= fst st).
  assert (Hfold : forall ps0 st seen,
             inv st seen -> inv (fold_left step ps0 st) (seen ++ ps0)).
  { induction ps0 as [| q ps' IH]; intros st seen Hinv.
    - cbn [fold_left]. rewrite app_nil_r. exact Hinv.
    - cbn [fold_left].
      replace (seen ++ q :: ps') with ((seen ++ [q]) ++ ps')
        by (rewrite <- app_assoc; reflexivity).
      apply IH. destruct Hinv as [Hbest Hseen].
      unfold step, keep_max_M.
      destruct (analyze_load L (place q)) as [case |] eqn:Hq.
      + destruct (Rlt_dec (fst st) (Rabs (M_max case))) as [Hlt | Hge].
        * split; [reflexivity |]. cbn [fst].
          intros p c' Hin Hc'. apply in_app_or in Hin.
          destruct Hin as [Hin | [<- | []]].
          -- pose proof (Hseen p c' Hin Hc'). lra.
          -- rewrite Hq in Hc'. injection Hc' as <-. lra.
        * split; [exact Hbest |].
          intros p c' Hin Hc'. apply in_app_or in Hin.
          destruct Hin as [Hin | [<- | []]].
          -- exact (Hseen p c' Hin Hc').
          -- rewrite Hq in Hc'. injection Hc' as <-. lra.
      + split; [exact Hbest |].
        intros p c' Hin Hc'. apply in_app_or in Hin.
        destruct Hin as [Hin | [<- | []]].
        * exact (Hseen p c' Hin Hc').
        * rewrite Hq in Hc'. discriminate Hc'. }
  intros p c' Hin Hc'.
  assert (Hinit : inv (0, None) []).
  { split; [reflexivity |]. intros q c0 []. }
  pose proof (Hfold ps (0, None) [] Hinit) as [Hbest Hseen].
  cbn [app] in Hseen. specialize (Hseen p c' Hin Hc').
  destruct (snd (fold_left step ps (0, None))) as [c |].
  - rewrite <- Hbest. exact Hseen.
  - rewrite <- Hbest. exact Hseen.
Qed.

Lemma analyze_load_wheels (L : R) (ws : list WheelPos) (lc : LoadCase) :
  analyze_load L ws = Some lc -> wheels lc = ws.
Proof.
  unfold analyze_load. destruct ws as [| w ws']; [discriminate |].
  intros H. injection H as <-. reflexivity.
Qed.

Lemma single_crane_cases_fit_analyses (L : R) (c0 c : CraneData) (Pv_ : R)
  (results : list LoadCase) :
  wheel_load_with_impact c0 = Ok (c, Pv_) ->
  (1 <= num_wheels c)%Z ->
  crane_length c <= L ->
  exists (Ph_ : R) (mcase : list LoadCase) (lcL lcR : LoadCase),
    lateral_per_wheel c = Ok Ph_
    /\ single_crane_cases L c0 results = Ok (results ++ mcase ++ [lcL; lcR])
    /\ single_crane_result L c Pv_ Ph_ mcase lcL lcR.
Proof.
  intros Hload Hn Hfit. unfold crane_length in Hfit.
  destruct (lateral_per_wheel_defined c Hn) as [Ph_ Hlat].
  exists Ph_.
  unfold single_crane_cases. rewrite Hload. cbn [bind].
  rewrite Hlat. cbn [bind].
  destruct (Rlt_dec L (wheel_base c * IZR (num_wheels c - 1))) as [Hlt | _];
    [lra |].
  destruct (analyze_load_some L
              (place_wheels (crane_id c) (num_wheels c) (wheel_base c) 0.0
                 Pv_ Ph_)) as (lcL & HL & HwL).
  { apply place_wheels_nonempty. exact Hn. }
  destruct (analyze_load_some L
              (place_wheels (crane_id c) (num_wheels c) (wheel_base c)
                 (L - wheel_base c * IZR (num_wheels c - 1)) Pv_ Ph_))
    as (lcR & HR & HwR).
  { apply place_wheels_nonempty. exact Hn. }
  rewrite HL, HR. cbn [append_case].
  unfold single_crane_result, crane_length.
  pose proof (search_max_M_dominates L
                (fun p => place_wheels (crane_id c) (num_wheels c)
                            (wheel_base c) p Pv_ Ph_)
                (linspace 0 (L - wheel_base c * IZR (num_wheels c - 1)) 60))
    as Hdom.
  revert Hdom.
  destruct (search_max_M L _ _) as [best |] eqn:Hbest; cbn [append_case];
    intros Hdom.
  - exists [set_desc (CraneMaxM (crane_id c) (capacity_tonnes c)) best].
    do 2 eexists. split; [reflexivity |]. split.
    + rewrite <- !app_assoc. cbn [app]. reflexivity.
    + split; [cbn [List.length]; lia |]. split.
      * intros lc [<- | []].
        destruct (search_max_M_origin L _ _ best Hbest) as (p & Hp & Hc).
        exists p, best. split; [exact Hp |]. split; [exact Hc |].
        split; [reflexivity |]. cbn [set_desc wheels M_max].
        split; [apply (analyze_load_wheels L _ _ Hc) |].
        exact Hdom.
      * split; [discriminate |]. split.
        -- exists lcL. split; [exact HL |]. split; [reflexivity |].
           cbn [set_desc wheels]. exact HwL.
        -- exists lcR. split; [exact HR |]. split; [reflexivity |].
           cbn [set_desc wheels]. exact HwR.
  - exists []. do 2 eexists. split; [reflexivity |]. split.
    + rewrite <- !app_assoc. cbn [app]. reflexivity.
    + split; [cbn [List.length]; lia |]. split.
      * intros lc [].
      * split.
        { intros _ p' c' Hin Hc'.
          pose proof (Hdom p' c' Hin Hc') as Hle.
          pose proof (Rabs_pos (M_max c')) as Hpos.
          destruct (Req_dec (M_max c') 0) as [Hz | Hnz]; [exact Hz |].
          apply Rabs_pos_lt in Hnz. lra. }
        split.
        -- exists lcL. split; [exact HL |]. split; [reflexivity |].
           cbn [set_desc wheels]. exact HwL.
        -- exists lcR. split; [exact HR |]. split; [reflexivity |].
           cbn [set_desc wheels]. exact HwR.
Qed.

Lemma single_crane_result_frame (L : R) (c c' : CraneData)
  (a b w v Pv_ Ph_ : R) (m : list LoadCase) (l r : LoadCase) :
  c' = set_loads c a b w v ->
  single_crane_result L c' Pv_ Ph_ m l r ->
  single_crane_result L c Pv_ Ph_ m l r.
Proof.
  intros ->. unfold single_crane_result, crane_length.
  cbn [set_loads crane_id num_wheels wheel_base capacity_tonnes].
  intros H. exact H.
Qed.

Lemma single_crane_result_desc (L : R) (c : CraneData) (Pv_ Ph_ : R)
  (m : list LoadCase) (l r : LoadCase) :
  single_crane_result L c Pv_ Ph_ m l r ->
  (forall lc, In lc m ->
     desc lc = CraneMaxM (crane_id c) (capacity_tonnes c))
  /\ desc l = CraneMaxVLeft (crane_id c) (capacity_tonnes c)
  /\ desc r = CraneMaxVRight (crane_id c) (capacity_tonnes c).
Proof.
  intros (_ & Hm & _ & (l0 & _ & Hl & _) & (r0 & _ & Hr & _)).
  split; [| split].
  - intros lc Hin. destruct (Hm lc Hin) as (p & lc0 & _ & _ & -> & _).
    reflexivity.
  - rewrite Hl. reflexivity.
  - rewrite Hr. reflexivity.
Qed.

(** C7. For two cranes whose wheel loads can be computed, each of which
    fits on the span while the two together with the gap between them
    ([buffer_right] of the first plus [buffer_left] of the second) do
    not, [find_critical] raises nothing, returns no two-crane case, and
    the returned list consists of the single-crane cases of the first
    crane followed by those of the second.  The cases of a crane are: at
    most one moment case, which is [analyze_load] of the crane's wheels
    at one of the 60 trial positions and whose moment no trial position
    exceeds in magnitude (it is absent only if every trial moment is
    zero); then [analyze_load] of its wheels with the first wheel at 0;
    then [analyze_load] of its wheels with the first wheel at
    [L - crane_length]; each under its description, the wheels carrying
    the crane's wheel load with impact and its lateral load per
    wheel. *)
Theorem find_critical_two_cranes_do_not_fit (L : R) (c1 c2 : CraneData) :
  crane_loads_defined c1 ->
  crane_loads_defined c2 ->
  crane_length c1 <= L ->
  crane_length c2 <= L ->
  L < crane_length c1 + (buffer_right c1 + buffer_left c2) + crane_length c2 ->
  exists (m1 m2 : list LoadCase) (l1 r1 l2 r2 : LoadCase),
    find_critical L [c1; c2] = Ok (m1 ++ [l1; r1] ++ m2 ++ [l2; r2])
    /\ (forall lc, In lc (m1 ++ [l1; r1] ++ m2 ++ [l2; r2]) ->
          is_two_crane_desc (desc lc) = false
          /\ is_single_crane_desc (desc lc) = true)
    /\ (forall lc, In lc m1 ->
          desc lc = CraneMaxM (crane_id c1) (capacity_tonnes c1))
    /\ desc l1 = CraneMaxVLeft (crane_id c1) (capacity_tonnes c1)
    /\ desc r1 = CraneMaxVRight (crane_id c1) (capacity_tonnes c1)
    /\ (forall lc, In lc m2 ->
          desc lc = CraneMaxM (crane_id c2) (capacity_tonnes c2))
    /\ desc l2 = CraneMaxVLeft (crane_id c2) (capacity_tonnes c2)
    /\ desc r2 = CraneMaxVRight (crane_id c2) (capacity_tonnes c2)
    /\ exists (c1' c2' : CraneData) (Pv1 Ph1 Pv2 Ph2 : R),
         wheel_load_with_impact c1 = Ok (c1', Pv1)
         /\ lateral_per_wheel c1' = Ok Ph1
         /\ wheel_load_with_impact c2 = Ok (c2', Pv2)
         /\ lateral_per_wheel c2' = Ok Ph2
         /\ single_crane_result L c1 Pv1 Ph1 m1 l1 r1
         /\ single_crane_result L c2 Pv2 Ph2 m2 l2 r2.
Proof.
  intros Hd1 Hd2 Hfit1 Hfit2 Hlong.
  destruct (wheel_load_with_impact_defined c1 Hd1) as (c1' & Pv1 & Hw1).
  destruct (wheel_load_with_impact_defined c2 Hd2) as (c2' & Pv2 & Hw2).
  destruct (wheel_load_with_impact_frame c1 c1' Pv1 Hw1)
    as (a1 & b1 & w1 & v1 & Hc1).
  destruct (wheel_load_with_impact_frame c2 c2' Pv2 Hw2)
    as (a2 & b2 & w2 & v2 & Hc2).
  pose proof (wheel_load_with_impact_again c1 c1' Pv1 Hw1) as Hw1'.
  pose proof (wheel_load_with_impact_again c2 c2' Pv2 Hw2) as Hw2'.
  destruct Hd1 as [Hn1 _]. destruct Hd2 as [Hn2 _].
  assert (Hn1' : (1 <= num_wheels c1')%Z) by (rewrite Hc1; exact Hn1).
  assert (Hn2' : (1 <= num_wheels c2')%Z) by (rewrite Hc2; exact Hn2).
  assert (Hfit1' : crane_length c1' <= L) by (rewrite Hc1; exact Hfit1).
  assert (Hfit2' : crane_length c2' <= L) by (rewrite Hc2; exact Hfit2).
  assert (Hlong' : L < crane_length c1'
                       + (buffer_right c1' + buffer_left c2')
                       + crane_length c2')
    by (rewrite Hc1, Hc2; exact Hlong).
  destruct (single_crane_cases_fit_analyses L c1' c1' Pv1 [] Hw1' Hn1' Hfit1')
    as (Ph1 & m1 & l1 & r1 & Hlat1 & Hs1 & Hres1).
  destruct (single_crane_cases_fit_analyses L c2' c2' Pv2
              ([] ++ m1 ++ [l1; r1]) Hw2' Hn2' Hfit2')
    as (Ph2 & m2 & l2 & r2 & Hlat2 & Hs2 & Hres2).
  apply (single_crane_result_frame L c1 c1' a1 b1 w1 v1 _ _ _ _ _ Hc1)
    in Hres1.
  apply (single_crane_result_frame L c2 c2' a2 b2 w2 v2 _ _ _ _ _ Hc2)
    in Hres2.
  destruct (single_crane_result_desc L c1 Pv1 Ph1 m1 l1 r1 Hres1)
    as (Hm1 & Hl1 & Hr1).
  destruct (single_crane_result_desc L c2 Pv2 Ph2 m2 l2 r2 Hres2)
    as (Hm2 & Hl2 & Hr2).
  exists m1, m2, l1, r1, l2, r2.
  split.
  - unfold find_critical. cbn [mapM].
    rewrite Hw1. cbn [bind]. rewrite Hw2. cbn [bind map fst fold_left].
    rewrite Hs1. cbn [bind]. rewrite Hs2. cbn [bind].
    rewrite (two_crane_cases_do_not_fit L c1' c2' Pv1 Pv2 _
               Hw1' Hw2' Hn1' Hn2' Hlong').
    cbn [bind]. rewrite three_crane_cases_two.
    cbn [app]. rewrite <- !app_assoc. reflexivity.
  - split.
    + intros lc Hin.
      apply in_app_or in Hin. destruct Hin as [Hin | Hin].
      { rewrite (Hm1 lc Hin). split; reflexivity. }
      apply in_app_or in Hin. destruct Hin as [Hin | Hin].
      { destruct Hin as [<- | [<- | []]].
        - rewrite Hl1. split; reflexivity.
        - rewrite Hr1. split; reflexivity. }
      apply in_app_or in Hin. destruct Hin as [Hin | Hin].
      { rewrite (Hm2 lc Hin). split; reflexivity. }
      destruct Hin as [<- | [<- | []]].
      * rewrite Hl2. split; reflexivity.
      * rewrite Hr2. split; reflexivity.
    + split; [exact Hm1 |]. split; [exact Hl1 |]. split; [exact Hr1 |].
      split; [exact Hm2 |]. split; [exact Hl2 |]. split; [exact Hr2 |].
      exists c1', c2', Pv1, Ph1, Pv2, Ph2.
      split; [exact Hw1 |]. split; [exact Hlat1 |].
      split; [exact Hw2 |]. split; [exact Hlat2 |].
      split; [exact Hres1 | exact Hres2].
Qed.

Lemma find_critical_two_cranes_do_not_fit_witness :
  exists (m1 m2 : list LoadCase) (l1 r1 l2 r2 : LoadCase),
    find_critical 4 [scenario1_crane; scenario1_crane_2]
    = Ok (m1 ++ [l1; r1] ++ m2 ++ [l2; r2])
    /\ (forall lc, In lc (m1 ++ [l1; r1] ++ m2 ++ [l2; r2]) ->
          is_two_crane_desc (desc lc) = false
          /\ is_single_crane_desc (desc lc) = true)
    /\ (forall lc, In lc m1 ->
          desc lc = CraneMaxM (crane_id scenario1_crane)
                      (capacity_tonnes scenario1_crane))
    /\ desc l1 = CraneMaxVLeft (crane_id scenario1_crane)
                   (capacity_tonnes scenario1_crane)
    /\ desc r1 = CraneMaxVRight (crane_id scenario1_crane)
                   (capacity_tonnes scenario1_crane)
    /\ (forall lc, In lc m2 ->
          desc lc = CraneMaxM (crane_id scenario1_crane_2)
                      (capacity_tonnes scenario1_crane_2))
    /\ desc l2 = CraneMaxVLeft (crane_id scenario1_crane_2)
                   (capacity_tonnes scenario1_crane_2)
    /\ desc r2 = CraneMaxVRight (crane_id scenario1_crane_2)
                   (capacity_tonnes scenario1_crane_2)
    /\ exists (c1' c2' : CraneData) (Pv1 Ph1 Pv2 Ph2 : R),
         wheel_load_with_impact scenario1_crane = Ok (c1', Pv1)
         /\ lateral_per_wheel c1' = Ok Ph1
         /\ wheel_load_with_impact scenario1_crane_2 = Ok (c2', Pv2)
         /\ lateral_per_wheel c2' = Ok Ph2
         /\ single_crane_result 4 scenario1_crane Pv1 Ph1 m1 l1 r1
         /\ single_crane_result 4 scenario1_crane_2 Pv2 Ph2 m2 l2 r2.
Proof.
  apply (find_critical_two_cranes_do_not_fit 4 scenario1_crane
           scenario1_crane_2).
  - split; [cbn [scenario1_crane num_wheels]; lia |].
    right. cbn [scenario1_crane bridge_span]. lra.
  - split; [cbn [scenario1_crane_2 num_wheels]; lia |].
    right. cbn [scenario1_crane_2 bridge_span]. lra.
  - unfold crane_length. cbn [scenario1_crane wheel_base num_wheels].
    change (IZR (2 - 1)) with 1. lra.
  - unfold crane_length. cbn [scenario1_crane_2 wheel_base num_wheels].
    change (IZR (2 - 1)) with 1. lra.
  - unfold crane_length.
    cbn [scenario1_crane scenario1_crane_2 wheel_base num_wheels
         buffer_right buffer_left].
    change (IZR (2 - 1)) with 1. lra.
Defined.

(* ================================================================== *)
(** ** Statements settled in binary64 *)
(* ================================================================== *)

Section Binary64.

Import PrimFloat.
Local Open Scope float_scope.




Lemma sqrt_E_over_returns (Fy s : float) :
  F64.sqrt_E_over Fy = Ok s -> s = PrimFloat.sqrt (F64.E_STEEL / Fy).
Proof.
  unfold F64.sqrt_E_over, F64.truediv, F64.math_sqrt.
  destruct (Fy =? 0); cbn [bind]; [discriminate |].
  destruct (F64.E_STEEL / Fy <? 0); [discriminate |].
  intros H. apply Ok_inj in H. symmetry. exact H.
Qed.

(** The claim C3 as stated fails on the lower limit: the 940 x 10 web
    with [Fy = 320] has the ratio 94, the computed limit
    [3.76 * sqrt(E/Fy)] is 94 as well, and the web is Compact, not
    Noncompact. *)
Lemma check_compact_lower_limit_counterexample :
  exists r,
    F64.check_compact F64.web_940 320 = Ok r
    /\ F64.lw r = 94
    /\ F64.lpw r = 94
    /\ F64.web r = "Compact"%string
    /\ F64.web r <> "Noncompact"%string.
Proof.
  eexists. split; [vm_compute; reflexivity |].
  cbn [F64.lw F64.lpw F64.web].
  repeat split; try reflexivity. discriminate.
Qed.

(** C3, amended. Whenever [check_compact] returns, the web ratio it
    returns is [hw / max(tw, 1)], the limits it returns are
    [3.76 * sqrt(E/Fy)] and [5.70 * sqrt(E/Fy)] as computed in binary64,
    and the web is Compact when the ratio does not exceed the first
    computed limit (a ratio equal to it is Compact), Noncompact when it
    exceeds the first and not the second (a ratio equal to the second is
    Noncompact), and Slender otherwise. *)
Theorem check_compact_web_computed_limits (sec : F64.Section) (Fy : float)
  (r : F64.CompactResult) :
  F64.check_compact sec Fy = Ok r ->
  F64.lw r = F64.hw sec / F64.max2 (F64.tw sec) 1
  /\ F64.lpw r = 3.76 * PrimFloat.sqrt (F64.E_STEEL / Fy)
  /\ F64.lrw r = 5.70 * PrimFloat.sqrt (F64.E_STEEL / Fy)
  /\ ((F64.lw r <=? F64.lpw r) = true -> F64.web r = "Compact"%string)
  /\ ((F64.lw r <=? F64.lpw r) = false ->
      (F64.lw r <=? F64.lrw r) = true -> F64.web r = "Noncompact"%string)
  /\ ((F64.lw r <=? F64.lpw r) = false ->
      (F64.lw r <=? F64.lrw r) = false -> F64.web r = "Slender"%string).
Proof.
  intros H. unfold F64.check_compact in H.
  destruct (F64.sqrt_E_over Fy) as [s |] eqn:Hs; cbn [bind] in H;
    [| discriminate H].
  apply sqrt_E_over_returns in Hs.
  apply Ok_inj in H. subst r.
  cbn [F64.lw F64.lpw F64.lrw F64.web]. rewrite <- Hs.
  split; [reflexivity |]. split; [reflexivity |]. split; [reflexivity |].
  unfold F64.classify.
  destruct (F64.hw sec / F64.max2 (F64.tw sec) 1 <=? 3.76 * s);
    destruct (F64.hw sec / F64.max2 (F64.tw sec) 1 <=? 5.70 * s);
    repeat split; intros; try reflexivity; discriminate.
Qed.

Lemma check_compact_web_computed_limits_witness :
  exists r,
    F64.check_compact F64.web_752 500 = Ok r
    /\ F64.lw r = 75.2
    /\ F64.lpw r = 75.199999999999989
    /\ F64.web r = "Noncompact"%string.
Proof.
  assert (Hrun : exists r, F64.check_compact F64.web_752 500 = Ok r
                           /\ F64.lw r = 75.2
                           /\ F64.lpw r = 75.199999999999989
                           /\ F64.lrw r = 114).
  { eexists. split; [vm_compute; reflexivity |].
    cbn [F64.lw F64.lpw F64.lrw]. repeat split. }
  destruct Hrun as (r & Hr & Hlw & Hlpw & Hlrw).
  exists r. split; [exact Hr |]. split; [exact Hlw |]. split; [exact Hlpw |].
  destruct (check_compact_web_computed_limits F64.web_752 500 r Hr)
    as (_ & _ & _ & _ & Hnc & _).
  apply Hnc; rewrite Hlw; [rewrite Hlpw | rewrite Hlrw]; reflexivity.
Defined.



End Binary64.
